(** * volctl: the PulseAudio manager of [volctl/lib/pa_wrapper.py]

    A shallow embedding of the reconciliation layer ([PulseAudioManager],
    [Sink], [SinkInput], [Client]), of the volume expansion
    [cvolume_from_volume] and of the peak computation of
    [AbstractMonitorableSink._on_stream_read], followed by the properties
    the specification states about them. *)

From Stdlib Require Import ZArith QArith List String Ascii Strings.Byte Lia.
From Stdlib Require Import DecimalString.
From stdpp Require Import base option list gmap strings.

Close Scope Q_scope.
Open Scope string_scope.
Open Scope list_scope.
Open Scope Z_scope.

(** ** Python values the module relies on *)

(** Exceptions the modelled statements can raise.  [ReferenceError] stands
    for the use of a reference that no object is bound to.  References are
    only produced by constructing an object, and every reference the
    dictionaries hold is bound ([reachable_wf] below). *)
Inductive exn : Type :=
| KeyError
| IndexError
| AttributeError
| ZeroDivisionError
| ReferenceError.

#[global] Instance exn_eq_dec : EqDecision exn.
Proof. solve_decision. Defined.

Inductive result (A : Type) : Type :=
| Ok (a : A)
| Raise (e : exn).
Arguments Ok {A} a.
Arguments Raise {A} e.

(** [char *] fields of the ctypes structures arrive as Python [bytes]; text
    obtained with [.decode("utf-8")] is a Python [str].  Both are kept as
    their sequence of bytes.  The server validates every name, description
    and property as UTF-8 before it sends it, so [decode] does not fail on
    the values the callbacks receive. *)
Abbreviation bytes := string (only parsing).
Abbreviation str := string (only parsing).

Definition decode (b : bytes) : str := b.

(** The objects compared with [==] in the module: [None], a [str] or a
    [bytes].  Python 3 never equates a [bytes] with a [str]. *)
Inductive pyobj : Type :=
| PyNone
| PyStr (s : str)
| PyBytes (b : bytes).

Definition py_eq (a b : pyobj) : bool :=
  match a, b with
  | PyNone, PyNone => true
  | PyStr s, PyStr t => String.eqb s t
  | PyBytes s, PyBytes t => String.eqb s t
  | _, _ => false
  end.

Definition of_opt_bytes (o : option bytes) : pyobj :=
  match o with
  | None => PyNone
  | Some b => PyBytes b
  end.

(** [x in (a, b, ...)] on a tuple. *)
Definition py_in (x : pyobj) (l : list pyobj) : bool := existsb (py_eq x) l.

(** [bool(n)] of a C integer. *)
Definition py_bool (n : Z) : bool := negb (Z.eqb n 0).

(** ["{}".format(x)] of an optional text: [None] prints as its name. *)
Definition py_format (o : option str) : str :=
  match o with
  | None => "None"
  | Some s => s
  end.

(** ** Insertion-ordered dictionaries

    [_pa_sinks] is read through [list(d.keys())[0]], so the order of its
    keys matters: a new key goes to the end, an assignment to a present key
    keeps its place. *)
Section odict.
Context {V : Type}.

Definition odict := list (Z * V).

Fixpoint od_get (k : Z) (d : odict) : option V :=
  match d with
  | [] => None
  | (k', v) :: d' => if Z.eqb k k' then Some v else od_get k d'
  end.

Definition od_contains (k : Z) (d : odict) : bool :=
  match od_get k d with
  | Some _ => true
  | None => false
  end.

Fixpoint od_set (k : Z) (v : V) (d : odict) : odict :=
  match d with
  | [] => [(k, v)]
  | (k', v') :: d' =>
      if Z.eqb k k' then (k, v) :: d' else (k', v') :: od_set k v d'
  end.

Fixpoint od_remove (k : Z) (d : odict) : odict :=
  match d with
  | [] => []
  | (k', v') :: d' =>
      if Z.eqb k k' then d' else (k', v') :: od_remove k d'
  end.

Definition od_keys (d : odict) : list Z := map fst d.
End odict.
Arguments odict V : clear implicits.

(** ** ctypes structures of libpulse *)

(** [uint8_t] and [pa_volume_t] ([uint32_t]) fields keep the low bits of the
    integer assigned to them. *)
Definition c_uint8 (z : Z) : Z := z mod 256.
Definition pa_volume_t (z : Z) : Z := z mod 2 ^ 32.

(** [pa_cvolume]: [uint8_t channels; pa_volume_t values[32]]. *)
Record pa_cvolume : Type := Build_pa_cvolume {
  cv_channels : Z;
  cv_values : list Z
}.

(** [pa_volume_t * 32]: the array type, and a fresh zeroed instance. *)
Definition vol_slots : nat := 32.
Definition vol : list Z := replicate vol_slots 0.

(** [pa_cvolume()]. *)
Definition pa_cvolume_new : pa_cvolume :=
  {| cv_channels := 0; cv_values := replicate vol_slots 0 |}.

(** [a[i] = v] on a [pa_volume_t] array: the index is checked against the
    length, the value keeps its low 32 bits. *)
Definition array_setitem (a : list Z) (i : nat) (v : Z) : result (list Z) :=
  if bool_decide (i < length a)%nat
  then Ok (<[i := pa_volume_t v]> a)
  else Raise IndexError.

(** [a[0]] of a [values] array (never out of range: 32 slots). *)
Definition array_head (a : list Z) : Z := default 0 (a !! 0%nat).

(** The fields of the info structures the callbacks read.  [name],
    [description] and [driver] are [char *] fields, which Python reads as
    [bytes]: the source decodes them where it needs text. *)
Record pa_sink_info : Type := {
  si_name : bytes;
  si_description : bytes;
  si_volume : pa_cvolume;
  si_mute : Z
}.

Record pa_sink_input_info : Type := {
  sii_name : bytes;
  sii_driver : bytes;
  sii_client : Z;
  sii_sink : Z;
  sii_volume : pa_cvolume;
  sii_mute : Z
}.

Record pa_client_info : Type := {
  ci_name : bytes
}.

(** The property list as [_dict_from_proplist] returns it. *)
Abbreviation proplist := (gmap string string) (only parsing).

(** ** [cvolume_from_volume] *)

(** [for i in ...: cvolume.values[i] = volume]. *)
Fixpoint fill_values (idxs : list nat) (volume : Z) (values : list Z)
  : result (list Z) :=
  match idxs with
  | [] => Ok values
  | i :: rest =>
      match array_setitem values i volume with
      | Ok values' => fill_values rest volume values'
      | Raise e => Raise e
      end
  end.

(** [range(0, n)]. *)
Definition py_range (n : Z) : list nat := seq 0 (Z.to_nat n).

Definition cvolume_from_volume (volume channels : Z) : result pa_cvolume :=
  (* cvolume = pa_cvolume() *)
  let cvolume := pa_cvolume_new in
  (* cvolume.channels = channels *)
  let cvolume := {| cv_channels := c_uint8 channels;
                    cv_values := cv_values cvolume |} in
  (* cvolume.values = vol() *)
  let cvolume := {| cv_channels := cv_channels cvolume; cv_values := vol |} in
  (* for i in range(0, channels): cvolume.values[i] = volume *)
  match fill_values (py_range channels) volume (cv_values cvolume) with
  | Ok values =>
      Ok {| cv_channels := cv_channels cvolume; cv_values := values |}
  | Raise e => Raise e
  end.

(** ** The objects of the mirror *)

(** An instance attribute that is bound by an assignment: reading it before
    any assignment raises [AttributeError]. *)
Definition attr (A : Type) : Type := option A.

Definition getattr {A : Type} (a : attr A) : result A :=
  match a with
  | Some v => Ok v
  | None => Raise AttributeError
  end.

(** References to objects.  A [Sink] is held by [_pa_sinks] and by
    [_pa_sinks_by_name] at once and is updated in place, so the
    dictionaries store references into a table of objects; [SinkInput]
    objects are kept the same way. *)
Abbreviation ref := nat (only parsing).

Module Client.
Record t : Type := mk {
  idx : Z;
  name : str;
  icon_name : option str
}.
End Client.

Module Sink.
Record t : Type := mk {
  idx : Z;
  volume : Z;
  channels : Z;
  mute : bool;
  _icon_name : option str;
  _name : str;
  _sink_name : bytes
}.
End Sink.

Module SinkInput.
Record t : Type := mk {
  idx : Z;
  volume : Z;
  channels : Z;
  mute : bool;
  _icon_name : attr (option str);
  _name : str;
  _sink_idx : Z;
  client : attr Z;
  app_name : attr (option str);
  media_name : attr (option str)
}.
End SinkInput.

(** Calls handed to [GObject.idle_add], in the order they were queued.  The
    peak level is the exact quotient the callback computes. *)
Inductive idle_call : Type :=
| slider_count_changed
| update_values (volume : Z) (mute : bool)
| update_sink_scale (idx volume : Z) (mute : bool)
| update_sink_input_scale (idx volume : Z) (mute : bool)
| update_sink_peak (idx : Z) (val : Q)
| update_sink_input_peak (idx : Z) (val : Q).

(** Requests sent on the PulseAudio context by [PulseAudio.set_sink_volume]
    and [PulseAudio.set_sink_input_volume]. *)
Inductive pa_request : Type :=
| pa_context_set_sink_volume_by_index (index : Z) (cvolume : pa_cvolume)
| pa_context_set_sink_input_volume (index : Z) (cvolume : pa_cvolume).

(** The attributes of [PulseAudioManager] that its callbacks touch, the
    table of [Sink] objects, the idle queue and the requests sent. *)
Record state : Type := mk_state {
  _pa_clients : gmap Z Client.t;
  _pa_sinks : odict ref;
  _pa_sinks_by_name : gmap string ref;
  _default_sink : option bytes;
  _pa_sink_inputs : gmap Z ref;
  sink_objects : list Sink.t;
  sink_input_objects : list SinkInput.t;
  idle_queue : list idle_call;
  requests : list pa_request
}.

(** [PulseAudioManager.__init__]. *)
Definition init : state :=
  {| _pa_clients := empty;
     _pa_sinks := [];
     _pa_sinks_by_name := empty;
     _default_sink := None;
     _pa_sink_inputs := empty;
     sink_objects := [];
     sink_input_objects := [];
     idle_queue := [];
     requests := [] |}.

(** Every name bound on a [PulseAudioManager]: the attributes [__init__]
    assigns and the members of the class. *)
Definition manager_names : list string :=
  [ "volctl"; "_pa_clients"; "_pa_sinks"; "_pa_sinks_by_name";
    "_default_sink"; "_pa_sink_inputs"; "_pulseaudio"; "context";
    "samplespec"; "mainloop"; "pa_sinks"; "pa_sink_inputs"; "get_pa_client";
    "close"; "get_first_sink"; "get_main_sink"; "is_main_sink";
    "set_sink_volume"; "set_sink_mute"; "set_sink_input_volume";
    "set_sink_input_mute"; "set_main_volume"; "toggle_main_mute";
    "_on_new_pa_client"; "_on_remove_pa_client"; "_on_new_pa_sink";
    "_on_remove_pa_sink"; "_on_new_pa_sink_input";
    "_on_remove_pa_sink_input"; "_on_default_sink" ].

Definition set_pa_clients
  (f : gmap Z Client.t -> gmap Z Client.t) (st : state) : state :=
  mk_state (f (_pa_clients st)) (_pa_sinks st) (_pa_sinks_by_name st)
    (_default_sink st) (_pa_sink_inputs st) (sink_objects st)
    (sink_input_objects st) (idle_queue st) (requests st).
Definition set_pa_sinks
  (f : odict ref -> odict ref) (st : state) : state :=
  mk_state (_pa_clients st) (f (_pa_sinks st)) (_pa_sinks_by_name st)
    (_default_sink st) (_pa_sink_inputs st) (sink_objects st)
    (sink_input_objects st) (idle_queue st) (requests st).
Definition set_pa_sinks_by_name
  (f : gmap string ref -> gmap string ref) (st : state) : state :=
  mk_state (_pa_clients st) (_pa_sinks st) (f (_pa_sinks_by_name st))
    (_default_sink st) (_pa_sink_inputs st) (sink_objects st)
    (sink_input_objects st) (idle_queue st) (requests st).
Definition set_default_sink
  (f : option bytes -> option bytes) (st : state) : state :=
  mk_state (_pa_clients st) (_pa_sinks st) (_pa_sinks_by_name st)
    (f (_default_sink st)) (_pa_sink_inputs st) (sink_objects st)
    (sink_input_objects st) (idle_queue st) (requests st).
Definition set_pa_sink_inputs
  (f : gmap Z ref -> gmap Z ref) (st : state) : state :=
  mk_state (_pa_clients st) (_pa_sinks st) (_pa_sinks_by_name st)
    (_default_sink st) (f (_pa_sink_inputs st)) (sink_objects st)
    (sink_input_objects st) (idle_queue st) (requests st).
Definition set_sink_objects
  (f : list Sink.t -> list Sink.t) (st : state) : state :=
  mk_state (_pa_clients st) (_pa_sinks st) (_pa_sinks_by_name st)
    (_default_sink st) (_pa_sink_inputs st) (f (sink_objects st))
    (sink_input_objects st) (idle_queue st) (requests st).
Definition set_sink_input_objects
  (f : list SinkInput.t -> list SinkInput.t) (st : state) : state :=
  mk_state (_pa_clients st) (_pa_sinks st) (_pa_sinks_by_name st)
    (_default_sink st) (_pa_sink_inputs st) (sink_objects st)
    (f (sink_input_objects st)) (idle_queue st) (requests st).
Definition set_idle_queue
  (f : list idle_call -> list idle_call) (st : state) : state :=
  mk_state (_pa_clients st) (_pa_sinks st) (_pa_sinks_by_name st)
    (_default_sink st) (_pa_sink_inputs st) (sink_objects st)
    (sink_input_objects st) (f (idle_queue st)) (requests st).
Definition set_requests
  (f : list pa_request -> list pa_request) (st : state) : state :=
  mk_state (_pa_clients st) (_pa_sinks st) (_pa_sinks_by_name st)
    (_default_sink st) (_pa_sink_inputs st) (sink_objects st)
    (sink_input_objects st) (idle_queue st) (f (requests st)).

(** ** Statements: a state that survives a raised exception *)

Definition M (A : Type) : Type := state -> state * result A.

Definition ret {A : Type} (a : A) : M A := fun st => (st, Ok a).
Definition raise {A : Type} (e : exn) : M A := fun st => (st, Raise e).
Definition bind {A B : Type} (m : M A) (k : A -> M B) : M B :=
  fun st =>
    match m st with
    | (st', Ok a) => k a st'
    | (st', Raise e) => (st', Raise e)
    end.
Definition lift {A : Type} (r : result A) : M A := fun st => (st, r).
Definition gets {A : Type} (f : state -> A) : M A := fun st => (st, Ok (f st)).
Definition modify (f : state -> state) : M unit := fun st => (f st, Ok tt).

(** [try: body except e: handler]. *)
Definition try_except {A : Type} (body : M A) (e : exn) (handler : M A) : M A :=
  fun st =>
    match body st with
    | (st', Raise e') =>
        if bool_decide (e' = e) then handler st' else (st', Raise e')
    | r => r
    end.

Declare Scope py_scope.
Delimit Scope py_scope with py.
Notation "x <- m ;; k" := (bind m (fun x => k))
  (at level 100, m at next level, right associativity) : py_scope.
Notation "m ;;; k" := (bind m (fun _ => k))
  (at level 100, right associativity) : py_scope.
Open Scope py_scope.

(** ** Primitive statements *)

(** [GObject.idle_add(call)]. *)
Definition idle_add (c : idle_call) : M unit :=
  modify (set_idle_queue (fun q => q ++ [c])).

(** [getattr(self, name)] on the manager, for a name no assignment binds. *)
Definition manager_getattr (name : string) : M unit :=
  if existsb (String.eqb name) manager_names then ret tt
  else raise AttributeError.

Definition new_sink_object (s : Sink.t) : M ref :=
  fun st =>
    (set_sink_objects (fun h => h ++ [s]) st, Ok (length (sink_objects st))).
Definition read_sink (r : ref) : M Sink.t :=
  fun st =>
    match sink_objects st !! r with
    | Some s => (st, Ok s)
    | None => (st, Raise ReferenceError)
    end.
Definition write_sink (r : ref) (s : Sink.t) : M unit :=
  modify (set_sink_objects (fun h => <[r := s]> h)).

Definition new_sink_input_object (s : SinkInput.t) : M ref :=
  fun st =>
    (set_sink_input_objects (fun h => h ++ [s]) st,
     Ok (length (sink_input_objects st))).
Definition read_sink_input (r : ref) : M SinkInput.t :=
  fun st =>
    match sink_input_objects st !! r with
    | Some s => (st, Ok s)
    | None => (st, Raise ReferenceError)
    end.
Definition write_sink_input (r : ref) (s : SinkInput.t) : M unit :=
  modify (set_sink_input_objects (fun h => <[r := s]> h)).

(** [d[k]] and [del d[k]] on the dictionaries of the manager. *)
Definition getitem {K V : Type} `{Countable K}
  (d : state -> gmap K V) (k : K) : M V :=
  fun st =>
    match d st !! k with
    | Some v => (st, Ok v)
    | None => (st, Raise KeyError)
    end.

Definition od_getitem {V : Type} (d : state -> odict V) (k : Z) : M V :=
  fun st =>
    match od_get k (d st) with
    | Some v => (st, Ok v)
    | None => (st, Raise KeyError)
    end.

(** [del self._pa_sinks_by_name[k]]. *)
Definition delitem_sinks_by_name (k : bytes) : M unit :=
  getitem _pa_sinks_by_name k ;;;
  modify (set_pa_sinks_by_name (delete k)).

(** [l[i]] on a list. *)
Definition list_getitem {A : Type} (l : list A) (i : nat) : M A :=
  match l !! i with
  | Some a => ret a
  | None => raise IndexError
  end.

(** ** [PulseAudio]: the requests of the connection *)

Definition PulseAudio_set_sink_volume (index : Z) (cvolume : pa_cvolume)
  : M unit :=
  modify (set_requests
            (fun q => q ++ [pa_context_set_sink_volume_by_index index cvolume])).

Definition PulseAudio_set_sink_input_volume (index : Z) (cvolume : pa_cvolume)
  : M unit :=
  modify (set_requests
            (fun q => q ++ [pa_context_set_sink_input_volume index cvolume])).

(** ** [PulseAudioManager]: what [Sink] and [SinkInput] call *)

Definition get_pa_client (client : Z) : M Client.t :=
  getitem _pa_clients client.

Definition get_first_sink : M (option ref) :=
  try_except
    (keys <- gets (fun st => od_keys (_pa_sinks st)) ;;
     first_key <- list_getitem keys 0 ;;
     sink <- od_getitem _pa_sinks first_key ;;
     ret (Some sink))
    IndexError
    (ret None).

Definition get_main_sink : M (option ref) :=
  default_sink <- gets _default_sink ;;
  match default_sink with
  | None => get_first_sink
  | Some name =>
      sink <- getitem _pa_sinks_by_name name ;;
      ret (Some sink)
  end.

Definition is_main_sink (sink_name : bytes) : M bool :=
  default_sink <- gets _default_sink ;;
  ret (py_eq (PyBytes sink_name) (of_opt_bytes default_sink)).

Definition set_sink_volume (index : Z) (cvolume : pa_cvolume) : M unit :=
  PulseAudio_set_sink_volume index cvolume.

Definition set_sink_input_volume (index : Z) (cvolume : pa_cvolume) : M unit :=
  PulseAudio_set_sink_input_volume index cvolume.

(** ** [Client] *)

Definition Client_init (idx : Z) : Client.t :=
  {| Client.idx := idx; Client.name := ""; Client.icon_name := None |}.

Definition Client_update (self : Client.t) (struct : pa_client_info)
  (props : proplist) : Client.t :=
  {| Client.idx := Client.idx self;
     Client.name := decode (ci_name struct);
     Client.icon_name :=
       Some (decode (default "multimedia-volume-control"
                       (props !! "application.icon_name"))) |}.

(** ** [Sink] *)

(** [AbstractMonitorableSink.__init__] on a [Sink].  [_sink_name] is first
    assigned by [update], which [Sink.__init__] runs before the object is
    returned; the empty name below is never read. *)
Definition Sink_base_init (idx : Z) : Sink.t :=
  {| Sink.idx := idx; Sink.volume := 0; Sink.channels := 0;
     Sink.mute := false; Sink._icon_name := None; Sink._name := "";
     Sink._sink_name := "" |}.

(** [AbstractMonitorableSink.update] on a [Sink]. *)
Definition Sink_base_update (self : Sink.t) (volume : pa_cvolume) (mute : Z)
  : Sink.t :=
  {| Sink.idx := Sink.idx self;
     Sink.volume := array_head (cv_values volume);
     Sink.channels := cv_channels volume;
     Sink.mute := py_bool mute;
     Sink._icon_name := Sink._icon_name self;
     Sink._name := Sink._name self;
     Sink._sink_name := Sink._sink_name self |}.

(** The fields [Sink.update] assigns, [super().update] first. *)
Definition Sink_updated (self : Sink.t) (struct : pa_sink_info)
  (props : proplist) : Sink.t :=
  let self := Sink_base_update self (si_volume struct) (si_mute struct) in
  {| Sink.idx := Sink.idx self;
     Sink.volume := array_head (cv_values (si_volume struct));
     Sink.channels := cv_channels (si_volume struct);
     Sink.mute := py_bool (si_mute struct);
     Sink._icon_name := Some "audio-card";
     Sink._name := decode (si_description struct);
     Sink._sink_name := si_name struct |}.

Definition Sink_update (self : ref) (struct : pa_sink_info) (props : proplist)
  : M unit :=
  s <- read_sink self ;;
  let s := Sink_updated s struct props in
  write_sink self s ;;;
  main <- is_main_sink (Sink._sink_name s) ;;
  (if main then idle_add (update_values (Sink.volume s) (Sink.mute s))
   else ret tt) ;;;
  idle_add (update_sink_scale (Sink.idx s) (Sink.volume s) (Sink.mute s)).

(** [Sink(pa_mgr, idx, struct, props)]. *)
Definition Sink_new (idx : Z) (struct : pa_sink_info) (props : proplist)
  : M ref :=
  self <- new_sink_object (Sink_base_init idx) ;;
  Sink_update self struct props ;;;
  ret self.

Definition Sink_sink_name (self : ref) : M bytes :=
  s <- read_sink self ;;
  ret (Sink._sink_name s).

Definition Sink_set_volume (self : ref) (volume : Z) : M unit :=
  s <- read_sink self ;;
  let s :=
    {| Sink.idx := Sink.idx s; Sink.volume := volume;
       Sink.channels := Sink.channels s; Sink.mute := Sink.mute s;
       Sink._icon_name := Sink._icon_name s; Sink._name := Sink._name s;
       Sink._sink_name := Sink._sink_name s |} in
  write_sink self s ;;;
  cvolume <- lift (cvolume_from_volume volume (Sink.channels s)) ;;
  set_sink_volume (Sink.idx s) cvolume.

(** ** [SinkInput] *)

(** [self._sink_idx = struct.sink] followed by
    [AbstractMonitorableSink.__init__]: [client], [app_name] and
    [media_name] are not bound yet. *)
Definition SinkInput_base_init (idx : Z) (struct : pa_sink_input_info)
  : SinkInput.t :=
  {| SinkInput.idx := idx; SinkInput.volume := 0; SinkInput.channels := 0;
     SinkInput.mute := false; SinkInput._icon_name := Some None;
     SinkInput._name := ""; SinkInput._sink_idx := sii_sink struct;
     SinkInput.client := None; SinkInput.app_name := None;
     SinkInput.media_name := None |}.

(** The fields [SinkInput.update] assigns, [super().update] included. *)
Definition SinkInput_updated (self : SinkInput.t) (struct : pa_sink_input_info)
  (props : proplist) : SinkInput.t :=
  let icon_name :=
    match props !! "media.icon_name" with
    | None => props !! "application.icon_name"
    | Some i => Some i
    end in
  {| SinkInput.idx := SinkInput.idx self;
     SinkInput.volume := array_head (cv_values (sii_volume struct));
     SinkInput.channels := cv_channels (sii_volume struct);
     SinkInput.mute := py_bool (sii_mute struct);
     SinkInput._icon_name := Some (option_map decode icon_name);
     SinkInput._name := SinkInput._name self;
     SinkInput._sink_idx := sii_sink struct;
     SinkInput.client := Some (sii_client struct);
     SinkInput.app_name :=
       Some (option_map decode (props !! "application.name"));
     SinkInput.media_name :=
       Some (option_map decode (props !! "media.name")) |}.

Definition SinkInput_update (self : ref) (struct : pa_sink_input_info)
  (props : proplist) : M unit :=
  s <- read_sink_input self ;;
  let s := SinkInput_updated s struct props in
  write_sink_input self s ;;;
  idle_add (update_sink_input_scale (SinkInput.idx s) (SinkInput.volume s)
              (SinkInput.mute s)).

(** [SinkInput(pa_mgr, idx, struct, props)]. *)
Definition SinkInput_new (idx : Z) (struct : pa_sink_input_info)
  (props : proplist) : M ref :=
  self <- new_sink_input_object (SinkInput_base_init idx struct) ;;
  SinkInput_update self struct props ;;;
  ret self.

Definition SinkInput_get_client (self : SinkInput.t) : M Client.t :=
  client <- lift (getattr (SinkInput.client self)) ;;
  get_pa_client client.

Definition SinkInput_set_volume (self : ref) (volume : Z) : M unit :=
  s <- read_sink_input self ;;
  let s :=
    {| SinkInput.idx := SinkInput.idx s; SinkInput.volume := volume;
       SinkInput.channels := SinkInput.channels s;
       SinkInput.mute := SinkInput.mute s;
       SinkInput._icon_name := SinkInput._icon_name s;
       SinkInput._name := SinkInput._name s;
       SinkInput._sink_idx := SinkInput._sink_idx s;
       SinkInput.client := SinkInput.client s;
       SinkInput.app_name := SinkInput.app_name s;
       SinkInput.media_name := SinkInput.media_name s |} in
  write_sink_input self s ;;;
  cvolume <- lift (cvolume_from_volume volume (SinkInput.channels s)) ;;
  set_sink_input_volume (SinkInput.idx s) cvolume.

(** The [icon_name] property. *)
Definition SinkInput_icon_name (self : ref) : M (option str) :=
  s <- read_sink_input self ;;
  try_except
    (lift (getattr (SinkInput._icon_name s)))
    AttributeError
    (client <- SinkInput_get_client s ;;
     ret (Client.icon_name client)).

(** The [name] property: ["{}: {}".format(self.app_name, self.media_name)]. *)
Definition SinkInput_name (self : ref) : M (option str) :=
  s <- read_sink_input self ;;
  try_except
    (app_name <- lift (getattr (SinkInput.app_name s)) ;;
     media_name <- lift (getattr (SinkInput.media_name s)) ;;
     ret (Some (String.append (py_format app_name)
                  (String.append ": " (py_format media_name)))))
    AttributeError
    (try_except
       (lift (getattr (SinkInput.app_name s)))
       AttributeError
       (client <- SinkInput_get_client s ;;
        ret (Some (Client.name client)))).

(** ** [PulseAudioManager]: commands of the user interface *)

Definition set_main_volume (volume : Z) : M unit :=
  sink <- get_main_sink ;;
  match sink with
  | Some sink => Sink_set_volume sink volume
  | None => raise AttributeError
  end.

(** [self.get_main_sink().idx], and [None] where there is no main sink. *)
Definition main_sink_idx : M (option Z) :=
  sink <- get_main_sink ;;
  match sink with
  | Some sink => s <- read_sink sink ;; ret (Some (Sink.idx s))
  | None => ret None
  end.

(** ** [PulseAudioManager]: callbacks called by [PulseAudio] *)

Definition _on_new_pa_client (index : Z) (struct : pa_client_info)
  (props : proplist) : M unit :=
  clients <- gets _pa_clients ;;
  (if bool_decide (clients !! index = None)
   then modify (set_pa_clients (insert index (Client_init index)))
   else ret tt) ;;;
  client <- getitem _pa_clients index ;;
  modify (set_pa_clients (insert index (Client_update client struct props))).

Definition _on_remove_pa_client (index : Z) : M unit :=
  clients <- gets _pa_clients ;;
  if bool_decide (is_Some (clients !! index))
  then modify (set_pa_clients (delete index))
  else ret tt.

Definition _on_new_pa_sink (index : Z) (struct : pa_sink_info)
  (props : proplist) : M unit :=
  sinks <- gets _pa_sinks ;;
  if negb (od_contains index sinks) then
    sink <- Sink_new index struct props ;;
    modify (set_pa_sinks (od_set index sink)) ;;;
    sink_name <- Sink_sink_name sink ;;
    modify (set_pa_sinks_by_name (insert sink_name sink)) ;;;
    idle_add slider_count_changed
  else
    sink <- od_getitem _pa_sinks index ;;
    old_name <- Sink_sink_name sink ;;
    Sink_update sink struct props ;;;
    delitem_sinks_by_name old_name ;;;
    sink_name <- Sink_sink_name sink ;;
    modify (set_pa_sinks_by_name (insert sink_name sink)).

(** [sink = self._pa_sinks.pop(index)] raises [KeyError] for an absent
    index.  In [del self._pa_sink_index_by_name[sink.sink_name]] the
    attribute is loaded first, and nothing binds that name
    ([manager_names]), so the statement raises before anything is deleted
    and the call to [idle_add] is never reached. *)
Definition _on_remove_pa_sink (index : Z) : M unit :=
  sink <- od_getitem _pa_sinks index ;;
  modify (set_pa_sinks (od_remove index)) ;;;
  manager_getattr "_pa_sink_index_by_name" ;;;
  _ <- Sink_sink_name sink ;;
  idle_add slider_count_changed.

Definition _on_new_pa_sink_input (index : Z) (struct : pa_sink_input_info)
  (props : proplist) : M unit :=
  if py_eq (PyBytes (sii_name struct)) (PyStr "audio-volume-change")
  then ret tt
  else if negb (py_in (PyStr (decode (sii_driver struct)))
                  [PyStr "protocol-native.c"; PyStr "PipeWire"])
  then ret tt
  else
    inputs <- gets _pa_sink_inputs ;;
    if bool_decide (inputs !! index = None) then
      sink_input <- SinkInput_new index struct props ;;
      modify (set_pa_sink_inputs (insert index sink_input)) ;;;
      idle_add slider_count_changed
    else
      sink_input <- getitem _pa_sink_inputs index ;;
      SinkInput_update sink_input struct props.

Definition _on_remove_pa_sink_input (index : Z) : M unit :=
  inputs <- gets _pa_sink_inputs ;;
  if bool_decide (is_Some (inputs !! index)) then
    modify (set_pa_sink_inputs (delete index)) ;;;
    idle_add slider_count_changed
  else ret tt.

Definition _on_default_sink (name : option bytes) : M unit :=
  modify (set_default_sink (fun _ => name)).

(** ** Peak monitoring: [AbstractMonitorableSink._on_stream_read] *)

(** A sample of the [c_ubyte] buffer as a Python integer. *)
Definition sample (b : byte) : Z := Z.of_N (Byte.to_N b).

(** [sum([data[i] - 128 for i in range(length)])]. *)
Definition deviation_sum (data : list byte) : Z :=
  fold_left Z.add (map (fun b => sample b - 128) data) 0.

(** [val]: the block holds [length] samples; both divisions are true
    divisions, kept here as exact quotients. *)
Definition peak_val (data : list byte) : result Q :=
  let length := Z.of_nat (List.length data) in
  if Z.eqb length 0 then Raise ZeroDivisionError
  else Ok (inject_Z (deviation_sum data) / inject_Z length / 128)%Q.

Definition _on_stream_read (_is_sink_input : bool) (idx : Z)
  (data : list byte) : M unit :=
  val <- lift (peak_val data) ;;
  if _is_sink_input then idle_add (update_sink_input_peak idx val)
  else idle_add (update_sink_peak idx val).

(** [_on_stream_read] as the bound method that [monitor_stream] registers
    on the stream: [idx] is the attribute of [self], and [_is_sink_input] is
    [isinstance(self, SinkInput)], which [__init__] sets and nothing
    reassigns. *)
Definition Sink_on_stream_read (self : ref) (data : list byte) : M unit :=
  s <- read_sink self ;;
  _on_stream_read false (Sink.idx s) data.

Definition SinkInput_on_stream_read (self : ref) (data : list byte)
  : M unit :=
  s <- read_sink_input self ;;
  _on_stream_read true (SinkInput.idx s) data.

(** The level the specification describes: the mean of the absolute
    deviations from 128, divided by 128. *)
Definition spec_abs_deviation_sum (data : list byte) : Z :=
  fold_left Z.add (map (fun b => Z.abs (sample b - 128)) data) 0.

Definition spec_peak_level (data : list byte) : Q :=
  (inject_Z (spec_abs_deviation_sum data)
   / inject_Z (Z.of_nat (List.length data)) / 128)%Q.

(** [r] is a returned level equal to the rational [q]. *)
Definition yields (r : result Q) (q : Q) : Prop :=
  match r with
  | Ok val => (val == q)%Q
  | Raise _ => False
  end.

(** The block [0, 255, 0, 255, ...] of [n] pairs. *)
Definition alternating (n : nat) : list byte :=
  concat (replicate n [x00; xff]).

(** ** Runs of the program *)

(** What reaches the manager: the callbacks of the connection, the commands
    of the user interface and the reads of a peak stream. *)
Inductive event : Type :=
| new_client (index : Z) (struct : pa_client_info) (props : proplist)
| remove_client (index : Z)
| new_sink (index : Z) (struct : pa_sink_info) (props : proplist)
| remove_sink (index : Z)
| new_sink_input (index : Z) (struct : pa_sink_input_info) (props : proplist)
| remove_sink_input (index : Z)
| default_sink (name : option bytes)
| main_volume (volume : Z)
| sink_volume (sink : ref) (volume : Z)
| sink_input_volume (sink_input : ref) (volume : Z)
| stream_read (_is_sink_input : bool) (idx : Z) (data : list byte).

Definition handle (e : event) : M unit :=
  match e with
  | new_client index struct props => _on_new_pa_client index struct props
  | remove_client index => _on_remove_pa_client index
  | new_sink index struct props => _on_new_pa_sink index struct props
  | remove_sink index => _on_remove_pa_sink index
  | new_sink_input index struct props =>
      _on_new_pa_sink_input index struct props
  | remove_sink_input index => _on_remove_pa_sink_input index
  | default_sink name => _on_default_sink name
  | main_volume volume => set_main_volume volume
  | sink_volume sink volume => Sink_set_volume sink volume
  | sink_input_volume sink_input volume =>
      SinkInput_set_volume sink_input volume
  | stream_read is_sink_input idx data =>
      _on_stream_read is_sink_input idx data
  end.

(** An exception that leaves a ctypes callback is printed and dropped: the
    next event finds the state as the failed one left it. *)
Definition step (e : event) (st : state) : state := fst (handle e st).

Definition run (es : list event) (st : state) : state :=
  fold_left (fun st e => step e st) es st.

Inductive reachable : state -> Prop :=
| reachable_init : reachable init
| reachable_step e st : reachable st -> reachable (step e st).

(** ** Invariants *)

(** A device is live when [_pa_sinks] holds its object. *)
Definition live (st : state) (index : Z) (s : Sink.t) : Prop :=
  exists r,
    od_get index (_pa_sinks st) = Some r /\ sink_objects st !! r = Some s.

(** Every attribute of a [SinkInput] that its properties read is bound. *)
Definition bound (s : SinkInput.t) : Prop :=
  is_Some (SinkInput._icon_name s) /\ is_Some (SinkInput.client s) /\
  is_Some (SinkInput.app_name s) /\ is_Some (SinkInput.media_name s).

(** [_pa_sinks] has one entry per key, every reference stored in a
    dictionary is bound to an object, an object stored under an index
    carries that index, and every [SinkInput] has been through [update]. *)
Record wf (st : state) : Prop := {
  wf_keys : NoDup (od_keys (_pa_sinks st));
  wf_sinks : forall i r, In (i, r) (_pa_sinks st) ->
    exists s, sink_objects st !! r = Some s /\ Sink.idx s = i;
  wf_by_name : forall n r, _pa_sinks_by_name st !! n = Some r ->
    is_Some (sink_objects st !! r);
  wf_sink_inputs : forall i r, _pa_sink_inputs st !! i = Some r ->
    exists s, sink_input_objects st !! r = Some s /\ SinkInput.idx s = i;
  wf_bound : Forall bound (sink_input_objects st)
}.

(** The name-keyed dictionary holds exactly the live devices, each under
    its current internal name. *)
Definition names_in_sync (st : state) : Prop :=
  forall n r,
    _pa_sinks_by_name st !! n = Some r <->
    exists i s, od_get i (_pa_sinks st) = Some r /\
                sink_objects st !! r = Some s /\ Sink._sink_name s = n.

(** The events under which the name dictionary keeps mirroring the live
    devices: an upsert must not give a device the internal name of another
    live device (the server keeps these names unique), and a removal must
    name an index that is not held. *)
Definition keeps_names (e : event) (st : state) : Prop :=
  match e with
  | new_sink index struct _ =>
      forall j s, live st j s -> j <> index ->
        Sink._sink_name s <> si_name struct
  | remove_sink index => od_get index (_pa_sinks st) = None
  | _ => True
  end.

Fixpoint keeps_names_run (es : list event) (st : state) : Prop :=
  match es with
  | [] => True
  | e :: es => keeps_names e st /\ keeps_names_run es (step e st)
  end.

(** The calls [Sink.update] queues once the object holds [s], under the
    marker [default_sink]. *)
Definition Sink_update_calls (default_sink : option bytes) (s : Sink.t)
  : list idle_call :=
  (if py_eq (PyBytes (Sink._sink_name s)) (of_opt_bytes default_sink)
   then [update_values (Sink.volume s) (Sink.mute s)] else [])
  ++ [update_sink_scale (Sink.idx s) (Sink.volume s) (Sink.mute s)].

(** ** Sample payloads *)

(** A [pa_cvolume] of [channels] channels, all at [volume]. *)
Definition cvolume_of (channels volume : Z) : pa_cvolume :=
  {| cv_channels := channels;
     cv_values := replicate (Z.to_nat channels) volume
                  ++ replicate (32 - Z.to_nat channels) 0 |}.

(** An empty property list. *)
Definition no_props : proplist := empty.

(** A stereo, unmuted [pa_sink_info]. *)
Definition sink_info (name : bytes) (volume : Z) : pa_sink_info :=
  {| si_name := name; si_description := name;
     si_volume := cvolume_of 2 volume; si_mute := 0 |}.

(** A stereo, unmuted [pa_sink_input_info] of client 4 on sink 0. *)
Definition sink_input_info (name driver : bytes) : pa_sink_input_info :=
  {| sii_name := name; sii_driver := driver; sii_client := 4; sii_sink := 0;
     sii_volume := cvolume_of 2 65536; sii_mute := 0 |}.

(** A client named Firefox with its icon, and a stream of client 4 that
    carries no property. *)
Definition firefox_and_stream : list event :=
  [new_client 4 {| ci_name := "Firefox" |}
     (<["application.icon_name" := "firefox"]> no_props);
   new_sink_input 1 (sink_input_info "Playback" "protocol-native.c") no_props].

(** A stereo device 3 and a stereo stream 1. *)
Definition sink_and_stream : list event :=
  [new_sink 3 (sink_info "analog" 50) no_props;
   new_sink_input 1 (sink_input_info "Playback" "protocol-native.c") no_props].

(** Devices 5, 2 and 9 announced in this order. *)
Definition three_sinks : list event :=
  [new_sink 5 (sink_info "analog" 50) no_props;
   new_sink 2 (sink_info "headset" 50) no_props;
   new_sink 9 (sink_info "hdmi" 50) no_props].

(** A device that declares 33 channels, one more than a [pa_cvolume]
    holds. *)
Definition wide_sink_info : pa_sink_info :=
  {| si_name := "wide"; si_description := "wide";
     si_volume := {| cv_channels := 33; cv_values := replicate 32 50 |};
     si_mute := 0 |}.

(** Devices 1 and 2 announced under one internal name, then device 1
    renamed. *)
Definition same_name_sinks : list event :=
  [new_sink 1 (sink_info "dock" 50) no_props;
   new_sink 2 (sink_info "dock" 50) no_props;
   new_sink 1 (sink_info "dock.2" 50) no_props].

(** ** [PulseAudio._dict_from_proplist] *)

(** The bytes the method looks for. *)
Definition newline : ascii := "010"%char.
Definition equals : ascii := "="%char.
Definition dquote : ascii := ascii_of_nat 34.

(** The bytes [bytes.strip()] removes: space, tab, line feed, vertical tab,
    form feed and carriage return. *)
Definition is_space (c : ascii) : bool :=
  existsb (Ascii.eqb c)
    [" "%char; "009"%char; "010"%char; "011"%char; "012"%char; "013"%char].

(** [s.split(sep)] for a separator of one byte: one piece more than there
    are separators. *)
Fixpoint split_on (sep : ascii) (s : bytes) : list bytes :=
  match s with
  | EmptyString => [EmptyString]
  | String c s' =>
      if Ascii.eqb c sep then EmptyString :: split_on sep s'
      else match split_on sep s' with
           | [] => [String c EmptyString]
           | piece :: pieces => String c piece :: pieces
           end
  end.

(** [s.partition(sep)]: the text before the first separator, the separator
    and the text after it, or [(s, b"", b"")] without a separator. *)
Fixpoint partition (sep : ascii) (s : bytes) : bytes * bytes * bytes :=
  match s with
  | EmptyString => (EmptyString, EmptyString, EmptyString)
  | String c s' =>
      if Ascii.eqb c sep then (EmptyString, String sep EmptyString, s')
      else
        match partition sep s' with
        | (before, mid, after) => (String c before, mid, after)
        end
  end.

Fixpoint lstrip (s : bytes) : bytes :=
  match s with
  | EmptyString => EmptyString
  | String c s' => if is_space c then lstrip s' else s
  end.

Fixpoint rstrip (s : bytes) : bytes :=
  match s with
  | EmptyString => EmptyString
  | String c s' =>
      match rstrip s' with
      | EmptyString => if is_space c then EmptyString else String c EmptyString
      | t => String c t
      end
  end.

(** [s.strip()]. *)
Definition strip (s : bytes) : bytes := rstrip (lstrip s).

Fixpoint drop_last (s : bytes) : bytes :=
  match s with
  | EmptyString => EmptyString
  | String c EmptyString => EmptyString
  | String c s' => String c (drop_last s')
  end.

(** [s[1:-1]]. *)
Definition slice_1_m1 (s : bytes) : bytes :=
  match s with
  | EmptyString => EmptyString
  | String _ s' => drop_last s'
  end.

(** The loop body: [props[left.strip()] = right.strip()[1:-1]]. *)
Definition add_prop (props : proplist) (prop : bytes) : proplist :=
  match partition equals prop with
  | (before, _, after) =>
      <[strip before := slice_1_m1 (strip after)]> props
  end.

(** [_dict_from_proplist], applied to the bytes [pa_proplist_to_string]
    returned. *)
Definition _dict_from_proplist (text : bytes) : proplist :=
  fold_left add_prop (split_on newline text) empty.

(** [c in s]. *)
Fixpoint has_byte (c : ascii) (s : bytes) : bool :=
  match s with
  | EmptyString => false
  | String c' s' => Ascii.eqb c' c || has_byte c s'
  end.

(** A line [key = "value"], the form in which a text property is printed,
    and the text of several such lines. *)
Definition prop_line (entry : bytes * bytes) : bytes :=
  String.append (fst entry)
    (String " " (String equals (String " " (String dquote
       (String.append (snd entry) (String dquote EmptyString)))))).

Definition proplist_text (entries : list (bytes * bytes)) : bytes :=
  String.concat (String newline EmptyString) (map prop_line entries).

(** A key the loop stores unchanged: it has no [=], no line feed and no
    white space at either end; and a value it gives back: no line feed. *)
Definition plain_key (k : bytes) : Prop :=
  has_byte equals k = false /\ has_byte newline k = false /\
  lstrip k = k /\ rstrip k = k.

Definition plain_value (v : bytes) : Prop := has_byte newline v = false.

(** ** The connection: [PulseAudio], mute commands and peak streams *)

(** Constants of the generated libpulse bindings that the module reads. *)
Record pa_constants : Type := {
  PA_SUBSCRIPTION_EVENT_FACILITY_MASK : Z;
  PA_SUBSCRIPTION_EVENT_TYPE_MASK : Z;
  PA_SUBSCRIPTION_EVENT_CLIENT : Z;
  PA_SUBSCRIPTION_EVENT_SINK : Z;
  PA_SUBSCRIPTION_EVENT_SINK_INPUT : Z;
  PA_SUBSCRIPTION_EVENT_REMOVE : Z;
  PA_SAMPLE_U8 : Z;
  PA_STREAM_DONT_MOVE : Z;
  PA_STREAM_PEAK_DETECT : Z;
  PA_STREAM_ADJUST_LATENCY : Z
}.

(** The values libpulse's [def.h] and [sample.h] give them. *)
Definition libpulse : pa_constants :=
  {| PA_SUBSCRIPTION_EVENT_FACILITY_MASK := 15;
     PA_SUBSCRIPTION_EVENT_TYPE_MASK := 48;
     PA_SUBSCRIPTION_EVENT_CLIENT := 5;
     PA_SUBSCRIPTION_EVENT_SINK := 0;
     PA_SUBSCRIPTION_EVENT_SINK_INPUT := 2;
     PA_SUBSCRIPTION_EVENT_REMOVE := 32;
     PA_SAMPLE_U8 := 0;
     PA_STREAM_DONT_MOVE := 512;
     PA_STREAM_PEAK_DETECT := 2048;
     PA_STREAM_ADJUST_LATENCY := 8192 |}.

(** [METER_RATE], in Hz. *)
Definition METER_RATE : Z := 25.

(** Calls made on the context and on peak streams other than the two
    volume requests, in the order they were made.  A stream is named by the
    number [pa_stream_new] returned it under. *)
Inductive pa_operation : Type :=
| pa_context_get_client_info (index : Z)
| pa_context_get_sink_info_by_index (index : Z) (userdata : bool)
| pa_context_get_sink_input_info (index : Z) (userdata : bool)
| pa_context_set_sink_mute_by_index (index mute : Z)
| pa_context_set_sink_input_mute (index mute : Z)
| pa_stream_new (stream : nat) (name : bytes) (format rate channels : Z)
| pa_stream_set_read_callback (stream : nat)
| pa_stream_set_monitor_stream (stream : nat) (sink_input_idx : Z)
| pa_stream_connect_record (stream : nat) (dev : bytes) (flags : Z)
| pa_stream_disconnect (stream : nat).

(** The manager together with its side towards libpulse: the operations
    just listed, and the [_stream] attribute of every [Sink] and
    [SinkInput], kept by object reference (no entry: [None]). *)
Record connection : Type := mk_connection {
  manager : state;
  operations : list pa_operation;
  sink_stream : gmap nat nat;
  sink_input_stream : gmap nat nat;
  streams_made : nat
}.

(** A manager that has just been constructed. *)
Definition connect : connection :=
  mk_connection init [] empty empty 0.

Definition set_manager (f : state -> state) (c : connection) : connection :=
  mk_connection (f (manager c)) (operations c) (sink_stream c)
    (sink_input_stream c) (streams_made c).
Definition set_operations
  (f : list pa_operation -> list pa_operation) (c : connection) : connection :=
  mk_connection (manager c) (f (operations c)) (sink_stream c)
    (sink_input_stream c) (streams_made c).
Definition set_sink_stream
  (f : gmap nat nat -> gmap nat nat) (c : connection) : connection :=
  mk_connection (manager c) (operations c) (f (sink_stream c))
    (sink_input_stream c) (streams_made c).
Definition set_sink_input_stream
  (f : gmap nat nat -> gmap nat nat) (c : connection) : connection :=
  mk_connection (manager c) (operations c) (sink_stream c)
    (f (sink_input_stream c)) (streams_made c).
Definition set_streams_made (f : nat -> nat) (c : connection) : connection :=
  mk_connection (manager c) (operations c) (sink_stream c)
    (sink_input_stream c) (f (streams_made c)).

(** Statements over a connection. *)
Definition C (A : Type) : Type := connection -> connection * result A.

Definition cret {A : Type} (a : A) : C A := fun c => (c, Ok a).
Definition cbind {A B : Type} (m : C A) (k : A -> C B) : C B :=
  fun c =>
    match m c with
    | (c', Ok a) => k a c'
    | (c', Raise e) => (c', Raise e)
    end.
Definition craise {A : Type} (e : exn) : C A := fun c => (c, Raise e).

(** A statement of the manager, run on the manager of the connection. *)
Definition on_manager {A : Type} (m : M A) : C A :=
  fun c =>
    match m (manager c) with
    | (st', r) => (set_manager (fun _ => st') c, r)
    end.

Notation "x <-- m ;; k" := (cbind m (fun x => k))
  (at level 100, m at next level, right associativity) : py_scope.
Notation "m ;;- k" := (cbind m (fun _ => k))
  (at level 100, right associativity) : py_scope.

(** An operation handed to libpulse; the result is dropped by
    [pa_operation_unref]. *)
Definition operate (op : pa_operation) : C unit :=
  fun c => (set_operations (fun q => q ++ [op]) c, Ok tt).

(** *** Mute *)

(** [PulseAudioManager.set_sink_mute] and [set_sink_input_mute], through
    [PulseAudio]. *)
Definition set_sink_mute (index mute : Z) : C unit :=
  operate (pa_context_set_sink_mute_by_index index mute).

Definition set_sink_input_mute (index mute : Z) : C unit :=
  operate (pa_context_set_sink_input_mute index mute).

(** [mute and 1 or 0]. *)
Definition mute_flag (mute : bool) : Z := if mute then 1 else 0.

Definition Sink_set_mute (self : ref) (mute : bool) : C unit :=
  s <-- on_manager (read_sink self) ;;
  let s :=
    {| Sink.idx := Sink.idx s; Sink.volume := Sink.volume s;
       Sink.channels := Sink.channels s; Sink.mute := mute;
       Sink._icon_name := Sink._icon_name s; Sink._name := Sink._name s;
       Sink._sink_name := Sink._sink_name s |} in
  on_manager (write_sink self s) ;;-
  set_sink_mute (Sink.idx s) (mute_flag mute).

Definition SinkInput_set_mute (self : ref) (mute : bool) : C unit :=
  s <-- on_manager (read_sink_input self) ;;
  let s :=
    {| SinkInput.idx := SinkInput.idx s; SinkInput.volume := SinkInput.volume s;
       SinkInput.channels := SinkInput.channels s;
       SinkInput.mute := mute;
       SinkInput._icon_name := SinkInput._icon_name s;
       SinkInput._name := SinkInput._name s;
       SinkInput._sink_idx := SinkInput._sink_idx s;
       SinkInput.client := SinkInput.client s;
       SinkInput.app_name := SinkInput.app_name s;
       SinkInput.media_name := SinkInput.media_name s |} in
  on_manager (write_sink_input self s) ;;-
  set_sink_input_mute (SinkInput.idx s) (mute_flag mute).

(** [sink = self.get_main_sink(); sink.set_mute(not sink.mute)]: reading
    [mute] of [None] raises [AttributeError]. *)
Definition toggle_main_mute : C unit :=
  sink <-- on_manager get_main_sink ;;
  match sink with
  | None => craise AttributeError
  | Some sink =>
      s <-- on_manager (read_sink sink) ;;
      Sink_set_mute sink (negb (Sink.mute s))
  end.

(** *** Peak streams *)

(** ["{:d}".format(n)]. *)
Definition format_d (n : Z) : str := NilZero.string_of_int (Z.to_int n).

(** [pa_stream_new(context, "peak", samplespec, None)] with the sample
    specification of the manager: one channel of unsigned bytes at
    [METER_RATE].  The stream returned is taken to be a new one. *)
Definition new_peak_stream (K : pa_constants) : C nat :=
  fun c =>
    let stream := streams_made c in
    (set_streams_made S
       (set_operations
          (fun q => q ++ [pa_stream_new stream "peak" (PA_SAMPLE_U8 K)
                            METER_RATE 1]) c),
     Ok stream).

Definition stream_flags (K : pa_constants) : Z :=
  Z.lor (Z.lor (PA_STREAM_DONT_MOVE K) (PA_STREAM_PEAK_DETECT K))
    (PA_STREAM_ADJUST_LATENCY K).

(** [AbstractMonitorableSink.monitor_stream] on a [Sink]: [sink_idx] is
    [idx]. *)
Definition Sink_monitor_stream (K : pa_constants) (self : ref) : C unit :=
  s <-- on_manager (read_sink self) ;;
  old <-- (fun c => (c, Ok (sink_stream c !! self))) ;;
  match old with
  | Some stream => operate (pa_stream_disconnect stream)
  | None => cret tt
  end ;;-
  stream <-- new_peak_stream K ;;
  (fun c => (set_sink_stream (insert self stream) c, Ok tt)) ;;-
  operate (pa_stream_set_read_callback stream) ;;-
  operate (pa_stream_connect_record stream (format_d (Sink.idx s))
             (stream_flags K)).

(** [monitor_stream] on a [SinkInput]: the stream is bound to the stream
    index, and [sink_idx] is the index of the device it plays on. *)
Definition SinkInput_monitor_stream (K : pa_constants) (self : ref) : C unit :=
  s <-- on_manager (read_sink_input self) ;;
  old <-- (fun c => (c, Ok (sink_input_stream c !! self))) ;;
  match old with
  | Some stream => operate (pa_stream_disconnect stream)
  | None => cret tt
  end ;;-
  stream <-- new_peak_stream K ;;
  (fun c => (set_sink_input_stream (insert self stream) c, Ok tt)) ;;-
  operate (pa_stream_set_read_callback stream) ;;-
  operate (pa_stream_set_monitor_stream stream (SinkInput.idx s)) ;;-
  operate (pa_stream_connect_record stream
             (format_d (SinkInput._sink_idx s)) (stream_flags K)).

(** [stop_monitor_stream]. *)
Definition Sink_stop_monitor_stream (self : ref) : C unit :=
  old <-- (fun c => (c, Ok (sink_stream c !! self))) ;;
  match old with
  | Some stream =>
      operate (pa_stream_disconnect stream) ;;-
      (fun c => (set_sink_stream (delete self) c, Ok tt))
  | None => cret tt
  end.

Definition SinkInput_stop_monitor_stream (self : ref) : C unit :=
  old <-- (fun c => (c, Ok (sink_input_stream c !! self))) ;;
  match old with
  | Some stream =>
      operate (pa_stream_disconnect stream) ;;-
      (fun c => (set_sink_input_stream (delete self) c, Ok tt))
  | None => cret tt
  end.

(** Whether a stream is connected after a list of operations:
    [pa_stream_connect_record] connects it, [pa_stream_disconnect]
    disconnects it. *)
Definition connected_after (stream : nat) (was : bool) (op : pa_operation)
  : bool :=
  match op with
  | pa_stream_connect_record stream' _ _ =>
      if Nat.eqb stream' stream then true else was
  | pa_stream_disconnect stream' =>
      if Nat.eqb stream' stream then false else was
  | _ => was
  end.

Definition connected (ops : list pa_operation) (stream : nat) : bool :=
  fold_left (connected_after stream) ops false.

(** *** Callbacks of [PulseAudio] *)

(** What an info callback reads of [struct.contents]: the index, the fields
    and the text [pa_proplist_to_string] gives for its property list. *)
Record info (A : Type) : Type := {
  info_index : Z;
  info_contents : A;
  info_proplist : bytes
}.
Arguments info_index {A} i.
Arguments info_contents {A} i.
Arguments info_proplist {A} i.

(** [struct] is [None] for the null pointer that ends a list. *)
Definition _pa_client_info_cb (struct : option (info pa_client_info))
  : C unit :=
  match struct with
  | Some i =>
      on_manager (_on_new_pa_client (info_index i) (info_contents i)
                    (_dict_from_proplist (info_proplist i)))
  | None => cret tt
  end.

Definition _pa_sink_input_info_cb (struct : option (info pa_sink_input_info))
  (user_data : bool) : C unit :=
  match struct with
  | Some i =>
      if user_data then
        on_manager (_on_new_pa_sink_input (info_index i) (info_contents i)
                      (_dict_from_proplist (info_proplist i)))
      else cret tt
  | None => cret tt
  end.

Definition _pa_sink_info_cb (struct : option (info pa_sink_info)) : C unit :=
  match struct with
  | Some i =>
      on_manager (_on_new_pa_sink (info_index i) (info_contents i)
                    (_dict_from_proplist (info_proplist i)))
  | None => cret tt
  end.

(** [struct.contents.default_sink_name] is [None] for a null name. *)
Definition _pa_server_info_cb (struct : option (option bytes)) : C unit :=
  match struct with
  | Some default_sink_name => on_manager (_on_default_sink default_sink_name)
  | None => cret tt
  end.

Definition _pa_context_subscribe_cb (K : pa_constants)
  (event_type index : Z) : C unit :=
  let efac := Z.land event_type (PA_SUBSCRIPTION_EVENT_FACILITY_MASK K) in
  let etype := Z.land event_type (PA_SUBSCRIPTION_EVENT_TYPE_MASK K) in
  if Z.eqb efac (PA_SUBSCRIPTION_EVENT_CLIENT K) then
    if Z.eqb etype (PA_SUBSCRIPTION_EVENT_REMOVE K)
    then on_manager (_on_remove_pa_client index)
    else operate (pa_context_get_client_info index)
  else if Z.eqb efac (PA_SUBSCRIPTION_EVENT_SINK K) then
    if Z.eqb etype (PA_SUBSCRIPTION_EVENT_REMOVE K)
    then on_manager (_on_remove_pa_sink index)
    else operate (pa_context_get_sink_info_by_index index true)
  else if Z.eqb efac (PA_SUBSCRIPTION_EVENT_SINK_INPUT K) then
    if Z.eqb etype (PA_SUBSCRIPTION_EVENT_REMOVE K)
    then on_manager (_on_remove_pa_sink_input index)
    else operate (pa_context_get_sink_input_info index true)
  else cret tt.

(** *** Runs of the connection *)

(** What is asked of the connection: the events of the manager, the mute
    and peak stream methods of the objects, and the callbacks that libpulse
    calls. *)
Inductive command : Type :=
| manager_event (e : event)
| sink_mute (self : ref) (mute : bool)
| sink_input_mute (self : ref) (mute : bool)
| main_mute
| sink_monitor (self : ref)
| sink_stop_monitor (self : ref)
| sink_input_monitor (self : ref)
| sink_input_stop_monitor (self : ref)
| subscription (event_type index : Z)
| got_client_info (struct : option (info pa_client_info))
| got_sink_info (struct : option (info pa_sink_info))
| got_sink_input_info (struct : option (info pa_sink_input_info)) (user_data : bool)
| got_server_info (struct : option (option bytes)).

Definition perform (K : pa_constants) (cmd : command) : C unit :=
  match cmd with
  | manager_event e => on_manager (handle e)
  | sink_mute self mute => Sink_set_mute self mute
  | sink_input_mute self mute => SinkInput_set_mute self mute
  | main_mute => toggle_main_mute
  | sink_monitor self => Sink_monitor_stream K self
  | sink_stop_monitor self => Sink_stop_monitor_stream self
  | sink_input_monitor self => SinkInput_monitor_stream K self
  | sink_input_stop_monitor self => SinkInput_stop_monitor_stream self
  | subscription event_type index =>
      _pa_context_subscribe_cb K event_type index
  | got_client_info struct => _pa_client_info_cb struct
  | got_sink_info struct => _pa_sink_info_cb struct
  | got_sink_input_info struct user_data => _pa_sink_input_info_cb struct user_data
  | got_server_info struct => _pa_server_info_cb struct
  end.

Definition cstep (K : pa_constants) (cmd : command) (c : connection)
  : connection := fst (perform K cmd c).

Definition crun (K : pa_constants) (cmds : list command) (c : connection)
  : connection := fold_left (fun c cmd => cstep K cmd c) cmds c.

Inductive creachable (K : pa_constants) : connection -> Prop :=
| creachable_connect : creachable K connect
| creachable_step cmd c : creachable K c -> creachable K (cstep K cmd c).

(** Every [_stream] attribute is a stream [pa_stream_new] returned, no two
    objects hold the same stream, and the connected streams are the ones
    held. *)
Record streams_wf (c : connection) : Prop := {
  sw_sink_made : forall r h, sink_stream c !! r = Some h ->
    (h < streams_made c)%nat;
  sw_input_made : forall r h, sink_input_stream c !! r = Some h ->
    (h < streams_made c)%nat;
  sw_sink_inj : forall r r' h, sink_stream c !! r = Some h ->
    sink_stream c !! r' = Some h -> r = r';
  sw_input_inj : forall r r' h, sink_input_stream c !! r = Some h ->
    sink_input_stream c !! r' = Some h -> r = r';
  sw_disjoint : forall r r' h, sink_stream c !! r = Some h ->
    sink_input_stream c !! r' = Some h -> False;
  sw_connected : forall h, connected (operations c) h = true <->
    (exists r, sink_stream c !! r = Some h) \/
    (exists r, sink_input_stream c !! r = Some h)
}.

(** [c'] holds the peak streams of [c], connected as in [c]. *)
Definition same_streams (c c' : connection) : Prop :=
  sink_stream c' = sink_stream c /\
  sink_input_stream c' = sink_input_stream c /\
  streams_made c' = streams_made c /\
  forall h, connected (operations c') h = connected (operations c) h.

(** The operations of a peak stream. *)
Definition stream_operation (op : pa_operation) : bool :=
  match op with
  | pa_stream_new _ _ _ _ _ | pa_stream_set_read_callback _
  | pa_stream_set_monitor_stream _ _ | pa_stream_connect_record _ _ _
  | pa_stream_disconnect _ => true
  | _ => false
  end.


(** The object [(is_sink_input, r)] has [h] for its [_stream]. *)
Definition holds (c : connection) (object : bool * ref) (h : nat) : Prop :=
  (if fst object then sink_input_stream c else sink_stream c) !! snd object
  = Some h.

(** The commands that are [monitor_stream] or [stop_monitor_stream]. *)
Definition monitor_command (cmd : command) : bool :=
  match cmd with
  | sink_monitor _ | sink_stop_monitor _ | sink_input_monitor _
  | sink_input_stop_monitor _ => true
  | _ => false
  end.
(** * Properties *)

(** ** Volume expansion *)

Lemma array_setitem_length a i v a' :
  array_setitem a i v = Ok a' -> length a' = length a.
Proof.
  unfold array_setitem. case_bool_decide; intros E; inversion E.
  apply length_insert.
Qed.

(** Filling [n] consecutive slots from [k] on, all inside the array. *)
Lemma fill_values_inside n : forall k v values,
  (k + n <= length values)%nat ->
  fill_values (seq k n) v values =
    Ok (take k values ++ replicate n (pa_volume_t v) ++ drop (k + n) values).
Proof.
  induction n as [|n IH]; intros k v values Hlen; simpl.
  - rewrite Nat.add_0_r, take_drop. reflexivity.
  - unfold array_setitem. rewrite bool_decide_true by lia.
    rewrite IH by (rewrite length_insert; lia).
    f_equal.
    rewrite (take_S_r _ _ (pa_volume_t v)).
    2:{ apply list_lookup_insert_eq. lia. }
    rewrite take_insert_ge by lia.
    rewrite drop_insert_lt by lia.
    rewrite <- app_assoc. simpl.
    replace (S (k + n)) with (k + S n)%nat by lia. reflexivity.
Qed.

(** A loop that runs past the last slot raises. *)
Lemma fill_values_outside n : forall k v values,
  (0 < n)%nat -> (length values < k + n)%nat ->
  fill_values (seq k n) v values = Raise IndexError.
Proof.
  induction n as [|n IH]; intros k v values Hn Hlen; [lia|]. simpl.
  unfold array_setitem. case_bool_decide as Hk; [|reflexivity].
  apply IH; rewrite ?length_insert; lia.
Qed.

Lemma pa_volume_t_id v : 0 <= v < 2 ^ 32 -> pa_volume_t v = v.
Proof. intros H. unfold pa_volume_t. apply Z.mod_small. exact H. Qed.

Lemma cvolume_from_volume_inside volume channels :
  channels <= 32 ->
  cvolume_from_volume volume channels =
    Ok {| cv_channels := c_uint8 channels;
          cv_values := replicate (Z.to_nat channels) (pa_volume_t volume)
                       ++ replicate (32 - Z.to_nat channels) 0 |}.
Proof.
  intros Hc. unfold cvolume_from_volume, py_range. simpl.
  rewrite fill_values_inside.
  2:{ unfold vol, vol_slots. rewrite length_replicate. lia. }
  do 2 f_equal. simpl. f_equal.
  unfold vol, vol_slots. rewrite drop_replicate. reflexivity.
Qed.

Lemma cvolume_from_volume_outside volume channels :
  32 < channels -> cvolume_from_volume volume channels = Raise IndexError.
Proof.
  intros Hc. unfold cvolume_from_volume, py_range. simpl.
  rewrite fill_values_outside; [reflexivity|lia|].
  unfold vol, vol_slots. rewrite length_replicate. lia.
Qed.

(** C9: the expansion writes into 32 slots.  For every [channels <= 32] it
    returns, with exactly the first [channels] slots holding the volume and
    the others left at zero; for every [channels > 32] the write at slot 32
    raises [IndexError]. *)
Theorem cvolume_from_volume_slots (volume channels : Z) :
  0 <= volume < 2 ^ 32 ->
  (channels <= 32 ->
   cvolume_from_volume volume channels =
     Ok {| cv_channels := c_uint8 channels;
           cv_values := replicate (Z.to_nat channels) volume
                        ++ replicate (32 - Z.to_nat channels) 0 |}) /\
  (32 < channels -> cvolume_from_volume volume channels = Raise IndexError).
Proof.
  intros Hv. split; intros Hc.
  - rewrite cvolume_from_volume_inside by exact Hc.
    rewrite pa_volume_t_id by exact Hv. reflexivity.
  - apply cvolume_from_volume_outside. exact Hc.
Qed.

Lemma cvolume_from_volume_slots_witness :
  cvolume_from_volume 65536 2 =
    Ok {| cv_channels := 2; cv_values := [65536; 65536] ++ replicate 30 0 |}
  /\ cvolume_from_volume 65536 33 = Raise IndexError.
Proof.
  assert (Hv : 0 <= 65536 < 2 ^ 32) by lia.
  split.
  - apply (proj1 (cvolume_from_volume_slots 65536 2 Hv)). lia.
  - apply (proj2 (cvolume_from_volume_slots 65536 33 Hv)). lia.
Defined.

(** ** Volume commands *)

Ltac unfold_m :=
  unfold bind, ret, raise, lift, gets, modify, try_except in *.

(** C7: setting the volume of a device or of a stream whose object holds
    the channel count [n] sends one request whose vector declares [n]
    channels and has [v] in each of its first [n] slots; [n] is read from
    the object ([n <= 32] is the bound of [pa_cvolume], [v] a
    [pa_volume_t]). *)
Theorem set_volume_expands (st : state) (self : ref) (n v : Z) :
  0 <= n <= 32 -> 0 <= v < 2 ^ 32 ->
  let cvolume :=
    {| cv_channels := n;
       cv_values := replicate (Z.to_nat n) v ++ replicate (32 - Z.to_nat n) 0 |} in
  (forall s, sink_objects st !! self = Some s -> Sink.channels s = n ->
     exists st', Sink_set_volume self v st = (st', Ok tt) /\
       requests st' = requests st ++
         [pa_context_set_sink_volume_by_index (Sink.idx s) cvolume]) /\
  (forall s, sink_input_objects st !! self = Some s ->
     SinkInput.channels s = n ->
     exists st', SinkInput_set_volume self v st = (st', Ok tt) /\
       requests st' = requests st ++
         [pa_context_set_sink_input_volume (SinkInput.idx s) cvolume]).
Proof.
  intros Hn Hv cvolume.
  assert (Hcv : cvolume_from_volume v n = Ok cvolume).
  { rewrite cvolume_from_volume_inside by lia.
    rewrite pa_volume_t_id by exact Hv.
    unfold cvolume, c_uint8. rewrite Z.mod_small by lia. reflexivity. }
  split; intros s Hs Hch.
  - unfold Sink_set_volume, read_sink, write_sink, set_sink_volume,
      PulseAudio_set_sink_volume. unfold_m. simpl.
    rewrite Hs. simpl. rewrite Hch, Hcv. simpl.
    eexists. split; reflexivity.
  - unfold SinkInput_set_volume, read_sink_input, write_sink_input,
      set_sink_input_volume, PulseAudio_set_sink_input_volume. unfold_m. simpl.
    rewrite Hs. simpl. rewrite Hch, Hcv. simpl.
    eexists. split; reflexivity.
Qed.

Lemma set_volume_expands_witness :
  let st := run sink_and_stream init in
  (exists st', Sink_set_volume 0%nat 65536 st = (st', Ok tt) /\
     requests st' =
       [pa_context_set_sink_volume_by_index 3 (cvolume_of 2 65536)]) /\
  (exists st', SinkInput_set_volume 0%nat 65536 st = (st', Ok tt) /\
     requests st' =
       [pa_context_set_sink_input_volume 1 (cvolume_of 2 65536)]).
Proof.
  intros st.
  assert (Hn : 0 <= 2 <= 32) by lia.
  assert (Hv : 0 <= 65536 < 2 ^ 32) by lia.
  pose proof (set_volume_expands st 0%nat 2 65536 Hn Hv) as [Hsink Hinput].
  split.
  - exact (Hsink _ eq_refl eq_refl).
  - exact (Hinput _ eq_refl eq_refl).
Defined.

(** ** Peak level *)

Lemma fold_left_add_acc (l : list Z) : forall a,
  fold_left Z.add l a = a + fold_left Z.add l 0.
Proof.
  induction l as [|x l IH]; intros a; cbn [fold_left]; [lia|].
  rewrite (IH (a + x)), (IH (0 + x)). lia.
Qed.

Lemma deviation_sum_cons b data :
  deviation_sum (b :: data) = (sample b - 128) + deviation_sum data.
Proof. unfold deviation_sum. simpl. apply fold_left_add_acc. Qed.

Lemma spec_abs_deviation_sum_cons b data :
  spec_abs_deviation_sum (b :: data) =
    Z.abs (sample b - 128) + spec_abs_deviation_sum data.
Proof. unfold spec_abs_deviation_sum. simpl. apply fold_left_add_acc. Qed.

Lemma deviation_sum_app d1 d2 :
  deviation_sum (d1 ++ d2) = deviation_sum d1 + deviation_sum d2.
Proof.
  induction d1 as [|b d1 IH]; simpl; [reflexivity|].
  rewrite !deviation_sum_cons, IH. lia.
Qed.

Lemma sample_range b : 0 <= sample b <= 255.
Proof. unfold sample. pose proof (Byte.to_N_bounded b). lia. Qed.

Lemma deviation_sum_range data :
  -128 * Z.of_nat (length data) <= deviation_sum data
    <= 127 * Z.of_nat (length data).
Proof.
  induction data as [|b data IH]; [cbn; lia|].
  rewrite deviation_sum_cons. pose proof (sample_range b).
  change (length (b :: data)) with (S (length data)). lia.
Qed.

(** Where no sample lies below 128 the signed and the absolute sums agree. *)
Lemma deviation_sum_abs data :
  Forall (fun b => 128 <= sample b) data ->
  deviation_sum data = spec_abs_deviation_sum data.
Proof.
  induction 1 as [|b data Hb _ IH]; [reflexivity|].
  rewrite deviation_sum_cons, spec_abs_deviation_sum_cons, IH. lia.
Qed.

Lemma deviation_sum_replicate n b :
  deviation_sum (replicate n b) = Z.of_nat n * (sample b - 128).
Proof.
  induction n as [|n IH]; [reflexivity|].
  change (replicate (S n) b) with (b :: replicate n b).
  rewrite deviation_sum_cons, IH. lia.
Qed.

Lemma deviation_sum_alternating n :
  deviation_sum (alternating n) = - Z.of_nat n.
Proof.
  induction n as [|n IH]; [reflexivity|].
  unfold alternating in *. simpl concat.
  rewrite !deviation_sum_cons, IH. cbn. lia.
Qed.

Lemma length_alternating n : length (alternating n) = (2 * n)%nat.
Proof.
  induction n as [|n IH]; [reflexivity|].
  unfold alternating in *. simpl. rewrite IH. lia.
Qed.

(** The quotient of [peak_val] on a block of [len >= 1] samples. *)
Lemma peak_val_nonempty data :
  data <> [] ->
  peak_val data =
    Ok (inject_Z (deviation_sum data) / inject_Z (Z.of_nat (length data))
        / 128)%Q.
Proof.
  intros Hne. unfold peak_val.
  destruct data as [|b data]; [congruence|]. reflexivity.
Qed.

(** [s / len / 128] as one fraction. *)
Lemma level_fraction (s : Z) (len : positive) :
  (inject_Z s / inject_Z (Z.pos len) / 128 == s # (len * 128))%Q.
Proof. unfold Qeq, Qdiv, Qmult, Qinv, inject_Z. simpl. lia. Qed.

Lemma yields_level data (len : positive) (q : Q) :
  Z.of_nat (length data) = Z.pos len ->
  (deviation_sum data # (len * 128) == q)%Q ->
  yields (peak_val data) q.
Proof.
  intros Hlen Hq. rewrite peak_val_nonempty.
  - unfold yields. rewrite Hlen, level_fraction. exact Hq.
  - intros ->. discriminate Hlen.
Qed.

Lemma spec_abs_deviation_sum_nonneg data : 0 <= spec_abs_deviation_sum data.
Proof.
  induction data as [|b data IH]; [reflexivity|].
  rewrite spec_abs_deviation_sum_cons. lia.
Qed.

Lemma length_pos {A : Type} (l : list A) :
  l <> [] -> exists len, Z.of_nat (length l) = Z.pos len.
Proof.
  intros Hne. destruct l as [|x l]; [congruence|].
  exists (Pos.of_succ_nat (length l)). simpl length. lia.
Qed.

Lemma spec_peak_level_fraction data (len : positive) :
  Z.of_nat (length data) = Z.pos len ->
  (spec_peak_level data == spec_abs_deviation_sum data # (len * 128))%Q.
Proof.
  intros Hlen. unfold spec_peak_level. rewrite Hlen. apply level_fraction.
Qed.

(** C1, as the code has it: on a block of at least one sample the callback
    returns the signed mean of the deviations [b - 128] divided by 128, a
    value between -1 and 127/128.  Where every sample is at least 128 (the
    range the source comment gives for [PA_SAMPLE_U8]) it is the mean
    absolute deviation over 128.  A block of 128s gives 0, a block of 255s
    gives 127/128, a block of 0s gives -1 and a block alternating 0 and 255
    gives -1/256. *)
Theorem peak_val_signed_mean (data : list byte) (n : nat) :
  data <> [] -> (1 <= n)%nat ->
  (exists val, peak_val data = Ok val /\
     (-1 <= val <= 127 # 128)%Q /\
     (Forall (fun b => 128 <= sample b) data ->
      (val == spec_peak_level data)%Q /\ (0 <= val)%Q)) /\
  yields (peak_val (replicate n x80)) 0 /\
  yields (peak_val (replicate n xff)) (127 # 128) /\
  yields (peak_val (replicate n x00)) (-1) /\
  yields (peak_val (alternating n)) (-1 # 256).
Proof.
  intros Hne Hn. split; [|repeat split].
  - destruct (length_pos data Hne) as [len Hlen].
    eexists. split; [apply peak_val_nonempty; exact Hne|].
    rewrite Hlen. pose proof (deviation_sum_range data) as Hr.
    rewrite Hlen in Hr. split; [split|].
    + rewrite level_fraction. unfold Qle. simpl. lia.
    + rewrite level_fraction. unfold Qle. simpl. lia.
    + intros Hall. rewrite level_fraction.
      rewrite (spec_peak_level_fraction data len Hlen).
      rewrite <- (deviation_sum_abs data Hall). split; [reflexivity|].
      pose proof (spec_abs_deviation_sum_nonneg data) as Hpos.
      rewrite <- (deviation_sum_abs data Hall) in Hpos.
      unfold Qle. simpl. lia.
  - apply (yields_level _ (Pos.of_nat n)).
    + rewrite length_replicate. lia.
    + rewrite deviation_sum_replicate. unfold Qeq. cbn. lia.
  - apply (yields_level _ (Pos.of_nat n)).
    + rewrite length_replicate. lia.
    + rewrite deviation_sum_replicate. unfold Qeq. cbn. lia.
  - apply (yields_level _ (Pos.of_nat n)).
    + rewrite length_replicate. lia.
    + rewrite deviation_sum_replicate. unfold Qeq. cbn. lia.
  - apply (yields_level _ (Pos.of_nat (2 * n))).
    + rewrite length_alternating. lia.
    + rewrite deviation_sum_alternating. unfold Qeq. cbn. lia.
Qed.

Lemma peak_val_signed_mean_witness :
  [x80; xff] <> [] /\ (1 <= 2)%nat /\
  (exists val, peak_val [x80; xff] = Ok val /\
     (-1 <= val <= 127 # 128)%Q /\
     (Forall (fun b => 128 <= sample b) [x80; xff] ->
      (val == spec_peak_level [x80; xff])%Q /\ (0 <= val)%Q)) /\
  yields (peak_val (replicate 2 x80)) 0 /\
  yields (peak_val (replicate 2 xff)) (127 # 128) /\
  yields (peak_val (replicate 2 x00)) (-1) /\
  yields (peak_val (alternating 2)) (-1 # 256).
Proof.
  assert (H1 : [x80; xff] <> []) by discriminate.
  assert (H2 : (1 <= 2)%nat) by lia.
  split; [exact H1|]. split; [exact H2|].
  exact (peak_val_signed_mean [x80; xff] 2 H1 H2).
Defined.

(** C1 as stated fails: on the block [0, 255] the callback returns -1/256,
    which is neither 1 nor the mean absolute deviation over 128, and on a
    block of 255s it returns 127/128, not 1. *)
Lemma peak_val_alternating_counterexample :
  yields (peak_val [x00; xff]) (-1 # 256) /\
  ~ yields (peak_val [x00; xff]) 1 /\
  ~ yields (peak_val [x00; xff]) (spec_peak_level [x00; xff]) /\
  ~ yields (peak_val [xff; xff]) 1.
Proof.
  split; [vm_compute; reflexivity|].
  split; [|split]; vm_compute; intros H; discriminate H.
Qed.

(** ** Dictionaries in insertion order *)

Section odict_facts.
Context {V : Type}.
Implicit Types (d : odict V) (k : Z) (v : V).

Lemma od_get_In k v d : od_get k d = Some v -> In (k, v) d.
Proof.
  induction d as [|[k' v'] d IH]; simpl; [discriminate|].
  destruct (Z.eqb_spec k k') as [->|Hne].
  - intros [= ->]. left. reflexivity.
  - intros H. right. apply IH, H.
Qed.

Lemma od_get_set_eq k v d : od_get k (od_set k v d) = Some v.
Proof.
  induction d as [|[k' v'] d IH]; simpl.
  - rewrite Z.eqb_refl. reflexivity.
  - destruct (Z.eqb_spec k k') as [->|Hne]; simpl.
    + rewrite Z.eqb_refl. reflexivity.
    + destruct (Z.eqb_spec k k'); [contradiction|]. exact IH.
Qed.

Lemma od_get_set_ne k k' v d :
  k <> k' -> od_get k' (od_set k v d) = od_get k' d.
Proof.
  intros Hne. induction d as [|[k0 v0] d IH]; simpl.
  - destruct (Z.eqb_spec k' k); [congruence|reflexivity].
  - destruct (Z.eqb_spec k k0) as [->|Hk]; simpl.
    + destruct (Z.eqb_spec k' k0); [congruence|reflexivity].
    + destruct (Z.eqb_spec k' k0); [reflexivity|exact IH].
Qed.

Lemma od_set_In k v d x : In x (od_set k v d) -> x = (k, v) \/ In x d.
Proof.
  induction d as [|[k' v'] d IH]; simpl.
  - intros [<-|[]]. left. reflexivity.
  - destruct (Z.eqb_spec k k') as [->|Hne]; simpl.
    + intros [<-|H]; auto.
    + intros [<-|H]; auto. destruct (IH H); auto.
Qed.

Lemma od_remove_In k d x : In x (od_remove k d) -> In x d.
Proof.
  induction d as [|[k' v'] d IH]; simpl; [tauto|].
  destruct (Z.eqb_spec k k'); simpl; [auto|].
  intros [<-|H]; auto.
Qed.

(** A new key goes to the end; a present key keeps its place. *)
Lemma od_keys_set k v d :
  od_keys (od_set k v d) =
    if od_contains k d then od_keys d else od_keys d ++ [k].
Proof.
  unfold od_contains, od_keys.
  induction d as [|[k' v'] d IH]; simpl; [reflexivity|].
  destruct (Z.eqb_spec k k') as [->|Hne]; simpl; [reflexivity|].
  rewrite IH. destruct (od_get k d); reflexivity.
Qed.
Lemma od_keys_In k v d : In (k, v) d -> In k (od_keys d).
Proof. intros H. apply (in_map fst) in H. exact H. Qed.

Lemma od_get_not_In k d : ~ In k (od_keys d) -> od_get k d = None.
Proof.
  induction d as [|[k' v'] d IH]; simpl; [reflexivity|].
  intros Hn. destruct (Z.eqb_spec k k') as [->|Hne].
  - exfalso. apply Hn. left. reflexivity.
  - apply IH. intros H. apply Hn. right. exact H.
Qed.

Lemma od_get_None_keys k d : od_get k d = None -> ~ In k (od_keys d).
Proof.
  induction d as [|[k' v'] d IH]; simpl; [tauto|].
  destruct (Z.eqb_spec k k') as [->|Hne]; [discriminate|].
  intros H [Heq|Hin]; [congruence|]. exact (IH H Hin).
Qed.

Lemma od_keys_set_In k v d x :
  In x (od_keys (od_set k v d)) -> x = k \/ In x (od_keys d).
Proof.
  rewrite od_keys_set. destruct (od_contains k d); [auto|].
  intros H. apply in_app_or in H. destruct H as [H|[<-|[]]]; auto.
Qed.

Lemma od_keys_remove_In k d x :
  In x (od_keys (od_remove k d)) -> In x (od_keys d).
Proof.
  induction d as [|[k' v'] d IH]; simpl; [tauto|].
  destruct (Z.eqb_spec k k'); simpl; [auto|].
  intros [<-|H]; auto.
Qed.

Lemma od_set_NoDup k v d :
  NoDup (od_keys d) -> NoDup (od_keys (od_set k v d)).
Proof.
  induction d as [|[k' v'] d IH]; simpl.
  - intros _. constructor; [apply not_elem_of_nil|constructor].
  - intros Hnd. inversion Hnd as [|x l Hnin Hnd']; subst.
    destruct (Z.eqb_spec k k') as [->|Hne]; simpl.
    + constructor; assumption.
    + constructor; [|apply IH, Hnd'].
      intros Hin. apply Hnin. apply list_elem_of_In.
      apply list_elem_of_In, od_keys_set_In in Hin.
      destruct Hin as [->|Hin]; [congruence|exact Hin].
Qed.

Lemma od_remove_NoDup k d :
  NoDup (od_keys d) -> NoDup (od_keys (od_remove k d)).
Proof.
  induction d as [|[k' v'] d IH]; simpl; [auto|].
  intros Hnd. inversion Hnd as [|x l Hnin Hnd']; subst.
  destruct (Z.eqb_spec k k'); simpl; [exact Hnd'|].
  constructor; [|apply IH, Hnd'].
  intros Hin. apply Hnin. apply list_elem_of_In.
  apply list_elem_of_In in Hin. eapply od_keys_remove_In, Hin.
Qed.

(** A removed key is gone. *)
Lemma od_get_remove_eq k d :
  NoDup (od_keys d) -> od_get k (od_remove k d) = None.
Proof.
  induction d as [|[k' v'] d IH]; simpl; [reflexivity|].
  intros Hnd. inversion Hnd as [|x l Hnin Hnd']; subst.
  destruct (Z.eqb_spec k k') as [->|Hne]; simpl.
  - apply od_get_not_In. intros Hin. apply Hnin, list_elem_of_In, Hin.
  - destruct (Z.eqb_spec k k'); [contradiction|]. apply IH, Hnd'.
Qed.
End odict_facts.

(** ** Running statements *)

Lemma bind_Ok {A B : Type} (m : M A) (k : A -> M B) st st' a :
  m st = (st', Ok a) -> bind m k st = k a st'.
Proof. intros H. unfold bind. rewrite H. reflexivity. Qed.

Lemma bind_Raise {A B : Type} (m : M A) (k : A -> M B) st st' e :
  m st = (st', Raise e) -> bind m k st = (st', Raise e).
Proof. intros H. unfold bind. rewrite H. reflexivity. Qed.

Lemma Sink_update_run st self s struct props :
  sink_objects st !! self = Some s ->
  let s' := Sink_updated s struct props in
  Sink_update self struct props st =
    (mk_state (_pa_clients st) (_pa_sinks st) (_pa_sinks_by_name st)
       (_default_sink st) (_pa_sink_inputs st)
       (<[self := s']> (sink_objects st)) (sink_input_objects st)
       (idle_queue st ++ Sink_update_calls (_default_sink st) s')
       (requests st),
     Ok tt).
Proof.
  intros Hs s'. unfold Sink_update, read_sink, write_sink, is_main_sink,
    idle_add, Sink_update_calls.
  unfold_m. rewrite Hs. fold s'. cbn -[py_eq of_opt_bytes].
  destruct (py_eq _ _); cbn -[py_eq of_opt_bytes];
    unfold set_idle_queue, set_sink_objects; simpl.
  - rewrite <- app_assoc. reflexivity.
  - reflexivity.
Qed.

Lemma insert_snoc {A : Type} (l : list A) (x y : A) :
  <[length l := x]> (l ++ [y]) = l ++ [x].
Proof.
  rewrite <- (Nat.add_0_r (length l)) at 1. rewrite insert_app_r. reflexivity.
Qed.

Lemma Sink_new_run st index struct props :
  let s' := Sink_updated (Sink_base_init index) struct props in
  Sink_new index struct props st =
    (mk_state (_pa_clients st) (_pa_sinks st) (_pa_sinks_by_name st)
       (_default_sink st) (_pa_sink_inputs st)
       (sink_objects st ++ [s']) (sink_input_objects st)
       (idle_queue st ++ Sink_update_calls (_default_sink st) s')
       (requests st),
     Ok (length (sink_objects st))).
Proof.
  intros s'. unfold Sink_new.
  erewrite bind_Ok; [|reflexivity].
  erewrite bind_Ok.
  2:{ apply Sink_update_run. simpl. apply list_lookup_middle. reflexivity. }
  unfold ret. simpl. fold s'.
  rewrite insert_snoc. reflexivity.
Qed.

(** The upsert of an index [_pa_sinks] does not hold. *)
Lemma new_sink_fresh st index struct props :
  od_get index (_pa_sinks st) = None ->
  let s' := Sink_updated (Sink_base_init index) struct props in
  let r := length (sink_objects st) in
  _on_new_pa_sink index struct props st =
    (mk_state (_pa_clients st) (od_set index r (_pa_sinks st))
       (<[si_name struct := r]> (_pa_sinks_by_name st))
       (_default_sink st) (_pa_sink_inputs st)
       (sink_objects st ++ [s']) (sink_input_objects st)
       (idle_queue st ++ Sink_update_calls (_default_sink st) s'
          ++ [slider_count_changed])
       (requests st),
     Ok tt).
Proof.
  intros Hget s' r. unfold _on_new_pa_sink.
  erewrite bind_Ok; [|reflexivity].
  unfold od_contains. rewrite Hget. cbn [negb].
  erewrite bind_Ok; [|apply Sink_new_run].
  erewrite bind_Ok; [|reflexivity].
  unfold Sink_sink_name.
  erewrite bind_Ok.
  2:{ erewrite bind_Ok; [reflexivity|].
      unfold read_sink. simpl. rewrite list_lookup_middle by reflexivity.
      reflexivity. }
  erewrite bind_Ok; [|reflexivity].
  unfold idle_add, modify, set_idle_queue, set_pa_sinks_by_name, set_pa_sinks.
  simpl. rewrite <- app_assoc. reflexivity.
Qed.

(** The upsert of an index [_pa_sinks] holds: the object is updated in
    place, and its entry of the name dictionary is moved when there is one
    under the old name. *)
Lemma new_sink_known st index struct props r s :
  od_get index (_pa_sinks st) = Some r ->
  sink_objects st !! r = Some s ->
  let s' := Sink_updated s struct props in
  let objects := <[r := s']> (sink_objects st) in
  let queue := idle_queue st ++ Sink_update_calls (_default_sink st) s' in
  _on_new_pa_sink index struct props st =
    match _pa_sinks_by_name st !! Sink._sink_name s with
    | Some _ =>
        (mk_state (_pa_clients st) (_pa_sinks st)
           (<[si_name struct := r]>
              (delete (Sink._sink_name s) (_pa_sinks_by_name st)))
           (_default_sink st) (_pa_sink_inputs st) objects
           (sink_input_objects st) queue (requests st),
         Ok tt)
    | None =>
        (mk_state (_pa_clients st) (_pa_sinks st) (_pa_sinks_by_name st)
           (_default_sink st) (_pa_sink_inputs st) objects
           (sink_input_objects st) queue (requests st),
         Raise KeyError)
    end.
Proof.
  intros Hget Hs s' objects queue. unfold _on_new_pa_sink.
  erewrite bind_Ok; [|reflexivity].
  unfold od_contains. rewrite Hget. cbn [negb].
  erewrite bind_Ok; [|unfold od_getitem; rewrite Hget; reflexivity].
  erewrite bind_Ok.
  2:{ unfold Sink_sink_name. erewrite bind_Ok; [reflexivity|].
      unfold read_sink. rewrite Hs. reflexivity. }
  erewrite bind_Ok; [|apply Sink_update_run; exact Hs].
  fold s' objects queue.
  assert (Hr : (r < length (sink_objects st))%nat)
    by (eapply lookup_lt_Some; exact Hs).
  unfold delitem_sinks_by_name, getitem. unfold_m. simpl.
  destruct (_pa_sinks_by_name st !! Sink._sink_name s); [|reflexivity].
  unfold Sink_sink_name, read_sink. unfold_m. simpl.
  unfold objects at 1. rewrite list_lookup_insert_eq by exact Hr.
  reflexivity.
Qed.

(** ** The invariant of every run *)

Lemma is_Some_insert {A : Type} (l : list A) (i j : nat) (x : A) :
  is_Some (l !! i) -> is_Some (<[j := x]> l !! i).
Proof.
  rewrite !lookup_lt_is_Some, length_insert. auto.
Qed.

Lemma is_Some_snoc {A : Type} (l : list A) (i : nat) (x : A) :
  is_Some (l !! i) -> is_Some ((l ++ [x]) !! i).
Proof.
  rewrite !lookup_lt_is_Some, length_app. simpl. lia.
Qed.

Lemma wf_init : wf init.
Proof.
  split; simpl.
  - constructor.
  - intros i r [].
  - intros n r H. rewrite lookup_empty in H. discriminate.
  - intros i r H. rewrite lookup_empty in H. discriminate.
  - constructor.
Qed.

(** [wf] reads five fields only. *)
Lemma wf_frame st st' :
  _pa_sinks st' = _pa_sinks st ->
  _pa_sinks_by_name st' = _pa_sinks_by_name st ->
  sink_objects st' = sink_objects st ->
  _pa_sink_inputs st' = _pa_sink_inputs st ->
  sink_input_objects st' = sink_input_objects st ->
  wf st -> wf st'.
Proof.
  intros E1 E2 E3 E4 E5 [H0 H1 H2 H3 H4].
  split; rewrite ?E1, ?E2, ?E3, ?E4, ?E5; assumption.
Qed.

(** Updating a [Sink] in place keeps the invariant when its index stays. *)
Lemma wf_write_sink st st' r s s' :
  sink_objects st !! r = Some s -> Sink.idx s' = Sink.idx s ->
  _pa_sinks st' = _pa_sinks st ->
  _pa_sinks_by_name st' = _pa_sinks_by_name st ->
  sink_objects st' = <[r := s']> (sink_objects st) ->
  _pa_sink_inputs st' = _pa_sink_inputs st ->
  sink_input_objects st' = sink_input_objects st ->
  wf st -> wf st'.
Proof.
  intros Hs Hidx E1 E2 E3 E4 E5 [H0 H1 H2 H3 H4].
  split; rewrite ?E1, ?E2, ?E3, ?E4, ?E5; try assumption.
  - intros i r0 Hin. destruct (H1 i r0 Hin) as [s0 [Hs0 Hi]].
    destruct (decide (r0 = r)) as [->|Hne].
    + exists s'. split.
      * apply list_lookup_insert_eq. eapply lookup_lt_Some, Hs.
      * congruence.
    + exists s0. split; [|exact Hi].
      rewrite list_lookup_insert_ne by congruence. exact Hs0.
  - intros n r0 Hn. apply is_Some_insert. eapply H2, Hn.
Qed.

(** Updating a [SinkInput] in place, likewise. *)
Lemma wf_write_sink_input st st' r s s' :
  sink_input_objects st !! r = Some s ->
  SinkInput.idx s' = SinkInput.idx s -> bound s' ->
  _pa_sinks st' = _pa_sinks st ->
  _pa_sinks_by_name st' = _pa_sinks_by_name st ->
  sink_objects st' = sink_objects st ->
  _pa_sink_inputs st' = _pa_sink_inputs st ->
  sink_input_objects st' = <[r := s']> (sink_input_objects st) ->
  wf st -> wf st'.
Proof.
  intros Hs Hidx Hb E1 E2 E3 E4 E5 [H0 H1 H2 H3 H4].
  split; rewrite ?E1, ?E2, ?E3, ?E4, ?E5; try assumption.
  - intros i r0 Hin. destruct (H3 i r0 Hin) as [s0 [Hs0 Hi]].
    destruct (decide (r0 = r)) as [->|Hne].
    + exists s'. split.
      * apply list_lookup_insert_eq. eapply lookup_lt_Some, Hs.
      * congruence.
    + exists s0. split; [|exact Hi].
      rewrite list_lookup_insert_ne by congruence. exact Hs0.
  - apply Forall_insert; assumption.
Qed.

Lemma Sink_updated_idx s struct props :
  Sink.idx (Sink_updated s struct props) = Sink.idx s.
Proof. reflexivity. Qed.

Lemma SinkInput_updated_bound s struct props :
  bound (SinkInput_updated s struct props).
Proof. unfold bound. simpl. repeat split; eexists; reflexivity. Qed.

Lemma wf_new_sink st index struct props :
  wf st -> wf (step (new_sink index struct props) st).
Proof.
  intros Hwf. unfold step, handle.
  destruct (od_get index (_pa_sinks st)) as [r|] eqn:Hget.
  - destruct (wf_sinks st Hwf index r (od_get_In _ _ _ Hget)) as [s [Hs Hi]].
    rewrite (new_sink_known st index struct props r s Hget Hs).
    assert (Hbase : wf (set_sink_objects
                          (fun h => <[r := Sink_updated s struct props]> h) st)).
    { eapply (wf_write_sink st _ r s (Sink_updated s struct props));
        try reflexivity; assumption. }
    destruct (_pa_sinks_by_name st !! Sink._sink_name s) as [r0|] eqn:Hn.
    + destruct Hbase as [H0 H1 H2 H3 H4]. split; simpl in *; try assumption.
      intros n r1 Hl. apply lookup_insert_Some in Hl.
      destruct Hl as [[_ <-]|[_ Hl]].
      * apply is_Some_insert. rewrite Hs. eexists. reflexivity.
      * apply lookup_delete_Some in Hl. destruct Hl as [_ Hl].
        eapply H2, Hl.
    + eapply wf_frame; [..|exact Hbase]; reflexivity.
  - rewrite (new_sink_fresh st index struct props Hget).
    destruct Hwf as [H0 H1 H2 H3 H4]. split; simpl; try assumption.
    + apply od_set_NoDup, H0.
    + intros i r Hin. apply od_set_In in Hin. destruct Hin as [[= -> ->]|Hin].
      * eexists. split; [apply list_lookup_middle; reflexivity|reflexivity].
      * destruct (H1 i r Hin) as [s [Hs Hi]]. exists s. split; [|exact Hi].
        rewrite lookup_app_l by (eapply lookup_lt_Some, Hs). exact Hs.
    + intros n r Hl. apply lookup_insert_Some in Hl.
      destruct Hl as [[_ <-]|[_ Hl]].
      * rewrite list_lookup_middle by reflexivity. eexists. reflexivity.
      * apply is_Some_snoc. eapply H2, Hl.
Qed.

Lemma remove_sink_run st index :
  _on_remove_pa_sink index st =
    match od_get index (_pa_sinks st) with
    | Some _ => (set_pa_sinks (od_remove index) st, Raise AttributeError)
    | None => (st, Raise KeyError)
    end.
Proof.
  unfold _on_remove_pa_sink, od_getitem. unfold_m.
  destruct (od_get index (_pa_sinks st)); reflexivity.
Qed.

Lemma wf_remove_sink st index : wf st -> wf (step (remove_sink index) st).
Proof.
  intros Hwf. unfold step, handle. rewrite remove_sink_run.
  destruct (od_get index (_pa_sinks st)); [|exact Hwf].
  destruct Hwf as [H0 H1 H2 H3 H4]. split; simpl; try assumption.
  - apply od_remove_NoDup, H0.
  - intros i r Hin. apply H1. eapply od_remove_In, Hin.
Qed.

Lemma SinkInput_update_run st self s struct props :
  sink_input_objects st !! self = Some s ->
  let s' := SinkInput_updated s struct props in
  SinkInput_update self struct props st =
    (mk_state (_pa_clients st) (_pa_sinks st) (_pa_sinks_by_name st)
       (_default_sink st) (_pa_sink_inputs st) (sink_objects st)
       (<[self := s']> (sink_input_objects st))
       (idle_queue st ++
          [update_sink_input_scale (SinkInput.idx s) (SinkInput.volume s')
             (SinkInput.mute s')])
       (requests st),
     Ok tt).
Proof.
  intros Hs s'. unfold SinkInput_update, read_sink_input, write_sink_input,
    idle_add.
  unfold_m. rewrite Hs. reflexivity.
Qed.

Lemma SinkInput_new_run st index struct props :
  let s' := SinkInput_updated (SinkInput_base_init index struct) struct props in
  SinkInput_new index struct props st =
    (mk_state (_pa_clients st) (_pa_sinks st) (_pa_sinks_by_name st)
       (_default_sink st) (_pa_sink_inputs st) (sink_objects st)
       (sink_input_objects st ++ [s'])
       (idle_queue st ++
          [update_sink_input_scale index (SinkInput.volume s')
             (SinkInput.mute s')])
       (requests st),
     Ok (length (sink_input_objects st))).
Proof.
  intros s'. unfold SinkInput_new.
  erewrite bind_Ok; [|reflexivity].
  erewrite bind_Ok.
  2:{ apply SinkInput_update_run. simpl. apply list_lookup_middle. reflexivity. }
  unfold ret. simpl. fold s'. rewrite insert_snoc. reflexivity.
Qed.

(** The admission test of [_on_new_pa_sink_input]. *)
Lemma new_sink_input_rejected st index struct props :
  py_eq (PyBytes (sii_name struct)) (PyStr "audio-volume-change") = true \/
  py_in (PyStr (decode (sii_driver struct)))
    [PyStr "protocol-native.c"; PyStr "PipeWire"] = false ->
  _on_new_pa_sink_input index struct props st = (st, Ok tt).
Proof.
  unfold _on_new_pa_sink_input. intros [H|H]; rewrite H; [reflexivity|].
  destruct (py_eq _ _); reflexivity.
Qed.

Lemma new_sink_input_accepted st index struct props :
  py_in (PyStr (decode (sii_driver struct)))
    [PyStr "protocol-native.c"; PyStr "PipeWire"] = true ->
  _on_new_pa_sink_input index struct props st =
    match _pa_sink_inputs st !! index with
    | None =>
        let (st', r) := SinkInput_new index struct props st in
        (set_idle_queue (fun q => q ++ [slider_count_changed])
           (set_pa_sink_inputs (insert index (length (sink_input_objects st)))
              st'), Ok tt)
    | Some r => SinkInput_update r struct props st
    end.
Proof.
  intros Hdrv. unfold _on_new_pa_sink_input. rewrite Hdrv. simpl.
  erewrite bind_Ok; [|reflexivity].
  destruct (_pa_sink_inputs st !! index) as [r|] eqn:Hget.
  - rewrite bool_decide_false by discriminate.
    erewrite bind_Ok; [reflexivity|]. unfold getitem. rewrite Hget. reflexivity.
  - rewrite bool_decide_true by reflexivity.
    rewrite SinkInput_new_run. erewrite bind_Ok; [|apply SinkInput_new_run].
    reflexivity.
Qed.

Lemma wf_new_sink_input st index struct props :
  wf st -> wf (step (new_sink_input index struct props) st).
Proof.
  intros Hwf. unfold step, handle.
  destruct (py_in (PyStr (decode (sii_driver struct)))
              [PyStr "protocol-native.c"; PyStr "PipeWire"]) eqn:Hdrv.
  2:{ rewrite new_sink_input_rejected by (right; exact Hdrv). exact Hwf. }
  rewrite new_sink_input_accepted by exact Hdrv.
  destruct (_pa_sink_inputs st !! index) as [r|] eqn:Hget.
  - destruct (wf_sink_inputs st Hwf index r Hget) as [s [Hs Hi]].
    rewrite (SinkInput_update_run st r s struct props Hs).
    eapply (wf_write_sink_input st _ r s (SinkInput_updated s struct props));
      try reflexivity; try assumption.
    apply SinkInput_updated_bound.
  - rewrite SinkInput_new_run.
    destruct Hwf as [H0 H1 H2 H3 H4]. split; simpl; try assumption.
    + intros i r Hl. apply lookup_insert_Some in Hl.
      destruct Hl as [[<- <-]|[_ Hl]].
      * eexists. split; [apply list_lookup_middle; reflexivity|reflexivity].
      * destruct (H3 i r Hl) as [s [Hs Hi]]. exists s. split; [|exact Hi].
        rewrite lookup_app_l by (eapply lookup_lt_Some, Hs). exact Hs.
    + apply Forall_app. split; [exact H4|].
      constructor; [apply SinkInput_updated_bound|constructor].
Qed.

Lemma Sink_set_volume_run st self volume :
  Sink_set_volume self volume st =
    match sink_objects st !! self with
    | None => (st, Raise ReferenceError)
    | Some s =>
        let s' :=
          Sink.mk (Sink.idx s) volume (Sink.channels s) (Sink.mute s)
            (Sink._icon_name s) (Sink._name s) (Sink._sink_name s) in
        let st' := set_sink_objects (fun h => <[self := s']> h) st in
        match cvolume_from_volume volume (Sink.channels s) with
        | Ok cvolume =>
            (set_requests
               (fun q => q ++
                  [pa_context_set_sink_volume_by_index (Sink.idx s) cvolume])
               st', Ok tt)
        | Raise e => (st', Raise e)
        end
    end.
Proof.
  unfold Sink_set_volume, read_sink, write_sink, set_sink_volume,
    PulseAudio_set_sink_volume. unfold_m.
  destruct (sink_objects st !! self); [|reflexivity]. simpl.
  destruct (cvolume_from_volume _ _); reflexivity.
Qed.

Lemma SinkInput_set_volume_run st self volume :
  SinkInput_set_volume self volume st =
    match sink_input_objects st !! self with
    | None => (st, Raise ReferenceError)
    | Some s =>
        let s' :=
          SinkInput.mk (SinkInput.idx s) volume (SinkInput.channels s)
            (SinkInput.mute s) (SinkInput._icon_name s) (SinkInput._name s)
            (SinkInput._sink_idx s) (SinkInput.client s)
            (SinkInput.app_name s) (SinkInput.media_name s) in
        let st' := set_sink_input_objects (fun h => <[self := s']> h) st in
        match cvolume_from_volume volume (SinkInput.channels s) with
        | Ok cvolume =>
            (set_requests
               (fun q => q ++
                  [pa_context_set_sink_input_volume (SinkInput.idx s) cvolume])
               st', Ok tt)
        | Raise e => (st', Raise e)
        end
    end.
Proof.
  unfold SinkInput_set_volume, read_sink_input, write_sink_input,
    set_sink_input_volume, PulseAudio_set_sink_input_volume. unfold_m.
  destruct (sink_input_objects st !! self); [|reflexivity]. simpl.
  destruct (cvolume_from_volume _ _); reflexivity.
Qed.

Lemma wf_set_requests st f : wf st -> wf (set_requests f st).
Proof. intros Hwf. eapply wf_frame; [..|exact Hwf]; reflexivity. Qed.

Lemma wf_sink_volume st self volume :
  wf st -> wf (step (sink_volume self volume) st).
Proof.
  intros Hwf. unfold step, handle. rewrite Sink_set_volume_run.
  destruct (sink_objects st !! self) as [s|] eqn:Hs; [|exact Hwf].
  cbv zeta.
  match goal with
  | |- context [set_sink_objects (fun h => <[self := ?x]> h) st] =>
      assert (Hst : wf (set_sink_objects (fun h => <[self := x]> h) st))
        by (eapply (wf_write_sink st _ self s x); try reflexivity; assumption)
  end.
  destruct (cvolume_from_volume _ _); [apply wf_set_requests|]; exact Hst.
Qed.

Lemma wf_sink_input_volume st self volume :
  wf st -> wf (step (sink_input_volume self volume) st).
Proof.
  intros Hwf. unfold step, handle. rewrite SinkInput_set_volume_run.
  destruct (sink_input_objects st !! self) as [s|] eqn:Hs; [|exact Hwf].
  cbv zeta.
  assert (Hb : bound s).
  { eapply Forall_lookup_1; [apply (wf_bound st Hwf)|exact Hs]. }
  match goal with
  | |- context [set_sink_input_objects (fun h => <[self := ?x]> h) st] =>
      assert (Hst : wf (set_sink_input_objects (fun h => <[self := x]> h) st))
        by (eapply (wf_write_sink_input st _ self s x);
            try reflexivity; assumption)
  end.
  destruct (cvolume_from_volume _ _); [apply wf_set_requests|]; exact Hst.
Qed.

(** Reading the main sink changes nothing. *)
Lemma get_first_sink_state st : fst (get_first_sink st) = st.
Proof.
  unfold get_first_sink, list_getitem, od_getitem. unfold_m. simpl.
  destruct (od_keys (_pa_sinks st) !! 0%nat); simpl; [|reflexivity].
  destruct (od_get _ _); reflexivity.
Qed.

Lemma get_main_sink_state st : fst (get_main_sink st) = st.
Proof.
  unfold get_main_sink, getitem. unfold_m. simpl.
  destruct (_default_sink st) as [n|].
  - destruct (_pa_sinks_by_name st !! n); reflexivity.
  - apply get_first_sink_state.
Qed.

Lemma wf_main_volume st volume :
  wf st -> wf (step (main_volume volume) st).
Proof.
  intros Hwf. unfold step, handle, set_main_volume, bind.
  pose proof (get_main_sink_state st) as Hst.
  destruct (get_main_sink st) as [st' [[r|]|e]]; simpl in Hst; subst st';
    try exact Hwf.
  apply (wf_sink_volume st r volume Hwf).
Qed.

Lemma wf_step e st : wf st -> wf (step e st).
Proof.
  intros Hwf. destruct e.
  - unfold step, handle, _on_new_pa_client, getitem. unfold_m. simpl.
    case_bool_decide; simpl.
    + rewrite lookup_insert_eq. simpl.
      eapply wf_frame; [..|exact Hwf]; reflexivity.
    + destruct (_pa_clients st !! index); simpl;
        [eapply wf_frame; [..|exact Hwf]; reflexivity|exact Hwf].
  - unfold step, handle, _on_remove_pa_client. unfold_m. simpl.
    case_bool_decide; [eapply wf_frame; [..|exact Hwf]; reflexivity|exact Hwf].
  - apply wf_new_sink, Hwf.
  - apply wf_remove_sink, Hwf.
  - apply wf_new_sink_input, Hwf.
  - unfold step, handle, _on_remove_pa_sink_input, idle_add. unfold_m. simpl.
    case_bool_decide; [|exact Hwf].
    destruct Hwf as [H0 H1 H2 H3 H4]. split; simpl; try assumption.
    intros i r Hl. apply lookup_delete_Some in Hl. apply H3, Hl.
  - eapply wf_frame; [..|exact Hwf]; reflexivity.
  - apply wf_main_volume, Hwf.
  - apply wf_sink_volume, Hwf.
  - apply wf_sink_input_volume, Hwf.
  - unfold step, handle, _on_stream_read, idle_add. unfold_m.
    destruct (peak_val data); [|exact Hwf].
    destruct _is_sink_input; simpl;
      (eapply wf_frame; [..|exact Hwf]; reflexivity).
Qed.

(** Every state a run reaches satisfies the invariant. *)
Lemma reachable_wf st : reachable st -> wf st.
Proof.
  induction 1 as [|e st _ IH]; [apply wf_init|apply wf_step, IH].
Qed.

(** ** Notifications of a device upsert *)

Lemma py_eq_marker (name : bytes) (default_sink : option bytes) :
  py_eq (PyBytes name) (of_opt_bytes default_sink) =
    bool_decide (default_sink = Some name).
Proof.
  destruct default_sink as [d|]; cbn [py_eq of_opt_bytes].
  - destruct (String.eqb_spec name d) as [->|Hne].
    + rewrite bool_decide_true; reflexivity.
    + rewrite bool_decide_false; [reflexivity|congruence].
  - rewrite bool_decide_false; [reflexivity|discriminate].
Qed.

Lemma in_update_calls (b c : bool) (u sc sl x : idle_call) :
  In x ((if b then [u] else []) ++ [sc] ++ (if c then [] else [sl])) <->
  (b = true /\ x = u) \/ x = sc \/ (c = false /\ x = sl).
Proof.
  destruct b, c; simpl; intuition (try discriminate; auto).
Qed.

(** What [_on_new_pa_sink] queues, whether or not it returns. *)
Lemma new_sink_queue st index struct props :
  wf st ->
  let volume := array_head (cv_values (si_volume struct)) in
  let mute := py_bool (si_mute struct) in
  idle_queue (step (new_sink index struct props) st) =
    idle_queue st
    ++ (if bool_decide (_default_sink st = Some (si_name struct))
        then [update_values volume mute] else [])
    ++ [update_sink_scale index volume mute]
    ++ (if od_contains index (_pa_sinks st) then []
        else [slider_count_changed]).
Proof.
  intros Hwf volume mute. unfold step, handle, od_contains.
  destruct (od_get index (_pa_sinks st)) as [r|] eqn:Hget.
  - destruct (wf_sinks st Hwf index r (od_get_In _ _ _ Hget)) as [s [Hs Hi]].
    rewrite (new_sink_known st index struct props r s Hget Hs).
    unfold Sink_update_calls. rewrite py_eq_marker. simpl Sink._sink_name.
    rewrite Sink_updated_idx, Hi.
    destruct (_pa_sinks_by_name st !! Sink._sink_name s); reflexivity.
  - rewrite (new_sink_fresh st index struct props Hget).
    unfold Sink_update_calls. rewrite py_eq_marker. simpl.
    rewrite <- !app_assoc. reflexivity.
Qed.

(** C6: a device upsert queues "main values changed" exactly when the
    marker is set and equals the internal name the upsert carries, then with
    the new volume and mute; it always queues "device scale changed" for
    its index. *)
Theorem new_sink_notifications (st : state) (index : Z)
  (struct : pa_sink_info) (props : proplist) :
  reachable st ->
  let volume := array_head (cv_values (si_volume struct)) in
  let mute := py_bool (si_mute struct) in
  exists calls,
    idle_queue (step (new_sink index struct props) st) = idle_queue st ++ calls /\
    (In (update_values volume mute) calls <->
     _default_sink st = Some (si_name struct)) /\
    (forall v m, In (update_values v m) calls -> v = volume /\ m = mute) /\
    In (update_sink_scale index volume mute) calls.
Proof.
  intros Hreach volume mute.
  pose proof (new_sink_queue st index struct props (reachable_wf st Hreach))
    as Hq.
  fold volume mute in Hq. eexists. split; [exact Hq|].
  split; [|split].
  - rewrite in_update_calls. split.
    + intros [[Hd _]|[H|[_ H]]]; try discriminate H.
      apply bool_decide_eq_true in Hd. exact Hd.
    + intros Hd. left. split; [|reflexivity].
      apply bool_decide_eq_true. exact Hd.
  - intros v m. rewrite in_update_calls.
    intros [[_ H]|[H|[_ H]]]; try discriminate H.
    injection H as -> ->. split; reflexivity.
  - rewrite in_update_calls. right. left. reflexivity.
Qed.

Lemma new_sink_notifications_witness :
  let st :=
    run [new_sink 3 (sink_info "alsa_output" 50) no_props;
         default_sink (Some "alsa_output")] init in
  reachable st /\
  exists calls,
    idle_queue (step (new_sink 3 (sink_info "alsa_output" 70) no_props) st)
      = idle_queue st ++ calls /\
    (In (update_values 70 false) calls <->
     _default_sink st = Some "alsa_output") /\
    (forall v m, In (update_values v m) calls -> v = 70 /\ m = false) /\
    In (update_sink_scale 3 70 false) calls.
Proof.
  intros st.
  assert (Hreach : reachable st).
  { unfold st, run. simpl. do 2 apply reachable_step. apply reachable_init. }
  split; [exact Hreach|].
  exact (new_sink_notifications st 3 (sink_info "alsa_output" 70) no_props
           Hreach).
Defined.

(** The scenario of the specification, run from the start: the first upsert
    queues no "main values changed", the second queues it with (70, false). *)
Lemma new_sink_scenario :
  idle_queue
    (run [new_sink 3 (sink_info "alsa_output" 50) no_props;
          default_sink (Some "alsa_output");
          new_sink 3 (sink_info "alsa_output" 70) no_props] init) =
  [update_sink_scale 3 50 false; slider_count_changed;
   update_values 70 false; update_sink_scale 3 70 false].
Proof. vm_compute. reflexivity. Qed.

(** ** Main-device resolution *)

(** C10: with no marker and no device, [get_main_sink] returns [None]; the
    [IndexError] of the empty key list is caught in [get_first_sink]. *)
Theorem get_main_sink_empty (st : state) :
  _default_sink st = None -> _pa_sinks st = [] ->
  get_main_sink st = (st, Ok None).
Proof.
  intros Hd Hs. unfold get_main_sink, get_first_sink, list_getitem.
  unfold_m. simpl. rewrite Hd, Hs. reflexivity.
Qed.

Lemma get_main_sink_empty_witness : get_main_sink init = (init, Ok None).
Proof. apply (get_main_sink_empty init); reflexivity. Defined.

Lemma get_first_sink_head st i r rest :
  _pa_sinks st = (i, r) :: rest -> get_first_sink st = (st, Ok (Some r)).
Proof.
  intros Hs. unfold get_first_sink, list_getitem, od_getitem.
  unfold_m. rewrite Hs. cbn -[Z.eqb od_get]. rewrite Hs.
  cbn -[Z.eqb]. rewrite Z.eqb_refl. reflexivity.
Qed.

(** While the name dictionary mirrors the live devices: without a marker
    the main device is the first key of [_pa_sinks] in insertion order;
    with a marker it is the live device of that internal name, and
    [KeyError] is raised when no live device has it. *)
Lemma get_main_sink_resolution (st : state) :
  names_in_sync st ->
  (_default_sink st = None ->
   forall i r rest, _pa_sinks st = (i, r) :: rest ->
     get_main_sink st = (st, Ok (Some r))) /\
  (forall name, _default_sink st = Some name ->
     (forall i r s, od_get i (_pa_sinks st) = Some r ->
        sink_objects st !! r = Some s -> Sink._sink_name s = name ->
        get_main_sink st = (st, Ok (Some r))) /\
     ((forall i s, live st i s -> Sink._sink_name s <> name) ->
      get_main_sink st = (st, Raise KeyError))).
Proof.
  intros Hsync. split.
  - intros Hd i r rest Hs. unfold get_main_sink. unfold_m. simpl.
    rewrite Hd. apply (get_first_sink_head st i r rest Hs).
  - intros name Hd. split.
    + intros i r s Hget Hs Hname.
      assert (Hl : _pa_sinks_by_name st !! name = Some r).
      { apply Hsync. exists i, s. auto. }
      unfold get_main_sink, getitem. unfold_m. simpl. rewrite Hd, Hl.
      reflexivity.
    + intros Hnone.
      assert (Hl : _pa_sinks_by_name st !! name = None).
      { destruct (_pa_sinks_by_name st !! name) as [r|] eqn:Hl; [|reflexivity].
        apply Hsync in Hl. destruct Hl as [i [s [Hget [Hs Hname]]]].
        exfalso. apply (Hnone i s); [|exact Hname]. exists r. auto. }
      unfold get_main_sink, getitem. unfold_m. simpl. rewrite Hd, Hl.
      reflexivity.
Qed.

(** ** The name dictionary under upserts *)

Lemma names_in_sync_init : names_in_sync init.
Proof.
  intros n r. split.
  - intros H. cbn [init _pa_sinks_by_name] in H.
    rewrite lookup_empty in H. discriminate.
  - intros [i [s [H _]]]. discriminate.
Qed.

Lemma names_in_sync_frame st st' :
  _pa_sinks st' = _pa_sinks st ->
  _pa_sinks_by_name st' = _pa_sinks_by_name st ->
  sink_objects st' = sink_objects st ->
  names_in_sync st -> names_in_sync st'.
Proof.
  intros E1 E2 E3 H n r. rewrite E1, E2, E3. apply H.
Qed.

(** Two indices of [_pa_sinks] never share an object. *)
Lemma wf_sinks_inj st i j r :
  wf st -> od_get i (_pa_sinks st) = Some r ->
  od_get j (_pa_sinks st) = Some r -> i = j.
Proof.
  intros Hwf Hi Hj.
  destruct (wf_sinks st Hwf i r (od_get_In _ _ _ Hi)) as [s [Hs <-]].
  destruct (wf_sinks st Hwf j r (od_get_In _ _ _ Hj)) as [s' [Hs' <-]].
  congruence.
Qed.

(** Writing an object back with its internal name unchanged. *)
Lemma names_in_sync_write st r s s' :
  sink_objects st !! r = Some s ->
  Sink._sink_name s' = Sink._sink_name s ->
  names_in_sync st ->
  names_in_sync (set_sink_objects (fun h => <[r := s']> h) st).
Proof.
  intros Hs Hname Hsync n r0. rewrite (Hsync n r0). simpl.
  assert (Hr : (r < length (sink_objects st))%nat)
    by (eapply lookup_lt_Some, Hs).
  split; intros [i [s0 [Hget [Hs0 Hn]]]]; exists i.
  - destruct (decide (r0 = r)) as [->|Hne].
    + exists s'. rewrite list_lookup_insert_eq by exact Hr.
      repeat split; [exact Hget|congruence].
    + exists s0. rewrite list_lookup_insert_ne by congruence. auto.
  - destruct (decide (r0 = r)) as [->|Hne].
    + exists s. rewrite list_lookup_insert_eq in Hs0 by exact Hr.
      repeat split; [exact Hget|exact Hs|congruence].
    + exists s0. rewrite list_lookup_insert_ne in Hs0 by congruence. auto.
Qed.

(** An upsert keeps the name dictionary in step with the live devices, the
    change of an internal name included. *)
Lemma new_sink_names_in_sync st index struct props :
  wf st -> names_in_sync st ->
  keeps_names (new_sink index struct props) st ->
  names_in_sync (step (new_sink index struct props) st).
Proof.
  intros Hwf Hsync Huniq. simpl in Huniq. unfold step, handle.
  destruct (od_get index (_pa_sinks st)) as [r|] eqn:Hget.
  - destruct (wf_sinks st Hwf index r (od_get_In _ _ _ Hget)) as [s [Hs Hi]].
    rewrite (new_sink_known st index struct props r s Hget Hs).
    assert (Hold : _pa_sinks_by_name st !! Sink._sink_name s = Some r).
    { apply Hsync. exists index, s. auto. }
    assert (Hr : (r < length (sink_objects st))%nat)
      by (eapply lookup_lt_Some, Hs).
    rewrite Hold. intros n r0. simpl. split.
    + intros Hl. apply lookup_insert_Some in Hl.
      destruct Hl as [[<- <-]|[Hn Hl]].
      * exists index. eexists. split; [exact Hget|].
        split; [apply list_lookup_insert_eq, Hr|reflexivity].
      * apply lookup_delete_Some in Hl. destruct Hl as [Hno Hl].
        apply Hsync in Hl. destruct Hl as [i [s0 [Hgi [Hs0 Hn0]]]].
        exists i, s0. split; [exact Hgi|]. split; [|exact Hn0].
        rewrite list_lookup_insert_ne; [exact Hs0|].
        intros <-. congruence.
    + intros [i [s1 [Hgi [Hs1 Hn1]]]].
      destruct (decide (r0 = r)) as [->|Hne].
      * rewrite list_lookup_insert_eq in Hs1 by exact Hr.
        injection Hs1 as <-. simpl in Hn1. subst n.
        apply lookup_insert_eq.
      * rewrite list_lookup_insert_ne in Hs1 by congruence.
        assert (Hij : i <> index) by (intros ->; congruence).
        assert (Hnew : n <> si_name struct).
        { rewrite <- Hn1. apply (Huniq i s1); [|exact Hij].
          exists r0. auto. }
        assert (Hno : n <> Sink._sink_name s).
        { intros Heq. apply Hne.
          assert (Hl : _pa_sinks_by_name st !! n = Some r0).
          { apply Hsync. exists i, s1. auto. }
          congruence. }
        rewrite lookup_insert_ne by congruence.
        rewrite lookup_delete_ne by congruence.
        apply Hsync. exists i, s1. auto.
  - rewrite (new_sink_fresh st index struct props Hget).
    intros n r0. simpl. split.
    + intros Hl. apply lookup_insert_Some in Hl.
      destruct Hl as [[<- <-]|[Hn Hl]].
      * exists index. eexists. split; [apply od_get_set_eq|].
        split; [apply list_lookup_middle; reflexivity|reflexivity].
      * apply Hsync in Hl. destruct Hl as [i [s0 [Hgi [Hs0 Hn0]]]].
        exists i, s0.
        assert (Hij : index <> i) by (intros ->; congruence).
        rewrite (od_get_set_ne _ _ _ _ Hij).
        rewrite lookup_app_l by (eapply lookup_lt_Some, Hs0). auto.
    + intros [i [s1 [Hgi [Hs1 Hn1]]]].
      destruct (decide (i = index)) as [->|Hij].
      * rewrite od_get_set_eq in Hgi. injection Hgi as <-.
        rewrite list_lookup_middle in Hs1 by reflexivity.
        injection Hs1 as <-. simpl in Hn1. subst n. apply lookup_insert_eq.
      * rewrite od_get_set_ne in Hgi by congruence.
        destruct (wf_sinks st Hwf i r0 (od_get_In _ _ _ Hgi)) as [s0 [Hs0 _]].
        rewrite lookup_app_l in Hs1 by (eapply lookup_lt_Some, Hs0).
        assert (Hnew : n <> si_name struct).
        { rewrite <- Hn1. apply (Huniq i s1); [|exact Hij].
          exists r0. auto. }
        rewrite lookup_insert_ne by congruence.
        apply Hsync. exists i, s1. auto.
Qed.

Lemma sink_volume_names_in_sync st self volume :
  names_in_sync st -> names_in_sync (step (sink_volume self volume) st).
Proof.
  intros Hsync. unfold step, handle. rewrite Sink_set_volume_run.
  destruct (sink_objects st !! self) as [s|] eqn:Hs; [|exact Hsync].
  cbv zeta.
  match goal with
  | |- context [set_sink_objects (fun h => <[self := ?x]> h) st] =>
      pose proof (names_in_sync_write st self s x Hs eq_refl Hsync) as Hst
  end.
  destruct (cvolume_from_volume _ _); [|exact Hst].
  eapply names_in_sync_frame; [..|exact Hst]; reflexivity.
Qed.

Lemma new_sink_input_frame st index struct props :
  let st' := step (new_sink_input index struct props) st in
  _pa_sinks st' = _pa_sinks st /\
  _pa_sinks_by_name st' = _pa_sinks_by_name st /\
  sink_objects st' = sink_objects st.
Proof.
  unfold step, handle.
  destruct (py_in (PyStr (decode (sii_driver struct)))
              [PyStr "protocol-native.c"; PyStr "PipeWire"]) eqn:Hdrv.
  2:{ rewrite new_sink_input_rejected by (right; exact Hdrv). auto. }
  rewrite new_sink_input_accepted by exact Hdrv.
  destruct (_pa_sink_inputs st !! index) as [r|] eqn:Hget.
  - unfold SinkInput_update, read_sink_input, write_sink_input, idle_add.
    unfold_m. destruct (sink_input_objects st !! r); simpl; auto.
  - rewrite SinkInput_new_run. simpl. auto.
Qed.

(** Every event other than the removal of a held device keeps the name
    dictionary in step. *)
Lemma step_names_in_sync e st :
  wf st -> names_in_sync st -> keeps_names e st ->
  names_in_sync (step e st).
Proof.
  intros Hwf Hsync Hk. destruct e.
  - unfold step, handle, _on_new_pa_client, getitem. unfold_m. simpl.
    case_bool_decide; simpl.
    + rewrite lookup_insert_eq. simpl.
      eapply names_in_sync_frame; [..|exact Hsync]; reflexivity.
    + destruct (_pa_clients st !! index); simpl;
        [eapply names_in_sync_frame; [..|exact Hsync]; reflexivity
        |exact Hsync].
  - unfold step, handle, _on_remove_pa_client. unfold_m. simpl.
    case_bool_decide;
      [eapply names_in_sync_frame; [..|exact Hsync]; reflexivity|exact Hsync].
  - apply new_sink_names_in_sync; assumption.
  - simpl in Hk. unfold step, handle. rewrite remove_sink_run, Hk. exact Hsync.
  - destruct (new_sink_input_frame st index struct props) as [E1 [E2 E3]].
    eapply names_in_sync_frame; [exact E1|exact E2|exact E3|exact Hsync].
  - unfold step, handle, _on_remove_pa_sink_input, idle_add. unfold_m. simpl.
    case_bool_decide;
      [eapply names_in_sync_frame; [..|exact Hsync]; reflexivity|exact Hsync].
  - eapply names_in_sync_frame; [..|exact Hsync]; reflexivity.
  - unfold step, handle, set_main_volume, bind.
    pose proof (get_main_sink_state st) as Hst.
    destruct (get_main_sink st) as [st' [[r|]|e]]; simpl in Hst; subst st';
      try exact Hsync.
    apply (sink_volume_names_in_sync st r volume Hsync).
  - apply sink_volume_names_in_sync, Hsync.
  - unfold step, handle. rewrite SinkInput_set_volume_run.
    destruct (sink_input_objects st !! sink_input); [|exact Hsync].
    cbv zeta. destruct (cvolume_from_volume _ _); simpl;
      (eapply names_in_sync_frame; [..|exact Hsync]; reflexivity).
  - unfold step, handle, _on_stream_read, idle_add. unfold_m.
    destruct (peak_val data); [|exact Hsync].
    destruct _is_sink_input; simpl;
      (eapply names_in_sync_frame; [..|exact Hsync]; reflexivity).
Qed.

Lemma run_reachable es : forall st, reachable st -> reachable (run es st).
Proof.
  induction es as [|e es IH]; intros st Hr; [exact Hr|].
  apply IH, reachable_step, Hr.
Qed.

(** Along a run of such events the name dictionary holds exactly the live
    devices, each under its current internal name. *)
Lemma run_names_in_sync es : forall st,
  reachable st -> names_in_sync st -> keeps_names_run es st ->
  names_in_sync (run es st).
Proof.
  induction es as [|e es IH]; intros st Hr Hsync Hk; [exact Hsync|].
  destruct Hk as [Hk Hks]. simpl. apply IH.
  - apply reachable_step, Hr.
  - apply step_names_in_sync; [apply reachable_wf, Hr|exact Hsync|exact Hk].
  - exact Hks.
Qed.

(** Upserts alone keep the keys of [_pa_sinks] in insertion order: a new
    index goes last, a known index keeps its place. *)
Lemma new_sink_keys st index struct props :
  wf st ->
  od_keys (_pa_sinks (step (new_sink index struct props) st)) =
    if od_contains index (_pa_sinks st) then od_keys (_pa_sinks st)
    else od_keys (_pa_sinks st) ++ [index].
Proof.
  intros Hwf. unfold step, handle, od_contains.
  destruct (od_get index (_pa_sinks st)) as [r|] eqn:Hget.
  - destruct (wf_sinks st Hwf index r (od_get_In _ _ _ Hget)) as [s [Hs Hi]].
    rewrite (new_sink_known st index struct props r s Hget Hs).
    destruct (_pa_sinks_by_name st !! Sink._sink_name s); reflexivity.
  - rewrite (new_sink_fresh st index struct props Hget). simpl.
    rewrite od_keys_set. unfold od_contains. rewrite Hget. reflexivity.
Qed.

(** Discharges [keeps_names] for an upsert on a computed state. *)
Ltac keeps_names_by_computation :=
  let j := fresh "j" in
  let s := fresh "s" in
  let r := fresh "r" in
  let Hg := fresh "Hg" in
  let Ho := fresh "Ho" in
  intros j s [r [Hg Ho]] _; apply od_get_In in Hg; vm_compute in Hg;
  repeat (destruct Hg as [Hg|Hg]); try contradiction;
  injection Hg as <- <-; vm_compute in Ho; injection Ho as <-;
  vm_compute; discriminate.

Lemma three_sinks_in_sync :
  names_in_sync (run three_sinks init) /\
  names_in_sync (run (three_sinks ++ [default_sink (Some "hdmi")]) init) /\
  names_in_sync (run (three_sinks ++ [default_sink (Some "usb")]) init).
Proof.
  repeat split;
    (apply run_names_in_sync;
     [apply reachable_init|apply names_in_sync_init|]);
    cbn [three_sinks app keeps_names_run keeps_names];
    repeat split; keeps_names_by_computation.
Qed.

Lemma get_main_sink_resolution_witness :
  let st := run three_sinks init in
  let st_hdmi := run (three_sinks ++ [default_sink (Some "hdmi")]) init in
  let st_usb := run (three_sinks ++ [default_sink (Some "usb")]) init in
  (names_in_sync st /\ main_sink_idx st = (st, Ok (Some 5))) /\
  (names_in_sync st_hdmi /\ main_sink_idx st_hdmi = (st_hdmi, Ok (Some 9))) /\
  (names_in_sync st_usb /\ get_main_sink st_usb = (st_usb, Raise KeyError)).
Proof.
  intros st st_hdmi st_usb.
  destruct three_sinks_in_sync as [H1 [H2 H3]].
  split; [|split]; (split; [assumption|]).
  - unfold main_sink_idx.
    erewrite bind_Ok.
    2:{ apply (proj1 (get_main_sink_resolution st H1) eq_refl
                 5 0%nat [(2, 1%nat); (9, 2%nat)]).
        reflexivity. }
    reflexivity.
  - unfold main_sink_idx.
    erewrite bind_Ok.
    2:{ refine (proj1 (proj2 (get_main_sink_resolution st_hdmi H2) "hdmi"
                         eq_refl) 9 2%nat _ _ _ _); reflexivity. }
    reflexivity.
  - apply (proj2 (proj2 (get_main_sink_resolution st_usb H3) "usb" eq_refl)).
    intros j s [r [Hg Ho]]. apply od_get_In in Hg. vm_compute in Hg.
    repeat (destruct Hg as [Hg|Hg]); try contradiction;
      injection Hg as <- <-; vm_compute in Ho; injection Ho as <-;
      vm_compute; discriminate.
Defined.

(** ** Removal *)

(** The removal of a held device, in any state of a run: the entry of
    [_pa_sinks] goes, [AttributeError] is raised, and the name dictionary,
    left as it was, no longer mirrors the live devices. *)
Lemma remove_sink_breaks_sync st index r :
  wf st -> names_in_sync st -> od_get index (_pa_sinks st) = Some r ->
  snd (_on_remove_pa_sink index st) = Raise AttributeError /\
  _pa_sinks_by_name (step (remove_sink index) st) = _pa_sinks_by_name st /\
  ~ names_in_sync (step (remove_sink index) st).
Proof.
  intros Hwf Hsync Hget. unfold step, handle. rewrite remove_sink_run, Hget.
  split; [reflexivity|]. split; [reflexivity|]. simpl. intros Hsync'.
  destruct (wf_sinks st Hwf index r (od_get_In _ _ _ Hget)) as [s [Hs Hi]].
  assert (Hl : _pa_sinks_by_name st !! Sink._sink_name s = Some r).
  { apply Hsync. exists index, s. auto. }
  apply Hsync' in Hl. simpl in Hl. destruct Hl as [i [s' [Hgi [Hs' _]]]].
  pose proof (od_get_In _ _ _ Hgi) as Hin. apply od_remove_In in Hin.
  destruct (wf_sinks st Hwf i r Hin) as [s0 [Hs0 Hi0]].
  assert (i = index) by congruence. subst i.
  pose proof (od_get_remove_eq index (_pa_sinks st) (wf_keys st Hwf)) as Hn.
  unfold set_pa_sinks in Hgi. simpl in Hgi. congruence.
Qed.

Lemma od_get_remove_ne {V : Type} (k k0 : Z) (d : odict V) :
  k <> k0 -> od_get k (od_remove k0 d) = od_get k d.
Proof.
  intros Hne. induction d as [|[k' v'] d IH]; simpl; [reflexivity|].
  destruct (Z.eqb_spec k0 k') as [->|H0]; simpl.
  - destruct (Z.eqb_spec k k'); [contradiction|reflexivity].
  - destruct (Z.eqb_spec k k'); [reflexivity|exact IH].
Qed.

(** C5: the marker of a removed device still resolves.  When the device
    that the marker names is removed, no live device has the name of the
    marker any more, yet [get_main_sink] raises nothing: it returns the
    object of the removed device, which [_on_remove_pa_sink] has left in
    the name dictionary. *)
Theorem get_main_sink_stale_marker (st : state) (index : Z) (r : ref)
  (s : Sink.t) :
  reachable st -> names_in_sync st ->
  od_get index (_pa_sinks st) = Some r -> sink_objects st !! r = Some s ->
  _default_sink st = Some (Sink._sink_name s) ->
  let st' := step (remove_sink index) st in
  reachable st' /\
  _default_sink st' = Some (Sink._sink_name s) /\
  od_get index (_pa_sinks st') = None /\
  (forall i s', live st' i s' -> Sink._sink_name s' <> Sink._sink_name s) /\
  get_main_sink st' = (st', Ok (Some r)).
Proof.
  intros Hreach Hsync Hget Hs Hd st'.
  pose proof (reachable_wf st Hreach) as Hwf.
  split; [apply reachable_step, Hreach|].
  assert (Est : st' = set_pa_sinks (od_remove index) st).
  { subst st'. unfold step, handle. rewrite remove_sink_run, Hget.
    reflexivity. }
  rewrite Est. clear Est st'.
  assert (Hl : _pa_sinks_by_name st !! Sink._sink_name s = Some r).
  { apply Hsync. exists index, s. auto. }
  split; [exact Hd|].
  split; [apply od_get_remove_eq, (wf_keys st Hwf)|]. split.
  - intros i s' [r' [Hgi Hs']] Hname. simpl in Hgi, Hs'.
    destruct (decide (i = index)) as [->|Hne].
    + rewrite od_get_remove_eq in Hgi by apply (wf_keys st Hwf).
      discriminate.
    + rewrite od_get_remove_ne in Hgi by exact Hne.
      assert (Hl' : _pa_sinks_by_name st !! Sink._sink_name s' = Some r').
      { apply Hsync. exists i, s'. auto. }
      rewrite Hname, Hl in Hl'. injection Hl' as <-.
      apply Hne. eapply wf_sinks_inj; eassumption.
  - unfold get_main_sink, getitem. unfold_m. simpl. rewrite Hd. simpl.
    rewrite Hl. reflexivity.
Qed.

Lemma get_main_sink_stale_marker_witness :
  let st := run [new_sink 1 (sink_info "analog" 50) no_props;
                 default_sink (Some "analog")] init in
  let st' := step (remove_sink 1) st in
  _pa_sinks st' = [] /\
  reachable st' /\
  _default_sink st' = Some "analog" /\
  od_get 1 (_pa_sinks st') = None /\
  (forall i s', live st' i s' -> Sink._sink_name s' <> "analog") /\
  get_main_sink st' = (st', Ok (Some 0%nat)).
Proof.
  intros st st'.
  assert (R : reachable st) by apply run_reachable, reachable_init.
  assert (Hsync : names_in_sync st).
  { apply run_names_in_sync;
      [apply reachable_init|apply names_in_sync_init|].
    cbn [keeps_names_run keeps_names].
    repeat split; keeps_names_by_computation. }
  split; [vm_compute; reflexivity|].
  exact (get_main_sink_stale_marker st 1 0%nat
           {| Sink.idx := 1; Sink.volume := 50; Sink.channels := 2;
              Sink.mute := false; Sink._icon_name := Some "audio-card";
              Sink._name := "analog"; Sink._sink_name := "analog" |}
           R Hsync eq_refl eq_refl eq_refl).
Defined.

Lemma remove_unknown_client st index :
  _pa_clients st !! index = None ->
  _on_remove_pa_client index st = (st, Ok tt).
Proof.
  intros H. unfold _on_remove_pa_client. unfold_m. simpl.
  rewrite H. reflexivity.
Qed.

Lemma remove_unknown_sink_input st index :
  _pa_sink_inputs st !! index = None ->
  _on_remove_pa_sink_input index st = (st, Ok tt).
Proof.
  intros H. unfold _on_remove_pa_sink_input. unfold_m. simpl.
  rewrite H. reflexivity.
Qed.

(** C3 on the code: removing an index that is not held changes nothing for
    a client and for a stream, and raises [KeyError], with nothing changed
    either, for a device. *)
Theorem remove_unknown_index (st : state) (index : Z) :
  _pa_clients st !! index = None ->
  od_get index (_pa_sinks st) = None ->
  _pa_sink_inputs st !! index = None ->
  _on_remove_pa_client index st = (st, Ok tt) /\
  _on_remove_pa_sink_input index st = (st, Ok tt) /\
  _on_remove_pa_sink index st = (st, Raise KeyError).
Proof.
  intros Hc Hs Hi. split; [|split].
  - apply remove_unknown_client, Hc.
  - apply remove_unknown_sink_input, Hi.
  - rewrite remove_sink_run, Hs. reflexivity.
Qed.

Lemma remove_unknown_index_witness :
  _on_remove_pa_client 7 init = (init, Ok tt) /\
  _on_remove_pa_sink_input 7 init = (init, Ok tt) /\
  _on_remove_pa_sink 7 init = (init, Raise KeyError).
Proof. apply (remove_unknown_index init 7); reflexivity. Defined.

(** C2 on the code: the removal of a held device pops it from [_pa_sinks]
    and then raises [AttributeError]; its name stays in
    [_pa_sinks_by_name], which no longer mirrors the live devices, and
    with the marker on that name the removed object is still resolved as
    the main device. *)
Theorem remove_sink_leaves_stale_name :
  let st := run [new_sink 1 (sink_info "analog" 50) no_props;
                 default_sink (Some "analog")] init in
  let st' := step (remove_sink 1) st in
  names_in_sync st /\
  snd (_on_remove_pa_sink 1 st) = Raise AttributeError /\
  _pa_sinks st' = [] /\
  _pa_sinks_by_name st' !! "analog" = Some 0%nat /\
  idle_queue st' = idle_queue st /\
  ~ names_in_sync st' /\
  get_main_sink st' = (st', Ok (Some 0%nat)).
Proof.
  intros st st'. split; [|repeat split].
  - apply run_names_in_sync;
      [apply reachable_init|apply names_in_sync_init|].
    cbn [keeps_names_run keeps_names]. repeat split.
    intros j s [r [Hg _]]. discriminate Hg.
  - intros Hsync.
    destruct (proj1 (Hsync "analog" 0%nat) eq_refl) as [i [s [Hg _]]].
    discriminate Hg.
Qed.

(** ** Stream admission *)

(** The driver test of [_on_new_pa_sink_input]: a stream whose driver is
    neither accepted one is dropped, on every arrival. *)
Lemma new_sink_input_driver_rejected st index struct props :
  decode (sii_driver struct) <> "protocol-native.c" ->
  decode (sii_driver struct) <> "PipeWire" ->
  step (new_sink_input index struct props) st = st.
Proof.
  intros H1 H2. unfold step, handle.
  rewrite new_sink_input_rejected; [reflexivity|]. right. simpl.
  destruct (String.eqb_spec (decode (sii_driver struct)) "protocol-native.c");
    [contradiction|].
  destruct (String.eqb_spec (decode (sii_driver struct)) "PipeWire");
    [contradiction|]. reflexivity.
Qed.

(** The name test compares a [bytes] with a [str] and never holds. *)
Lemma feedback_name_test (name : bytes) :
  py_eq (PyBytes name) (PyStr "audio-volume-change") = false.
Proof. reflexivity. Qed.

(** C4 on the code: a stream named [audio-volume-change] that comes from
    an accepted driver is admitted; on its first arrival a [SinkInput] is
    stored under its index and two notifications are queued. *)
Theorem feedback_stream_accepted (st : state) (index : Z)
  (struct : pa_sink_input_info) (props : proplist) :
  sii_name struct = "audio-volume-change" ->
  sii_driver struct = "protocol-native.c" ->
  _pa_sink_inputs st !! index = None ->
  let st' := step (new_sink_input index struct props) st in
  _pa_sink_inputs st' !! index = Some (length (sink_input_objects st)) /\
  idle_queue st' =
    idle_queue st ++
      [update_sink_input_scale index (array_head (cv_values (sii_volume struct)))
         (py_bool (sii_mute struct));
       slider_count_changed].
Proof.
  intros Hname Hdrv Hget. unfold step, handle.
  rewrite new_sink_input_accepted by (rewrite Hdrv; reflexivity).
  rewrite Hget, SinkInput_new_run. simpl. split.
  - apply lookup_insert_eq.
  - rewrite <- app_assoc. reflexivity.
Qed.

Lemma feedback_stream_accepted_witness :
  let st' :=
    step (new_sink_input 1
            (sink_input_info "audio-volume-change" "protocol-native.c")
            no_props) init in
  _pa_sink_inputs st' !! 1 = Some 0%nat /\
  idle_queue st' = [update_sink_input_scale 1 65536 false; slider_count_changed].
Proof.
  apply (feedback_stream_accepted init 1
           (sink_input_info "audio-volume-change" "protocol-native.c")
           no_props); reflexivity.
Defined.

(** ** Presentation of a stream *)

(** C8 on the code: in every state a run reaches, the [name] of a stream
    is the formatted pair of its application and media properties, absent
    ones printed as [None], and its [icon_name] is the icon of its own
    properties; the owning client is never looked up. *)
Theorem sink_input_name_ignores_client (st : state) (self : ref)
  (s : SinkInput.t) :
  reachable st -> sink_input_objects st !! self = Some s ->
  exists app_name media_name icon_name,
    SinkInput.app_name s = Some app_name /\
    SinkInput.media_name s = Some media_name /\
    SinkInput._icon_name s = Some icon_name /\
    SinkInput_name self st =
      (st, Ok (Some (String.append (py_format app_name)
                       (String.append ": " (py_format media_name))))) /\
    SinkInput_icon_name self st = (st, Ok icon_name).
Proof.
  intros Hreach Hs.
  assert (Hb : bound s).
  { eapply Forall_lookup_1; [apply (wf_bound st (reachable_wf st Hreach))|].
    exact Hs. }
  destruct Hb as [[icon Hi] [_ [[app Ha] [media Hm]]]].
  exists app, media, icon. repeat split; try assumption.
  - unfold SinkInput_name, read_sink_input. unfold_m. rewrite Hs, Ha, Hm.
    reflexivity.
  - unfold SinkInput_icon_name, read_sink_input. unfold_m. rewrite Hs, Hi.
    reflexivity.
Qed.

Lemma sink_input_name_ignores_client_witness :
  let st := run firefox_and_stream init in
  (exists c, _pa_clients st !! 4 = Some c /\ Client.name c = "Firefox" /\
             Client.icon_name c = Some "firefox") /\
  SinkInput_name 0%nat st = (st, Ok (Some "None: None")) /\
  SinkInput_icon_name 0%nat st = (st, Ok None).
Proof.
  intros st. split.
  - eexists. split; [vm_compute; reflexivity|]. split; reflexivity.
  - assert (Hreach : reachable st).
    { unfold st, run, firefox_and_stream. simpl.
      do 2 apply reachable_step. apply reachable_init. }
    destruct (sink_input_name_ignores_client st 0%nat
                (SinkInput_updated
                   (SinkInput_base_init 1
                      (sink_input_info "Playback" "protocol-native.c"))
                   (sink_input_info "Playback" "protocol-native.c") no_props)
                Hreach eq_refl)
      as [app [media [icon [Ha [Hm [Hi [Hn Hic]]]]]]].
    injection Ha as <-. injection Hm as <-. injection Hi as <-.
    split; [exact Hn|exact Hic].
Defined.

(** * Further properties of the module *)

(** ** Volume expansion and volume commands *)

(** X1: [cvolume_from_volume] never rejects its arguments while the
    channel count is at most 32: the volume is stored modulo 2^32, the
    declared count is the count modulo 256, the vector has 32 slots, and a
    count of zero or less writes no slot. *)
Theorem cvolume_from_volume_wraps (volume channels : Z) :
  channels <= 32 ->
  exists cvolume,
    cvolume_from_volume volume channels = Ok cvolume /\
    cv_channels cvolume = channels mod 256 /\
    length (cv_values cvolume) = 32%nat /\
    (forall i, (i < Z.to_nat channels)%nat ->
       cv_values cvolume !! i = Some (volume mod 2 ^ 32)) /\
    (forall i, (Z.to_nat channels <= i < 32)%nat ->
       cv_values cvolume !! i = Some 0).
Proof.
  intros Hc. eexists. split; [apply cvolume_from_volume_inside, Hc|].
  simpl. split; [reflexivity|]. split; [|split].
  - rewrite length_app, !length_replicate. lia.
  - intros i Hi. rewrite lookup_app_l by (rewrite length_replicate; lia).
    apply lookup_replicate_2, Hi.
  - intros i Hi. rewrite lookup_app_r by (rewrite length_replicate; lia).
    rewrite length_replicate. apply lookup_replicate_2. lia.
Qed.

Lemma cvolume_from_volume_wraps_witness :
  exists cvolume,
    cvolume_from_volume (2 ^ 32 + 5) (-1) = Ok cvolume /\
    cv_channels cvolume = 255 /\
    length (cv_values cvolume) = 32%nat /\
    (forall i, (i < 0)%nat -> cv_values cvolume !! i = Some 5) /\
    (forall i, (0 <= i < 32)%nat -> cv_values cvolume !! i = Some 0).
Proof.
  assert (H : -1 <= 32) by lia.
  exact (cvolume_from_volume_wraps (2 ^ 32 + 5) (-1) H).
Defined.

(** X2: on a device that holds more than 32 channels [Sink.set_volume]
    raises [IndexError] and sends nothing, yet the volume cached in the
    object has already been replaced. *)
Theorem Sink_set_volume_too_wide (st : state) (self : ref) (s : Sink.t)
  (volume : Z) :
  sink_objects st !! self = Some s -> 32 < Sink.channels s ->
  exists st',
    Sink_set_volume self volume st = (st', Raise IndexError) /\
    requests st' = requests st /\
    idle_queue st' = idle_queue st /\
    (exists s', sink_objects st' !! self = Some s' /\
       Sink.volume s' = volume /\ Sink.channels s' = Sink.channels s /\
       Sink.idx s' = Sink.idx s /\ Sink._sink_name s' = Sink._sink_name s).
Proof.
  intros Hs Hc. rewrite Sink_set_volume_run, Hs. cbv zeta.
  rewrite cvolume_from_volume_outside by exact Hc.
  eexists. split; [reflexivity|]. simpl. repeat split.
  eexists. split.
  - apply list_lookup_insert_eq. eapply lookup_lt_Some, Hs.
  - repeat split.
Qed.

Lemma Sink_set_volume_too_wide_witness :
  let st := step (new_sink 3 wide_sink_info no_props) init in
  exists st',
    Sink_set_volume 0%nat 70 st = (st', Raise IndexError) /\
    requests st' = [] /\
    idle_queue st' = idle_queue st /\
    (exists s', sink_objects st' !! 0%nat = Some s' /\
       Sink.volume s' = 70 /\ Sink.channels s' = 33 /\
       Sink.idx s' = 3 /\ Sink._sink_name s' = "wide").
Proof.
  intros st.
  refine (Sink_set_volume_too_wide st 0%nat _ 70 eq_refl _).
  simpl. lia.
Defined.

(** X3: [set_main_volume] fails without sending anything or changing the
    state when there is no main device: with no marker and no device the
    call on [None] raises [AttributeError]; with a marker that names no
    entry of the name dictionary the lookup raises [KeyError]. *)
Theorem set_main_volume_no_device (st : state) (volume : Z) :
  match _default_sink st with
  | None => _pa_sinks st = []
  | Some name => _pa_sinks_by_name st !! name = None
  end ->
  set_main_volume volume st =
    (st, Raise match _default_sink st with
               | None => AttributeError
               | Some _ => KeyError
               end).
Proof.
  intros H.
  unfold set_main_volume, get_main_sink, get_first_sink, list_getitem,
    getitem.
  unfold_m. simpl. destruct (_default_sink st) as [name|]; rewrite H;
    reflexivity.
Qed.

Lemma set_main_volume_no_device_witness :
  let st := run (three_sinks ++ [default_sink (Some "usb")]) init in
  set_main_volume 70 init = (init, Raise AttributeError) /\
  set_main_volume 70 st = (st, Raise KeyError).
Proof.
  intros st. split.
  - apply (set_main_volume_no_device init 70). reflexivity.
  - apply (set_main_volume_no_device st 70). reflexivity.
Defined.

(** X4: when [get_main_sink] resolves to a device of at most 32 channels,
    [set_main_volume] caches the volume in that device and sends exactly
    one request, for the index of that device, with one slot per channel
    of that device. *)
Theorem set_main_volume_dispatch (st : state) (r : ref) (s : Sink.t)
  (volume : Z) :
  get_main_sink st = (st, Ok (Some r)) ->
  sink_objects st !! r = Some s ->
  0 <= Sink.channels s <= 32 -> 0 <= volume < 2 ^ 32 ->
  exists st',
    set_main_volume volume st = (st', Ok tt) /\
    requests st' = requests st ++
      [pa_context_set_sink_volume_by_index (Sink.idx s)
         (cvolume_of (Sink.channels s) volume)] /\
    (exists s', sink_objects st' !! r = Some s' /\ Sink.volume s' = volume) /\
    _pa_sinks st' = _pa_sinks st /\
    _pa_sinks_by_name st' = _pa_sinks_by_name st /\
    idle_queue st' = idle_queue st.
Proof.
  intros Hmain Hs Hc Hv. unfold set_main_volume.
  erewrite bind_Ok; [|exact Hmain]. cbv beta iota.
  rewrite Sink_set_volume_run, Hs. cbv zeta.
  rewrite cvolume_from_volume_inside by lia.
  rewrite pa_volume_t_id by exact Hv.
  unfold c_uint8. rewrite Z.mod_small by lia.
  eexists. split; [reflexivity|]. simpl. split; [reflexivity|].
  split; [|repeat split].
  eexists.
  split; [apply list_lookup_insert_eq; eapply lookup_lt_Some, Hs|].
  reflexivity.
Qed.

Lemma set_main_volume_dispatch_witness :
  let st := run (three_sinks ++ [default_sink (Some "hdmi")]) init in
  exists st',
    set_main_volume 70 st = (st', Ok tt) /\
    requests st' =
      [pa_context_set_sink_volume_by_index 9 (cvolume_of 2 70)] /\
    (exists s', sink_objects st' !! 2%nat = Some s' /\ Sink.volume s' = 70) /\
    _pa_sinks st' = _pa_sinks st /\
    _pa_sinks_by_name st' = _pa_sinks_by_name st /\
    idle_queue st' = idle_queue st.
Proof.
  intros st.
  assert (Hc : 0 <= 2 <= 32) by lia.
  assert (Hv : 0 <= 70 < 2 ^ 32) by lia.
  exact (set_main_volume_dispatch st 2%nat _ 70 eq_refl eq_refl Hc Hv).
Defined.

(** ** Removal of a device *)

(** X5: [_on_remove_pa_sink] never returns normally.  Whatever the state
    and the index, it raises [KeyError] or [AttributeError], it queues no
    notification and it leaves the name dictionary and the objects as they
    were. *)
Theorem remove_sink_always_raises (st : state) (index : Z) :
  exists st' e,
    _on_remove_pa_sink index st = (st', Raise e) /\
    (e = KeyError \/ e = AttributeError) /\
    idle_queue st' = idle_queue st /\
    _pa_sinks_by_name st' = _pa_sinks_by_name st /\
    sink_objects st' = sink_objects st.
Proof.
  rewrite remove_sink_run.
  destruct (od_get index (_pa_sinks st)); do 2 eexists;
    (split; [reflexivity|]); simpl; auto.
Qed.

(** ** Peak level *)

(** The two outcomes of [_on_stream_read]. *)
Lemma on_stream_read_run (st : state) (_is_sink_input : bool)
  (idx : Z) (data : list byte) :
  _on_stream_read _is_sink_input idx [] st = (st, Raise ZeroDivisionError) /\
  (data <> [] ->
   exists val,
     peak_val data = Ok val /\
     _on_stream_read _is_sink_input idx data st =
       (set_idle_queue
          (fun q => q ++ [if _is_sink_input
                          then update_sink_input_peak idx val
                          else update_sink_peak idx val]) st,
        Ok tt)).
Proof.
  split; [reflexivity|]. intros Hne.
  eexists. split; [apply peak_val_nonempty, Hne|].
  unfold _on_stream_read. erewrite bind_Ok.
  2:{ unfold lift. rewrite (peak_val_nonempty data Hne). reflexivity. }
  destruct _is_sink_input; reflexivity.
Qed.

(** X7: the level does not depend on the order of the samples in the
    block. *)
Theorem peak_val_permutation (data data' : list byte) :
  Permutation data data' -> peak_val data = peak_val data'.
Proof.
  intros Hp. unfold peak_val.
  rewrite (Permutation_length Hp).
  replace (deviation_sum data') with (deviation_sum data); [reflexivity|].
  induction Hp as [|b l l' _ IH|a b l|l l' l'' _ IH1 _ IH2].
  - reflexivity.
  - rewrite !deviation_sum_cons, IH. reflexivity.
  - rewrite !deviation_sum_cons. lia.
  - congruence.
Qed.

Lemma peak_val_permutation_witness :
  peak_val [x80; xff; x90] = peak_val [xff; x90; x80].
Proof.
  apply peak_val_permutation.
  apply (Permutation_cons_append [xff; x90] x80).
Defined.

(** X6: the peak call names the object as the manager knows it.  In every
    state a run reaches, the read callback of the device held under an
    index of [_pa_sinks] queues, for a block that is not empty, exactly one
    "device peak" with that index, and the read callback of the stream
    held under an index of [_pa_sink_inputs] exactly one "stream peak" with
    that index; on an empty block both raise [ZeroDivisionError] and queue
    nothing. *)
Theorem stream_read_reports_held_index (st : state) (index : Z)
  (data : list byte) :
  reachable st ->
  (forall r, od_get index (_pa_sinks st) = Some r ->
     Sink_on_stream_read r [] st = (st, Raise ZeroDivisionError) /\
     (data <> [] ->
      exists val,
        peak_val data = Ok val /\
        Sink_on_stream_read r data st =
          (set_idle_queue (fun q => q ++ [update_sink_peak index val]) st,
           Ok tt))) /\
  (forall r, _pa_sink_inputs st !! index = Some r ->
     SinkInput_on_stream_read r [] st = (st, Raise ZeroDivisionError) /\
     (data <> [] ->
      exists val,
        peak_val data = Ok val /\
        SinkInput_on_stream_read r data st =
          (set_idle_queue
             (fun q => q ++ [update_sink_input_peak index val]) st,
           Ok tt))).
Proof.
  intros Hreach. pose proof (reachable_wf st Hreach) as Hwf. split.
  - intros r Hget.
    destruct (wf_sinks st Hwf index r (od_get_In _ _ _ Hget)) as [s [Hs Hi]].
    assert (Hrun : forall d,
      Sink_on_stream_read r d st = _on_stream_read false index d st).
    { intros d. unfold Sink_on_stream_read.
      erewrite bind_Ok; [|unfold read_sink; rewrite Hs; reflexivity].
      rewrite Hi. reflexivity. }
    rewrite !Hrun.
    destruct (on_stream_read_run st false index data) as [H0 H1].
    split; [exact H0|exact H1].
  - intros r Hget.
    destruct (wf_sink_inputs st Hwf index r Hget) as [s [Hs Hi]].
    assert (Hrun : forall d,
      SinkInput_on_stream_read r d st = _on_stream_read true index d st).
    { intros d. unfold SinkInput_on_stream_read.
      erewrite bind_Ok; [|unfold read_sink_input; rewrite Hs; reflexivity].
      rewrite Hi. reflexivity. }
    rewrite !Hrun.
    destruct (on_stream_read_run st true index data) as [H0 H1].
    split; [exact H0|exact H1].
Qed.

Lemma stream_read_reports_held_index_witness :
  let st := run sink_and_stream init in
  (exists val,
     peak_val [x80; xff] = Ok val /\
     Sink_on_stream_read 0 [x80; xff] st =
       (set_idle_queue (fun q => q ++ [update_sink_peak 3 val]) st, Ok tt)) /\
  (exists val,
     peak_val [x80; xff] = Ok val /\
     SinkInput_on_stream_read 0 [x80; xff] st =
       (set_idle_queue (fun q => q ++ [update_sink_input_peak 1 val]) st,
        Ok tt)) /\
  SinkInput_on_stream_read 0 [] st = (st, Raise ZeroDivisionError).
Proof.
  intros st.
  assert (R : reachable st) by apply run_reachable, reachable_init.
  destruct (stream_read_reports_held_index st 3 [x80; xff] R) as [Hsink _].
  destruct (stream_read_reports_held_index st 1 [x80; xff] R) as [_ Hinput].
  destruct (Hsink 0%nat eq_refl) as [_ H3].
  destruct (Hinput 0%nat eq_refl) as [H0 H1].
  split; [apply H3; discriminate|].
  split; [apply H1; discriminate|exact H0].
Defined.

(** ** Devices across a run *)

(** X8: in every state a run reaches, [_pa_sinks] has one entry per index
    and the object stored under an index is a bound object whose [idx] is
    that index; the same holds for the streams of [_pa_sink_inputs]. *)
Theorem reachable_index_of_object (st : state) :
  reachable st ->
  NoDup (od_keys (_pa_sinks st)) /\
  (forall i r, od_get i (_pa_sinks st) = Some r ->
     exists s, sink_objects st !! r = Some s /\ Sink.idx s = i) /\
  (forall i r, _pa_sink_inputs st !! i = Some r ->
     exists s, sink_input_objects st !! r = Some s /\ SinkInput.idx s = i).
Proof.
  intros Hreach. pose proof (reachable_wf st Hreach) as Hwf.
  split; [apply (wf_keys st Hwf)|]. split.
  - intros i r Hget. apply (wf_sinks st Hwf), od_get_In, Hget.
  - apply (wf_sink_inputs st Hwf).
Qed.

Lemma reachable_index_of_object_witness :
  let st := run three_sinks init in
  NoDup (od_keys (_pa_sinks st)) /\
  (forall i r, od_get i (_pa_sinks st) = Some r ->
     exists s, sink_objects st !! r = Some s /\ Sink.idx s = i) /\
  (forall i r, _pa_sink_inputs st !! i = Some r ->
     exists s, sink_input_objects st !! r = Some s /\ SinkInput.idx s = i).
Proof.
  intros st. apply (reachable_index_of_object st).
  apply run_reachable, reachable_init.
Defined.

(** X9: the upsert of a held index updates the object in place: [_pa_sinks]
    keeps the same reference at the same place, no object is created, the
    object keeps its [idx] and takes volume, channel count, mute flag,
    description and internal name from the payload. *)
Theorem new_sink_keeps_identity (st : state) (index : Z) (r : ref)
  (struct : pa_sink_info) (props : proplist) :
  reachable st -> od_get index (_pa_sinks st) = Some r ->
  let st' := step (new_sink index struct props) st in
  _pa_sinks st' = _pa_sinks st /\
  length (sink_objects st') = length (sink_objects st) /\
  exists s',
    sink_objects st' !! r = Some s' /\
    Sink.idx s' = index /\
    Sink.volume s' = array_head (cv_values (si_volume struct)) /\
    Sink.channels s' = cv_channels (si_volume struct) /\
    Sink.mute s' = py_bool (si_mute struct) /\
    Sink._name s' = decode (si_description struct) /\
    Sink._sink_name s' = si_name struct.
Proof.
  intros Hreach Hget st'. subst st'. unfold step, handle.
  pose proof (reachable_wf st Hreach) as Hwf.
  destruct (wf_sinks st Hwf index r (od_get_In _ _ _ Hget)) as [s [Hs Hi]].
  rewrite (new_sink_known st index struct props r s Hget Hs).
  assert (Hr : (r < length (sink_objects st))%nat)
    by (eapply lookup_lt_Some, Hs).
  destruct (_pa_sinks_by_name st !! Sink._sink_name s); simpl;
    (split; [reflexivity|]); (split; [apply length_insert|]);
    (eexists; split; [apply list_lookup_insert_eq, Hr|]);
    simpl; rewrite Hi; repeat split.
Qed.

Lemma new_sink_keeps_identity_witness :
  let st := run three_sinks init in
  let st' := step (new_sink 2 (sink_info "headset.2" 70) no_props) st in
  _pa_sinks st' = [(5, 0%nat); (2, 1%nat); (9, 2%nat)] /\
  length (sink_objects st') = 3%nat /\
  exists s',
    sink_objects st' !! 1%nat = Some s' /\
    Sink.idx s' = 2 /\ Sink.volume s' = 70 /\ Sink.channels s' = 2 /\
    Sink.mute s' = false /\ Sink._name s' = "headset.2" /\
    Sink._sink_name s' = "headset.2".
Proof.
  intros st.
  assert (Hreach : reachable st) by apply run_reachable, reachable_init.
  exact (new_sink_keeps_identity st 2 1%nat (sink_info "headset.2" 70)
           no_props Hreach eq_refl).
Defined.

(** X10: upserts add keys to [_pa_sinks] at the end and never move one, so
    with no marker the main device, once there is one, is not changed by
    any later upsert. *)
Theorem new_sink_keeps_first (st : state) (r : ref) (index : Z)
  (struct : pa_sink_info) (props : proplist) :
  reachable st -> _default_sink st = None ->
  get_main_sink st = (st, Ok (Some r)) ->
  let st' := step (new_sink index struct props) st in
  od_keys (_pa_sinks st') =
    (if od_contains index (_pa_sinks st) then od_keys (_pa_sinks st)
     else od_keys (_pa_sinks st) ++ [index]) /\
  get_main_sink st' = (st', Ok (Some r)).
Proof.
  intros Hreach Hd Hmain st'. subst st'.
  pose proof (reachable_wf st Hreach) as Hwf.
  split; [apply new_sink_keys, Hwf|].
  destruct (_pa_sinks st) as [|[i r0] rest] eqn:Hsinks.
  { unfold get_main_sink, get_first_sink, list_getitem in Hmain.
    unfold_m. simpl in Hmain. rewrite Hd, Hsinks in Hmain. discriminate. }
  assert (Hr : r0 = r).
  { unfold get_main_sink in Hmain. unfold_m. simpl in Hmain.
    rewrite Hd in Hmain.
    rewrite (get_first_sink_head st i r0 rest Hsinks) in Hmain. congruence. }
  subst r0.
  assert (Hhead : exists rest',
             _pa_sinks (step (new_sink index struct props) st)
             = (i, r) :: rest').
  { unfold step, handle.
    destruct (od_get index (_pa_sinks st)) as [r1|] eqn:Hget.
    - destruct (wf_sinks st Hwf index r1 (od_get_In _ _ _ Hget))
        as [s [Hs Hi]].
      rewrite (new_sink_known st index struct props r1 s Hget Hs).
      exists rest.
      destruct (_pa_sinks_by_name st !! Sink._sink_name s); exact Hsinks.
    - rewrite (new_sink_fresh st index struct props Hget). simpl.
      rewrite Hsinks in *. simpl in *.
      destruct (Z.eqb_spec index i) as [->|Hne]; [discriminate|].
      eexists. reflexivity. }
  destruct Hhead as [rest' Hhead].
  assert (Hd' : _default_sink (step (new_sink index struct props) st) = None).
  { unfold step, handle.
    destruct (od_get index (_pa_sinks st)) as [r1|] eqn:Hget.
    - destruct (wf_sinks st Hwf index r1 (od_get_In _ _ _ Hget))
        as [s [Hs Hi]].
      rewrite (new_sink_known st index struct props r1 s Hget Hs).
      destruct (_pa_sinks_by_name st !! Sink._sink_name s); exact Hd.
    - rewrite (new_sink_fresh st index struct props Hget). exact Hd. }
  unfold get_main_sink. unfold_m. simpl. rewrite Hd'.
  apply (get_first_sink_head _ i r rest' Hhead).
Qed.

Lemma new_sink_keeps_first_witness :
  let st := run three_sinks init in
  let st' := step (new_sink 1 (sink_info "usb" 50) no_props) st in
  od_keys (_pa_sinks st') = [5; 2; 9; 1] /\
  get_main_sink st' = (st', Ok (Some 0%nat)).
Proof.
  intros st.
  assert (Hreach : reachable st) by apply run_reachable, reachable_init.
  exact (new_sink_keeps_first st 0%nat 1 (sink_info "usb" 50) no_props
           Hreach eq_refl eq_refl).
Defined.

(** ** The name dictionary *)

(** X11: along a run in which no upsert gives a device the internal name
    of another live device and no held device is removed, a name is in
    [_pa_sinks_by_name] exactly when a live device carries it, and it maps
    to the object of that device. *)
Theorem name_map_exact_along_run (es : list event) (st : state) :
  reachable st -> names_in_sync st -> keeps_names_run es st ->
  forall n r,
    _pa_sinks_by_name (run es st) !! n = Some r <->
    exists i s, od_get i (_pa_sinks (run es st)) = Some r /\
                sink_objects (run es st) !! r = Some s /\
                Sink._sink_name s = n.
Proof.
  intros Hreach Hsync Hk. apply (run_names_in_sync es st Hreach Hsync Hk).
Qed.

Lemma name_map_exact_along_run_witness :
  let st := run (three_sinks
                   ++ [new_sink 2 (sink_info "headset.2" 70) no_props]) init in
  (_pa_sinks_by_name st !! "headset.2" = Some 1%nat <->
   exists i s, od_get i (_pa_sinks st) = Some 1%nat /\
               sink_objects st !! 1%nat = Some s /\
               Sink._sink_name s = "headset.2") /\
  (_pa_sinks_by_name st !! "headset" = Some 1%nat <->
   exists i s, od_get i (_pa_sinks st) = Some 1%nat /\
               sink_objects st !! 1%nat = Some s /\
               Sink._sink_name s = "headset").
Proof.
  intros st.
  split;
    apply (name_map_exact_along_run _ init reachable_init names_in_sync_init);
    cbn [three_sinks app keeps_names_run keeps_names];
    repeat split; keeps_names_by_computation.
Defined.

(** X12: an upsert that changes the internal name of a device moves its
    entry of the name dictionary: the new name maps to the object of the
    device, the old name is gone and every other name is untouched. *)
Theorem new_sink_renames (st : state) (index : Z) (r : ref) (s : Sink.t)
  (struct : pa_sink_info) (props : proplist) :
  reachable st -> names_in_sync st ->
  od_get index (_pa_sinks st) = Some r -> sink_objects st !! r = Some s ->
  si_name struct <> Sink._sink_name s ->
  let st' := step (new_sink index struct props) st in
  _pa_sinks_by_name st' !! si_name struct = Some r /\
  _pa_sinks_by_name st' !! Sink._sink_name s = None /\
  (forall n, n <> si_name struct -> n <> Sink._sink_name s ->
     _pa_sinks_by_name st' !! n = _pa_sinks_by_name st !! n).
Proof.
  intros Hreach Hsync Hget Hs Hne st'. subst st'. unfold step, handle.
  rewrite (new_sink_known st index struct props r s Hget Hs).
  assert (Hold : _pa_sinks_by_name st !! Sink._sink_name s = Some r).
  { apply Hsync. exists index, s. auto. }
  rewrite Hold. simpl. split; [apply lookup_insert_eq|]. split.
  - rewrite lookup_insert_ne by exact Hne. apply lookup_delete_eq.
  - intros n Hn1 Hn2. rewrite lookup_insert_ne by congruence.
    apply lookup_delete_ne. congruence.
Qed.

Lemma new_sink_renames_witness :
  let st := run three_sinks init in
  let st' := step (new_sink 2 (sink_info "headset.2" 70) no_props) st in
  _pa_sinks_by_name st' !! "headset.2" = Some 1%nat /\
  _pa_sinks_by_name st' !! "headset" = None /\
  (forall n, n <> "headset.2" -> n <> "headset" ->
     _pa_sinks_by_name st' !! n = _pa_sinks_by_name st !! n).
Proof.
  intros st.
  assert (Hreach : reachable st) by apply run_reachable, reachable_init.
  assert (Hsync : names_in_sync st).
  { apply run_names_in_sync;
      [apply reachable_init|apply names_in_sync_init|].
    cbn [three_sinks keeps_names_run keeps_names].
    repeat split; keeps_names_by_computation. }
  refine (new_sink_renames st 2 1%nat _ (sink_info "headset.2" 70) no_props
            Hreach Hsync eq_refl eq_refl _).
  discriminate.
Defined.

(** X13: the upsert of a held device whose current internal name has no
    entry in the name dictionary updates the object and queues its
    notifications, then raises [KeyError] at the [del]: the dictionary is
    left as it was and the device does not get an entry under its new
    name. *)
Theorem new_sink_unlisted_raises (st : state) (index : Z) (r : ref)
  (s : Sink.t) (struct : pa_sink_info) (props : proplist) :
  od_get index (_pa_sinks st) = Some r -> sink_objects st !! r = Some s ->
  _pa_sinks_by_name st !! Sink._sink_name s = None ->
  exists st',
    _on_new_pa_sink index struct props st = (st', Raise KeyError) /\
    _pa_sinks_by_name st' = _pa_sinks_by_name st /\
    _pa_sinks st' = _pa_sinks st /\
    sink_objects st' !! r = Some (Sink_updated s struct props) /\
    idle_queue st' =
      idle_queue st
        ++ Sink_update_calls (_default_sink st) (Sink_updated s struct props).
Proof.
  intros Hget Hs Hnone.
  rewrite (new_sink_known st index struct props r s Hget Hs), Hnone.
  eexists. split; [reflexivity|]. simpl. repeat split.
  apply list_lookup_insert_eq. eapply lookup_lt_Some, Hs.
Qed.

Lemma new_sink_unlisted_raises_witness :
  let st := run same_name_sinks init in
  _pa_sinks_by_name st !! "dock" = None /\
  exists st',
    _on_new_pa_sink 2 (sink_info "dock" 70) no_props st
      = (st', Raise KeyError) /\
    _pa_sinks_by_name st' = _pa_sinks_by_name st /\
    _pa_sinks st' = _pa_sinks st /\
    sink_objects st' !! 1%nat
      = Some (Sink_updated
                (Sink_updated (Sink_base_init 2) (sink_info "dock" 50) no_props)
                (sink_info "dock" 70) no_props) /\
    idle_queue st' = idle_queue st ++ [update_sink_scale 2 70 false].
Proof.
  intros st. split; [reflexivity|].
  exact (new_sink_unlisted_raises st 2 1%nat _ (sink_info "dock" 70) no_props
           eq_refl eq_refl eq_refl).
Defined.

(** ** Streams *)

(** X14: a stream whose decoded driver is neither [protocol-native.c] nor
    [PipeWire] is dropped: the callback returns and the state is what it
    was, whether or not the index is held. *)
Theorem new_sink_input_other_driver (st : state) (index : Z)
  (struct : pa_sink_input_info) (props : proplist) :
  decode (sii_driver struct) <> "protocol-native.c" ->
  decode (sii_driver struct) <> "PipeWire" ->
  _on_new_pa_sink_input index struct props st = (st, Ok tt).
Proof.
  intros H1 H2. apply new_sink_input_rejected. right. simpl.
  destruct (String.eqb_spec (decode (sii_driver struct)) "protocol-native.c");
    [contradiction|].
  destruct (String.eqb_spec (decode (sii_driver struct)) "PipeWire");
    [contradiction|]. reflexivity.
Qed.

Lemma new_sink_input_other_driver_witness :
  let st := run firefox_and_stream init in
  _on_new_pa_sink_input 1 (sink_input_info "Loopback" "module-loopback.c")
    no_props st = (st, Ok tt).
Proof.
  intros st.
  apply (new_sink_input_other_driver st 1
           (sink_input_info "Loopback" "module-loopback.c") no_props);
    discriminate.
Defined.

(** X15: the upsert of a held stream from an accepted driver updates the
    object in place: [_pa_sink_inputs] is unchanged, no object is created,
    only "stream scale changed" is queued, and the object follows the
    payload, the device it plays on and its client included. *)
Theorem new_sink_input_in_place (st : state) (index : Z) (r : ref)
  (struct : pa_sink_input_info) (props : proplist) :
  reachable st ->
  py_in (PyStr (decode (sii_driver struct)))
    [PyStr "protocol-native.c"; PyStr "PipeWire"] = true ->
  _pa_sink_inputs st !! index = Some r ->
  let st' := step (new_sink_input index struct props) st in
  let volume := array_head (cv_values (sii_volume struct)) in
  let mute := py_bool (sii_mute struct) in
  _pa_sink_inputs st' = _pa_sink_inputs st /\
  length (sink_input_objects st') = length (sink_input_objects st) /\
  idle_queue st' = idle_queue st ++ [update_sink_input_scale index volume mute] /\
  exists s',
    sink_input_objects st' !! r = Some s' /\
    SinkInput.idx s' = index /\
    SinkInput.volume s' = volume /\
    SinkInput.channels s' = cv_channels (sii_volume struct) /\
    SinkInput.mute s' = mute /\
    SinkInput._sink_idx s' = sii_sink struct /\
    SinkInput.client s' = Some (sii_client struct).
Proof.
  intros Hreach Hdrv Hget st' volume mute. subst st'. unfold step, handle.
  pose proof (reachable_wf st Hreach) as Hwf.
  destruct (wf_sink_inputs st Hwf index r Hget) as [s [Hs Hi]].
  rewrite new_sink_input_accepted by exact Hdrv.
  rewrite Hget, (SinkInput_update_run st r s struct props Hs). simpl.
  rewrite Hi. split; [reflexivity|]. split; [apply length_insert|].
  split; [reflexivity|].
  eexists. split; [apply list_lookup_insert_eq; eapply lookup_lt_Some, Hs|].
  simpl. rewrite Hi. repeat split.
Qed.

Lemma new_sink_input_in_place_witness :
  let st := run firefox_and_stream init in
  let moved :=
    {| sii_name := "Playback"; sii_driver := "PipeWire"; sii_client := 4;
       sii_sink := 9; sii_volume := cvolume_of 2 30000; sii_mute := 1 |} in
  let st' := step (new_sink_input 1 moved no_props) st in
  _pa_sink_inputs st' = _pa_sink_inputs st /\
  length (sink_input_objects st') = 1%nat /\
  idle_queue st' = idle_queue st ++ [update_sink_input_scale 1 30000 true] /\
  exists s',
    sink_input_objects st' !! 0%nat = Some s' /\
    SinkInput.idx s' = 1 /\ SinkInput.volume s' = 30000 /\
    SinkInput.channels s' = 2 /\ SinkInput.mute s' = true /\
    SinkInput._sink_idx s' = 9 /\ SinkInput.client s' = Some 4.
Proof.
  intros st moved.
  assert (Hreach : reachable st) by apply run_reachable, reachable_init.
  exact (new_sink_input_in_place st 1 0%nat moved no_props Hreach
           eq_refl eq_refl).
Defined.

(** X16: announcing a stream of an accepted driver under a free index and
    then removing that index gives back the [_pa_sink_inputs] there was;
    the run queues "stream scale changed" once and "count changed" twice. *)
Theorem sink_input_insert_remove (st : state) (index : Z)
  (struct : pa_sink_input_info) (props : proplist) :
  py_in (PyStr (decode (sii_driver struct)))
    [PyStr "protocol-native.c"; PyStr "PipeWire"] = true ->
  _pa_sink_inputs st !! index = None ->
  let st' := run [new_sink_input index struct props;
                  remove_sink_input index] st in
  _pa_sink_inputs st' = _pa_sink_inputs st /\
  idle_queue st' =
    idle_queue st ++
      [update_sink_input_scale index
         (array_head (cv_values (sii_volume struct)))
         (py_bool (sii_mute struct));
       slider_count_changed; slider_count_changed].
Proof.
  intros Hdrv Hget st'. subst st'. unfold run. cbn [fold_left].
  assert (H1 : step (new_sink_input index struct props) st =
    mk_state (_pa_clients st) (_pa_sinks st) (_pa_sinks_by_name st)
      (_default_sink st)
      (<[index := length (sink_input_objects st)]> (_pa_sink_inputs st))
      (sink_objects st)
      (sink_input_objects st
         ++ [SinkInput_updated (SinkInput_base_init index struct) struct props])
      ((idle_queue st ++
          [update_sink_input_scale index
             (array_head (cv_values (sii_volume struct)))
             (py_bool (sii_mute struct))]) ++ [slider_count_changed])
      (requests st)).
  { unfold step, handle. rewrite new_sink_input_accepted by exact Hdrv.
    rewrite Hget, SinkInput_new_run. reflexivity. }
  rewrite H1.
  unfold step, handle, _on_remove_pa_sink_input, idle_add. unfold_m. simpl.
  rewrite lookup_insert_eq. simpl. split.
  - apply delete_insert_id, Hget.
  - rewrite <- !app_assoc. reflexivity.
Qed.

Lemma sink_input_insert_remove_witness :
  let st := run firefox_and_stream init in
  let st' :=
    run [new_sink_input 8 (sink_input_info "Music" "PipeWire") no_props;
         remove_sink_input 8] st in
  _pa_sink_inputs st' = _pa_sink_inputs st /\
  idle_queue st' =
    idle_queue st ++
      [update_sink_input_scale 8 65536 false;
       slider_count_changed; slider_count_changed].
Proof.
  intros st.
  exact (sink_input_insert_remove st 8 (sink_input_info "Music" "PipeWire")
           no_props eq_refl eq_refl).
Defined.

(** ** Clients *)

(** X17: after the upsert of a client [get_pa_client] returns a client
    whose name is the decoded name of the payload and whose icon is the
    [application.icon_name] property, or [multimedia-volume-control]
    without it; no other client changes and nothing is queued. *)
Theorem new_client_stored (st : state) (index : Z)
  (struct : pa_client_info) (props : proplist) :
  let st' := step (new_client index struct props) st in
  snd (_on_new_pa_client index struct props st) = Ok tt /\
  (exists c,
     get_pa_client index st' = (st', Ok c) /\
     Client.name c = decode (ci_name struct) /\
     Client.icon_name c =
       Some (decode (default "multimedia-volume-control"
                       (props !! "application.icon_name")))) /\
  (forall j, j <> index -> _pa_clients st' !! j = _pa_clients st !! j) /\
  idle_queue st' = idle_queue st.
Proof.
  intros st'. subst st'.
  unfold step, handle, _on_new_pa_client, get_pa_client, getitem.
  unfold_m. simpl.
  destruct (_pa_clients st !! index) as [c|] eqn:Hc; simpl.
  - rewrite Hc. simpl. rewrite lookup_insert_eq.
    split; [reflexivity|]. split; [eexists; repeat split|].
    split; [|reflexivity].
    intros j Hj. apply lookup_insert_ne. congruence.
  - rewrite lookup_insert_eq. simpl. rewrite lookup_insert_eq.
    split; [reflexivity|]. split; [eexists; repeat split|].
    split; [|reflexivity].
    intros j Hj. rewrite !lookup_insert_ne by congruence. reflexivity.
Qed.

(** X18: announcing a client under a free index and then removing that
    index gives back the [_pa_clients] there was, and [get_pa_client] then
    raises [KeyError] for it. *)
Theorem client_insert_remove (st : state) (index : Z)
  (struct : pa_client_info) (props : proplist) :
  _pa_clients st !! index = None ->
  let st' := run [new_client index struct props; remove_client index] st in
  _pa_clients st' = _pa_clients st /\
  get_pa_client index st' = (st', Raise KeyError).
Proof.
  intros Hc st'. subst st'. unfold run. simpl.
  unfold step, handle, _on_new_pa_client, _on_remove_pa_client,
    get_pa_client, getitem.
  unfold_m. simpl. rewrite Hc. simpl. rewrite lookup_insert_eq. simpl.
  rewrite lookup_insert_eq. simpl.
  rewrite insert_insert_eq, (delete_insert_id _ _ _ Hc). rewrite Hc.
  split; reflexivity.
Qed.

Lemma client_insert_remove_witness :
  let st := run firefox_and_stream init in
  let st' := run [new_client 6 {| ci_name := "mpv" |} no_props;
                  remove_client 6] st in
  _pa_clients st' = _pa_clients st /\
  get_pa_client 6 st' = (st', Raise KeyError).
Proof.
  intros st.
  exact (client_insert_remove st 6 {| ci_name := "mpv" |} no_props eq_refl).
Defined.

(** ** Property lists *)

Lemma has_byte_app c s t :
  has_byte c (String.append s t) = has_byte c s || has_byte c t.
Proof.
  induction s as [|a s IH]; simpl; [reflexivity|].
  rewrite IH. apply orb_assoc.
Qed.

Lemma split_on_no_sep sep s :
  has_byte sep s = false -> split_on sep s = [s].
Proof.
  induction s as [|c s IH]; simpl; [reflexivity|].
  intros H. apply orb_false_iff in H. destruct H as [Hc Hs].
  rewrite Hc, (IH Hs). reflexivity.
Qed.

Lemma split_on_app sep s t :
  has_byte sep s = false ->
  split_on sep (String.append s (String sep t)) = s :: split_on sep t.
Proof.
  induction s as [|c s IH]; simpl.
  - intros _. rewrite Ascii.eqb_refl. reflexivity.
  - intros H. apply orb_false_iff in H. destruct H as [Hc Hs].
    rewrite Hc, (IH Hs). reflexivity.
Qed.

(** Splitting the joined lines gives the lines back. *)
Lemma split_on_concat sep lines :
  Forall (fun l => has_byte sep l = false) lines -> lines <> [] ->
  split_on sep (String.concat (String sep EmptyString) lines) = lines.
Proof.
  induction 1 as [|l lines Hl _ IH]; [congruence|]. intros _.
  destruct lines as [|l' lines].
  - simpl. apply split_on_no_sep, Hl.
  - change (String.concat (String sep "") (l :: l' :: lines))
      with (String.append l
              (String sep (String.concat (String sep "") (l' :: lines)))).
    rewrite split_on_app by exact Hl. rewrite IH by discriminate.
    reflexivity.
Qed.

Lemma partition_app sep s t :
  has_byte sep s = false ->
  partition sep (String.append s (String sep t))
    = (s, String sep EmptyString, t).
Proof.
  induction s as [|c s IH]; simpl.
  - intros _. rewrite Ascii.eqb_refl. reflexivity.
  - intros H. apply orb_false_iff in H. destruct H as [Hc Hs].
    rewrite Hc, (IH Hs). reflexivity.
Qed.

Lemma partition_no_sep sep s :
  has_byte sep s = false ->
  partition sep s = (s, EmptyString, EmptyString).
Proof.
  induction s as [|c s IH]; simpl; [reflexivity|].
  intros H. apply orb_false_iff in H. destruct H as [Hc Hs].
  rewrite Hc, (IH Hs). reflexivity.
Qed.

Lemma rstrip_app_space s c :
  is_space c = true -> rstrip (String.append s (String c "")) = rstrip s.
Proof.
  intros Hc. induction s as [|a s IH]; simpl.
  - rewrite Hc. reflexivity.
  - rewrite IH. reflexivity.
Qed.

Lemma rstrip_app_other s c :
  is_space c = false ->
  rstrip (String.append s (String c "")) = String.append s (String c "").
Proof.
  intros Hc. induction s as [|a s IH]; simpl.
  - rewrite Hc. reflexivity.
  - rewrite IH. destruct s; reflexivity.
Qed.

Lemma length_lstrip s : (String.length (lstrip s) <= String.length s)%nat.
Proof.
  induction s as [|c s IH]; simpl; [lia|].
  destruct (is_space c); simpl; lia.
Qed.

(** A stripped key followed by a space strips back to the key. *)
Lemma strip_key k :
  lstrip k = k -> rstrip k = k -> strip (String.append k " ") = k.
Proof.
  intros Hl Hr. unfold strip. destruct k as [|c k]; [reflexivity|].
  assert (Hc : is_space c = false).
  { destruct (is_space c) eqn:Hc; [|reflexivity]. simpl in Hl.
    rewrite Hc in Hl. pose proof (length_lstrip k) as Hlen.
    rewrite Hl in Hlen. simpl in Hlen. lia. }
  simpl lstrip. rewrite Hc.
  change (String c (String.append k " ")) with (String.append (String c k) " ").
  rewrite rstrip_app_space by reflexivity. exact Hr.
Qed.

Lemma drop_last_app s c : drop_last (String.append s (String c "")) = s.
Proof.
  induction s as [|a s IH]; simpl; [reflexivity|].
  rewrite IH. destruct s; reflexivity.
Qed.

(** A quoted value, after a space, is given back without its quotes. *)
Lemma strip_value v :
  slice_1_m1
    (strip (String " " (String dquote (String.append v (String dquote "")))))
  = v.
Proof.
  unfold strip. simpl lstrip.
  change (String dquote (String.append v (String dquote "")))
    with (String.append (String dquote v) (String dquote "")).
  rewrite rstrip_app_other by reflexivity.
  simpl. apply drop_last_app.
Qed.

Lemma append_snoc s c t :
  String.append s (String c t) = String.append (String.append s (String c "")) t.
Proof.
  induction s as [|a s IH]; [reflexivity|].
  change (String a (String.append s (String c t)) =
          String a (String.append (String.append s (String c "")) t)).
  f_equal. exact IH.
Qed.

Lemma add_prop_line props k v :
  plain_key k -> add_prop props (prop_line (k, v)) = <[k := v]> props.
Proof.
  intros [Heq [_ [Hl Hr]]]. unfold add_prop, prop_line. simpl fst. simpl snd.
  rewrite (append_snoc k " "%char).
  rewrite partition_app.
  2:{ rewrite has_byte_app, Heq. reflexivity. }
  rewrite (strip_key k Hl Hr), strip_value. reflexivity.
Qed.

Lemma prop_line_no_newline k v :
  plain_key k -> plain_value v -> has_byte newline (prop_line (k, v)) = false.
Proof.
  intros [_ [Hk _]] Hv. unfold prop_line. simpl fst. simpl snd.
  rewrite has_byte_app, Hk. simpl. rewrite has_byte_app, Hv. reflexivity.
Qed.

Lemma fold_add_prop_lines entries : forall props,
  Forall (fun e => plain_key (fst e)) entries ->
  fold_left add_prop (map prop_line entries) props =
    fold_left (fun m e => <[fst e := snd e]> m) entries props.
Proof.
  induction entries as [|[k v] entries IH]; intros props Hk; [reflexivity|].
  inversion Hk as [|e l Hk1 Hk2]; subst. simpl.
  rewrite (add_prop_line props k v Hk1). apply IH, Hk2.
Qed.

(** The loop over lines [key = "value"] inserts each pair in turn. *)
Lemma dict_from_proplist_entries (entries : list (bytes * bytes)) :
  entries <> [] ->
  Forall (fun e => plain_key (fst e) /\ plain_value (snd e)) entries ->
  _dict_from_proplist (proplist_text entries) = list_to_map (rev entries).
Proof.
  intros Hne Hall. unfold _dict_from_proplist, proplist_text.
  rewrite split_on_concat.
  - rewrite fold_add_prop_lines.
    2:{ eapply Forall_impl; [exact Hall|]. intros e [H _]. exact H. }
    unfold list_to_map.
    rewrite <- (fold_left_rev_right
                  (fun (e : string * string) (m : gmap string string) =>
                     <[fst e := snd e]> m)).
    reflexivity.
  - apply Forall_map. eapply Forall_impl; [exact Hall|].
    intros [k v] [Hk Hv]. apply prop_line_no_newline; assumption.
  - destruct entries; [congruence|discriminate].
Qed.

(** X19: parsing the text of the lines [key = "value"] gives the
    dictionary of the entries, a later entry replacing an earlier one of
    the same key; keys have no [=], no line feed and no white space at
    their ends, values have no line feed but may hold [=] and quotes. *)
Theorem dict_from_proplist_text (entries : list (bytes * bytes)) :
  entries <> [] ->
  Forall (fun e => plain_key (fst e) /\ plain_value (snd e)) entries ->
  _dict_from_proplist (proplist_text entries) = list_to_map (rev entries).
Proof.
  intros Hne Hall. apply dict_from_proplist_entries; assumption.
Qed.

Lemma dict_from_proplist_text_witness :
  let entries :=
    [("application.name", "Firefox"); ("media.name", "a = b");
     ("application.name", "mpv")] in
  _dict_from_proplist (proplist_text entries) = list_to_map (rev entries) /\
  _dict_from_proplist (proplist_text entries) !! "application.name"
    = Some "mpv" /\
  _dict_from_proplist (proplist_text entries) !! "media.name" = Some "a = b".
Proof.
  intros entries.
  assert (H : _dict_from_proplist (proplist_text entries)
              = list_to_map (rev entries)).
  { apply dict_from_proplist_text; [discriminate|].
    repeat constructor. }
  split; [exact H|]. rewrite H. split; reflexivity.
Defined.

(** X20: a text without line feed and without [=], the empty text
    included, gives a dictionary with one entry: the stripped text as key
    and the empty value. *)
Theorem dict_from_proplist_no_equals (text : bytes) :
  has_byte newline text = false -> has_byte equals text = false ->
  _dict_from_proplist text = <[strip text := EmptyString]> empty.
Proof.
  intros Hn He. unfold _dict_from_proplist.
  rewrite (split_on_no_sep newline text Hn). simpl.
  unfold add_prop. rewrite (partition_no_sep equals text He). reflexivity.
Qed.

Lemma dict_from_proplist_no_equals_witness :
  _dict_from_proplist "" = <["" := ""]> empty /\
  _dict_from_proplist " done " = <["done" := ""]> empty.
Proof.
  split.
  - apply (dict_from_proplist_no_equals ""); reflexivity.
  - apply (dict_from_proplist_no_equals " done "); reflexivity.
Defined.

(** X21: the value of a line [key = value] loses its first and its last
    byte whether or not they are quotes. *)
Theorem dict_from_proplist_unquoted (k w : bytes) :
  plain_key k -> has_byte newline w = false ->
  lstrip w = w -> rstrip w = w ->
  _dict_from_proplist
    (String.append k (String " " (String equals (String " " w))))
  = <[k := slice_1_m1 w]> empty.
Proof.
  intros Hk Hn Hl Hr. destruct Hk as [Heq [Hkn [Hkl Hkr]]].
  unfold _dict_from_proplist. rewrite split_on_no_sep.
  2:{ rewrite has_byte_app, Hkn. simpl. exact Hn. }
  simpl. unfold add_prop.
  rewrite (append_snoc k " "%char).
  rewrite partition_app by (rewrite has_byte_app, Heq; reflexivity).
  rewrite (strip_key k Hkl Hkr).
  unfold strip. simpl lstrip. rewrite Hl, Hr. reflexivity.
Qed.

Lemma dict_from_proplist_unquoted_witness :
  _dict_from_proplist "device.serial = hex:00ff"
  = <["device.serial" := "ex:00f"]> empty.
Proof.
  apply (dict_from_proplist_unquoted "device.serial" "hex:00ff");
    repeat split; reflexivity.
Defined.

Lemma append_mid s c x t :
  String.append (String.append s (String c x)) t
  = String.append s (String c (String.append x t)).
Proof.
  induction s as [|a s IH]; [reflexivity|].
  change (String a (String.append (String.append s (String c x)) t) =
          String a (String.append s (String c (String.append x t)))).
  f_equal. exact IH.
Qed.

Lemma split_on_trailing sep lines :
  Forall (fun l => has_byte sep l = false) lines ->
  split_on sep
    (String.append (String.concat (String sep EmptyString) lines)
       (String sep EmptyString))
  = match lines with [] => [EmptyString] | _ => lines end ++ [EmptyString].
Proof.
  induction 1 as [|l lines Hl _ IH].
  - simpl. rewrite Ascii.eqb_refl. reflexivity.
  - destruct lines as [|l' lines].
    + change (String.concat (String sep "") [l]) with l.
      rewrite split_on_app by exact Hl. reflexivity.
    + change (String.concat (String sep "") (l :: l' :: lines))
        with (String.append l
                (String sep (String.concat (String sep "") (l' :: lines)))).
      rewrite append_mid, split_on_app by exact Hl. rewrite IH. reflexivity.
Qed.

Lemma add_prop_empty props :
  add_prop props EmptyString = <[EmptyString := EmptyString]> props.
Proof. reflexivity. Qed.

(** The text [pa_proplist_to_string] ends with a line feed: the loop sees
    one more line, the empty one. *)
Lemma dict_from_proplist_closed_entries (entries : list (bytes * bytes)) :
  Forall (fun e => plain_key (fst e) /\ plain_value (snd e)) entries ->
  _dict_from_proplist
    (String.append (proplist_text entries) (String newline EmptyString))
  = <[EmptyString := EmptyString]> (list_to_map (rev entries)).
Proof.
  intros Hall. unfold _dict_from_proplist, proplist_text.
  rewrite split_on_trailing.
  2:{ apply Forall_map. eapply Forall_impl; [exact Hall|].
      intros [k v] [Hk Hv]. apply prop_line_no_newline; assumption. }
  destruct entries as [|e entries].
  - simpl. rewrite !add_prop_empty. apply insert_insert_eq.
  - change (match map prop_line (e :: entries) with
            | [] => [EmptyString]
            | _ => map prop_line (e :: entries)
            end) with (map prop_line (e :: entries)).
    rewrite fold_left_app. cbn [fold_left]. rewrite add_prop_empty.
    f_equal. rewrite fold_add_prop_lines.
    2:{ eapply Forall_impl; [exact Hall|]. intros x [H _]. exact H. }
    unfold list_to_map.
    rewrite <- (fold_left_rev_right
                  (fun (e : string * string) (m : gmap string string) =>
                     <[fst e := snd e]> m)).
    reflexivity.
Qed.

(** X22: a text of lines [key = "value"] that ends with a line feed, as
    the text of [pa_proplist_to_string] does, gives the dictionary of the
    entries and one entry more: the empty key with the empty value. *)
Theorem dict_from_proplist_closing_line (entries : list (bytes * bytes)) :
  Forall (fun e => plain_key (fst e) /\ plain_value (snd e)) entries ->
  _dict_from_proplist
    (String.append (proplist_text entries) (String newline EmptyString))
  = <[EmptyString := EmptyString]> (list_to_map (rev entries)).
Proof. apply dict_from_proplist_closed_entries. Qed.

Lemma dict_from_proplist_closing_line_witness :
  let entries := [("application.name", "Firefox"); ("media.name", "a = b")] in
  _dict_from_proplist
    (String.append (proplist_text entries) (String newline EmptyString))
  = <[EmptyString := EmptyString]> (list_to_map (rev entries)).
Proof.
  intros entries.
  apply (dict_from_proplist_closing_line entries).
  repeat constructor.
Defined.

(** ** Mute *)

(** [get_main_sink] reads the marker and the two dictionaries of devices
    only. *)
Lemma get_main_sink_frame st st' :
  _default_sink st' = _default_sink st ->
  _pa_sinks_by_name st' = _pa_sinks_by_name st ->
  _pa_sinks st' = _pa_sinks st ->
  get_main_sink st' = (st', snd (get_main_sink st)).
Proof.
  intros E1 E2 E3.
  unfold get_main_sink, get_first_sink, list_getitem, od_getitem, getitem.
  unfold_m. simpl. rewrite E1.
  destruct (_default_sink st) as [n|]; rewrite ?E2, ?E3.
  - destruct (_pa_sinks_by_name st !! n); reflexivity.
  - destruct (od_keys (_pa_sinks st) !! 0%nat); simpl; rewrite ?E3;
      [|reflexivity].
    destruct (od_get _ _); reflexivity.
Qed.

Lemma state_eta st :
  mk_state (_pa_clients st) (_pa_sinks st) (_pa_sinks_by_name st)
    (_default_sink st) (_pa_sink_inputs st) (sink_objects st)
    (sink_input_objects st) (idle_queue st) (requests st) = st.
Proof. destruct st. reflexivity. Qed.

(** X23: when there is a main device, [toggle_main_mute] called twice
    sends two mute requests for its index, the first with the negation of
    its mute flag as 0 or 1 and the second with the flag itself, and leaves
    the manager exactly as it was. *)
Theorem toggle_main_mute_twice (c : connection) (r : ref) (s : Sink.t) :
  get_main_sink (manager c) = (manager c, Ok (Some r)) ->
  sink_objects (manager c) !! r = Some s ->
  exists c1 c2,
    toggle_main_mute c = (c1, Ok tt) /\
    toggle_main_mute c1 = (c2, Ok tt) /\
    (exists s1, sink_objects (manager c1) !! r = Some s1 /\
                Sink.mute s1 = negb (Sink.mute s)) /\
    operations c2 =
      operations c ++
        [pa_context_set_sink_mute_by_index (Sink.idx s)
           (mute_flag (negb (Sink.mute s)));
         pa_context_set_sink_mute_by_index (Sink.idx s)
           (mute_flag (Sink.mute s))] /\
    manager c2 = manager c.
Proof.
  intros Hmain Hs. destruct c as [st ops ss si n]. simpl in Hmain, Hs.
  assert (Hr : (r < length (sink_objects st))%nat)
    by (eapply lookup_lt_Some, Hs).
  set (s1 := Sink.mk (Sink.idx s) (Sink.volume s) (Sink.channels s)
               (negb (Sink.mute s)) (Sink._icon_name s) (Sink._name s)
               (Sink._sink_name s)).
  set (st1 := set_sink_objects (fun h => <[r := s1]> h) st).
  assert (H1 : toggle_main_mute (mk_connection st ops ss si n) =
               (mk_connection st1
                  (ops ++ [pa_context_set_sink_mute_by_index (Sink.idx s)
                             (mute_flag (negb (Sink.mute s)))])
                  ss si n, Ok tt)).
  { unfold toggle_main_mute, Sink_set_mute, set_sink_mute, operate,
      on_manager, cbind, read_sink, write_sink, modify.
    simpl. rewrite Hmain. simpl. rewrite Hs. simpl. rewrite Hs. reflexivity. }
  assert (Hmain1 : get_main_sink st1 = (st1, Ok (Some r))).
  { rewrite (get_main_sink_frame st st1) by reflexivity.
    rewrite Hmain. reflexivity. }
  assert (Hs1 : sink_objects st1 !! r = Some s1).
  { simpl. apply list_lookup_insert_eq, Hr. }
  eexists. eexists. split; [exact H1|]. split; [|split; [|split]].
  - unfold toggle_main_mute, Sink_set_mute, set_sink_mute, operate,
      on_manager, cbind, read_sink, write_sink, modify.
    cbn [manager]. rewrite Hmain1. cbn [manager set_manager].
    rewrite Hs1. cbn [manager set_manager]. rewrite Hs1. reflexivity.
  - exists s1. split; [exact Hs1|reflexivity].
  - simpl. rewrite <- app_assoc. simpl. rewrite negb_involutive. reflexivity.
  - simpl. unfold set_sink_objects. simpl.
    rewrite list_insert_insert_eq, negb_involutive.
    rewrite list_insert_id; [apply state_eta|].
    rewrite Hs. destruct s. reflexivity.
Qed.

Lemma toggle_main_mute_twice_witness :
  let c := mk_connection (run three_sinks init) [] empty empty 0 in
  exists c1 c2,
    toggle_main_mute c = (c1, Ok tt) /\
    toggle_main_mute c1 = (c2, Ok tt) /\
    (exists s1, sink_objects (manager c1) !! 0%nat = Some s1 /\
                Sink.mute s1 = true) /\
    operations c2 =
      [pa_context_set_sink_mute_by_index 5 1;
       pa_context_set_sink_mute_by_index 5 0] /\
    manager c2 = manager c.
Proof.
  intros c.
  assert (Hm : get_main_sink (manager c) = (manager c, Ok (Some 0%nat)))
    by (vm_compute; reflexivity).
  assert (Hs : sink_objects (manager c) !! 0%nat
               = Some (Sink_updated (Sink_base_init 5) (sink_info "analog" 50)
                         no_props))
    by (vm_compute; reflexivity).
  destruct (toggle_main_mute_twice c 0%nat _ Hm Hs)
    as [c1 [c2 [H1 [H2 [H3 [H4 H5]]]]]].
  exists c1, c2. split; [exact H1|]. split; [exact H2|].
  split; [exact H3|]. split; [exact H4|exact H5].
Defined.

(** X24: without a main device [toggle_main_mute] sends nothing and
    changes nothing: it raises [AttributeError] when there is neither
    marker nor device, and [KeyError] when the marker names no entry of
    the name dictionary. *)
Theorem toggle_main_mute_no_device (c : connection) :
  match _default_sink (manager c) with
  | None => _pa_sinks (manager c) = []
  | Some name => _pa_sinks_by_name (manager c) !! name = None
  end ->
  exists c',
    toggle_main_mute c =
      (c', Raise match _default_sink (manager c) with
                 | None => AttributeError
                 | Some _ => KeyError
                 end) /\
    manager c' = manager c /\ operations c' = operations c.
Proof.
  intros H.
  unfold toggle_main_mute, on_manager, cbind, get_main_sink, get_first_sink,
    list_getitem, getitem.
  unfold_m. simpl.
  destruct (_default_sink (manager c)) as [name|]; rewrite H; simpl;
    eexists; (split; [reflexivity|]); split; reflexivity.
Qed.

Lemma toggle_main_mute_no_device_witness :
  let c := mk_connection
             (run (three_sinks ++ [default_sink (Some "usb")]) init)
             [] empty empty 0 in
  (exists c', toggle_main_mute connect = (c', Raise AttributeError) /\
              manager c' = init /\ operations c' = []) /\
  (exists c', toggle_main_mute c = (c', Raise KeyError) /\
              manager c' = manager c /\ operations c' = []).
Proof.
  intros c. split.
  - apply (toggle_main_mute_no_device connect). reflexivity.
  - apply (toggle_main_mute_no_device c). reflexivity.
Defined.

(** ** Peak streams *)

Lemma connected_app ops l h :
  connected (ops ++ l) h = fold_left (connected_after h) l (connected ops h).
Proof. unfold connected. apply fold_left_app. Qed.

Lemma same_streams_refl c : same_streams c c.
Proof. repeat split. Qed.

Lemma same_streams_trans c1 c2 c3 :
  same_streams c1 c2 -> same_streams c2 c3 -> same_streams c1 c3.
Proof.
  intros [A1 [A2 [A3 A4]]] [B1 [B2 [B3 B4]]].
  repeat split; try congruence; intros h; rewrite B4; apply A4.
Qed.

Lemma on_manager_same {A : Type} (m : M A) c :
  same_streams c (fst (on_manager m c)).
Proof.
  unfold on_manager. destruct (m (manager c)) as [st' r]. repeat split.
Qed.

Lemma operate_same op c :
  stream_operation op = false -> same_streams c (fst (operate op c)).
Proof.
  intros Hop. unfold operate. simpl. repeat split. intros h. simpl.
  rewrite connected_app. destruct op; try discriminate; reflexivity.
Qed.

Lemma cbind_same {A B : Type} (m : C A) (k : A -> C B) c :
  same_streams c (fst (m c)) ->
  (forall a c', same_streams c' (fst (k a c'))) ->
  same_streams c (fst (cbind m k c)).
Proof.
  intros Hm Hk. unfold cbind. destruct (m c) as [c' [a|e]]; simpl in *.
  - eapply same_streams_trans; [exact Hm|apply Hk].
  - exact Hm.
Qed.

Lemma Sink_set_mute_same self mute c :
  same_streams c (fst (Sink_set_mute self mute c)).
Proof.
  unfold Sink_set_mute. apply cbind_same; [apply on_manager_same|].
  intros s c'. apply cbind_same; [apply on_manager_same|].
  intros _ c''. apply operate_same. reflexivity.
Qed.

(** Every command but the four on peak streams leaves the streams alone. *)
Lemma perform_same K cmd c :
  match cmd with
  | sink_monitor _ | sink_stop_monitor _ | sink_input_monitor _
  | sink_input_stop_monitor _ => False
  | _ => True
  end ->
  same_streams c (cstep K cmd c).
Proof.
  intros Hcmd. unfold cstep. destruct cmd; try contradiction; simpl.
  - apply on_manager_same.
  - apply Sink_set_mute_same.
  - unfold SinkInput_set_mute. apply cbind_same; [apply on_manager_same|].
    intros s c'. apply cbind_same; [apply on_manager_same|].
    intros _ c''. apply operate_same. reflexivity.
  - unfold toggle_main_mute. apply cbind_same; [apply on_manager_same|].
    intros [r|] c'; [|apply same_streams_refl].
    apply cbind_same; [apply on_manager_same|].
    intros s c''. apply Sink_set_mute_same.
  - unfold _pa_context_subscribe_cb.
    repeat match goal with
           | |- context [if ?b then _ else _] => destruct b
           end;
      first [apply on_manager_same
            |apply operate_same; reflexivity
            |apply same_streams_refl].
  - destruct struct; [apply on_manager_same|apply same_streams_refl].
  - destruct struct; [apply on_manager_same|apply same_streams_refl].
  - destruct struct as [i|]; [|apply same_streams_refl].
    simpl. destruct user_data; [apply on_manager_same|apply same_streams_refl].
  - destruct struct; [apply on_manager_same|apply same_streams_refl].
Qed.

Lemma streams_wf_same c c' :
  same_streams c c' -> streams_wf c -> streams_wf c'.
Proof.
  intros [E1 [E2 [E3 E4]]] [H1 H2 H3 H4 H5 H6].
  split; rewrite ?E1, ?E2, ?E3; try assumption.
  intros h. rewrite E4. apply H6.
Qed.

Lemma streams_wf_connect : streams_wf connect.
Proof.
  split; simpl; intros; try (rewrite lookup_empty in *; discriminate).
  split; [discriminate|].
  intros [[r H]|[r H]]; rewrite lookup_empty in H; discriminate.
Qed.

(** The operations [monitor_stream] makes after the disconnection of the
    stream it replaces. *)
Lemma Sink_monitor_stream_run K self c s :
  sink_objects (manager c) !! self = Some s ->
  let n := streams_made c in
  Sink_monitor_stream K self c =
    (mk_connection (manager c)
       (operations c
          ++ match sink_stream c !! self with
             | Some old => [pa_stream_disconnect old]
             | None => []
             end
          ++ [pa_stream_new n "peak" (PA_SAMPLE_U8 K) METER_RATE 1;
              pa_stream_set_read_callback n;
              pa_stream_connect_record n (format_d (Sink.idx s))
                (stream_flags K)])
       (<[self := n]> (sink_stream c)) (sink_input_stream c) (S n),
     Ok tt).
Proof.
  intros Hs n. subst n.
  unfold Sink_monitor_stream, on_manager, cbind, read_sink, operate,
    new_peak_stream, cret.
  rewrite Hs. simpl.
  destruct (sink_stream c !! self); simpl;
    unfold set_operations, set_sink_stream, set_streams_made; simpl;
    rewrite <- ?app_assoc; reflexivity.
Qed.

Lemma SinkInput_monitor_stream_run K self c s :
  sink_input_objects (manager c) !! self = Some s ->
  let n := streams_made c in
  SinkInput_monitor_stream K self c =
    (mk_connection (manager c)
       (operations c
          ++ match sink_input_stream c !! self with
             | Some old => [pa_stream_disconnect old]
             | None => []
             end
          ++ [pa_stream_new n "peak" (PA_SAMPLE_U8 K) METER_RATE 1;
              pa_stream_set_read_callback n;
              pa_stream_set_monitor_stream n (SinkInput.idx s);
              pa_stream_connect_record n (format_d (SinkInput._sink_idx s))
                (stream_flags K)])
       (sink_stream c) (<[self := n]> (sink_input_stream c)) (S n),
     Ok tt).
Proof.
  intros Hs n. subst n.
  unfold SinkInput_monitor_stream, on_manager, cbind, read_sink_input,
    operate, new_peak_stream, cret.
  rewrite Hs. simpl.
  destruct (sink_input_stream c !! self); simpl;
    unfold set_operations, set_sink_input_stream, set_streams_made; simpl;
    rewrite <- ?app_assoc; reflexivity.
Qed.

(** How [connected] changes when an object takes the new stream [n], its
    former stream, if any, being disconnected first. *)
Lemma connected_replace ops (old : option nat) n front back h :
  Forall (fun op => connected_after h true op = true /\
                    connected_after h false op = false) front ->
  connected
    (ops ++ match old with
            | Some o => [pa_stream_disconnect o]
            | None => []
            end
         ++ front ++ [pa_stream_connect_record n back.1 back.2]) h =
  if Nat.eqb n h then true
  else match old with
       | Some o => if Nat.eqb o h then false else connected ops h
       | None => connected ops h
       end.
Proof.
  intros Hfront. rewrite connected_app, fold_left_app, fold_left_app. simpl.
  assert (Hf : forall b, fold_left (connected_after h) front b = b).
  { induction Hfront as [|op front [Ht Hf] _ IH]; intros b; [reflexivity|].
    simpl. rewrite IH. destruct b; assumption. }
  rewrite Hf. destruct old; reflexivity.
Qed.

Lemma connected_drop ops o h :
  connected (ops ++ [pa_stream_disconnect o]) h =
    if Nat.eqb o h then false else connected ops h.
Proof. rewrite connected_app. reflexivity. Qed.

Lemma streams_wf_sink_monitor K self c :
  streams_wf c -> streams_wf (cstep K (sink_monitor self) c).
Proof.
  intros W. unfold cstep, perform.
  destruct (sink_objects (manager c) !! self) as [s|] eqn:Hs.
  2:{ unfold Sink_monitor_stream, on_manager, cbind, read_sink.
      rewrite Hs. simpl. eapply streams_wf_same; [|exact W].
      repeat split; reflexivity. }
  rewrite (Sink_monitor_stream_run K self c s Hs). cbv zeta. simpl.
  destruct W as [W1 W2 W3 W4 W5 W6].
  assert (Hfresh : forall r, sink_stream c !! r <> Some (streams_made c)).
  { intros r E. apply W1 in E. lia. }
  assert (Hfresh' : forall r, sink_input_stream c !! r <> Some (streams_made c)).
  { intros r E. apply W2 in E. lia. }
  constructor; simpl.
  - intros r h. destruct (decide (r = self)) as [->|Hne].
    + rewrite lookup_insert_eq. intros [= <-]. lia.
    + rewrite lookup_insert_ne by congruence. intros E. apply W1 in E. lia.
  - intros r h E. apply W2 in E. lia.
  - intros r r' h.
    destruct (decide (r = self)) as [->|Hne];
      destruct (decide (r' = self)) as [->|Hne']; trivial;
      rewrite ?lookup_insert_eq, ?lookup_insert_ne by congruence.
    + intros [= <-] E. destruct (Hfresh _ E).
    + intros E [= <-]. destruct (Hfresh _ E).
    + apply W3.
  - exact W4.
  - intros r r' h. destruct (decide (r = self)) as [->|Hne].
    + rewrite lookup_insert_eq. intros [= <-] E. destruct (Hfresh' _ E).
    + rewrite lookup_insert_ne by congruence. apply W5.
  - intros h.
    rewrite (connected_replace (operations c) (sink_stream c !! self)
               (streams_made c)
               [pa_stream_new (streams_made c) "peak" (PA_SAMPLE_U8 K)
                  METER_RATE 1;
                pa_stream_set_read_callback (streams_made c)]
               (format_d (Sink.idx s), stream_flags K) h)
      by (repeat constructor).
    destruct (Nat.eqb_spec (streams_made c) h) as [<-|Hn].
    { split; trivial. intros _. left. exists self.
      apply lookup_insert_eq. }
    assert (Hnew : forall r, <[self:=streams_made c]> (sink_stream c) !! r
                             = Some h <->
                             r <> self /\ sink_stream c !! r = Some h).
    { intros r. destruct (decide (r = self)) as [->|Hne].
      - rewrite lookup_insert_eq. split; [congruence|tauto].
      - rewrite lookup_insert_ne by congruence. tauto. }
    destruct (sink_stream c !! self) as [o|] eqn:Ho.
    + destruct (Nat.eqb_spec o h) as [->|Hoh].
      * split; [discriminate|]. intros [[r E]|[r E]].
        -- apply Hnew in E as [Hne E]. destruct Hne. eapply W3; eassumption.
        -- destruct (W5 _ _ _ Ho E).
      * rewrite W6. split; intros [[r E]|[r E]]; eauto; left; exists r.
        -- apply Hnew. split; [congruence|assumption].
        -- apply Hnew in E. tauto.
    + rewrite W6. split; intros [[r E]|[r E]]; eauto; left; exists r.
      * apply Hnew. split; [congruence|assumption].
      * apply Hnew in E. tauto.
Qed.

Lemma streams_wf_sink_input_monitor K self c :
  streams_wf c -> streams_wf (cstep K (sink_input_monitor self) c).
Proof.
  intros W. unfold cstep, perform.
  destruct (sink_input_objects (manager c) !! self) as [s|] eqn:Hs.
  2:{ unfold SinkInput_monitor_stream, on_manager, cbind, read_sink_input.
      rewrite Hs. simpl. eapply streams_wf_same; [|exact W].
      repeat split; reflexivity. }
  rewrite (SinkInput_monitor_stream_run K self c s Hs). cbv zeta. simpl.
  destruct W as [W1 W2 W3 W4 W5 W6].
  assert (Hfresh : forall r, sink_stream c !! r <> Some (streams_made c)).
  { intros r E. apply W1 in E. lia. }
  assert (Hfresh' : forall r, sink_input_stream c !! r <> Some (streams_made c)).
  { intros r E. apply W2 in E. lia. }
  constructor; simpl.
  - intros r h E. apply W1 in E. lia.
  - intros r h. destruct (decide (r = self)) as [->|Hne].
    + rewrite lookup_insert_eq. intros [= <-]. lia.
    + rewrite lookup_insert_ne by congruence. intros E. apply W2 in E. lia.
  - exact W3.
  - intros r r' h.
    destruct (decide (r = self)) as [->|Hne];
      destruct (decide (r' = self)) as [->|Hne']; trivial;
      rewrite ?lookup_insert_eq, ?lookup_insert_ne by congruence.
    + intros [= <-] E. destruct (Hfresh' _ E).
    + intros E [= <-]. destruct (Hfresh' _ E).
    + apply W4.
  - intros r r' h. destruct (decide (r' = self)) as [->|Hne].
    + rewrite lookup_insert_eq. intros E [= <-]. destruct (Hfresh _ E).
    + rewrite lookup_insert_ne by congruence. apply W5.
  - intros h.
    rewrite (connected_replace (operations c) (sink_input_stream c !! self)
               (streams_made c)
               [pa_stream_new (streams_made c) "peak" (PA_SAMPLE_U8 K)
                  METER_RATE 1;
                pa_stream_set_read_callback (streams_made c);
                pa_stream_set_monitor_stream (streams_made c)
                  (SinkInput.idx s)]
               (format_d (SinkInput._sink_idx s), stream_flags K) h)
      by (repeat constructor).
    destruct (Nat.eqb_spec (streams_made c) h) as [<-|Hn].
    { split; trivial. intros _. right. exists self.
      apply lookup_insert_eq. }
    assert (Hnew : forall r,
               <[self:=streams_made c]> (sink_input_stream c) !! r = Some h <->
               r <> self /\ sink_input_stream c !! r = Some h).
    { intros r. destruct (decide (r = self)) as [->|Hne].
      - rewrite lookup_insert_eq. split; [congruence|tauto].
      - rewrite lookup_insert_ne by congruence. tauto. }
    destruct (sink_input_stream c !! self) as [o|] eqn:Ho.
    + destruct (Nat.eqb_spec o h) as [->|Hoh].
      * split; [discriminate|]. intros [[r E]|[r E]].
        -- destruct (W5 _ _ _ E Ho).
        -- apply Hnew in E as [Hne E]. destruct Hne. eapply W4; eassumption.
      * rewrite W6. split; intros [[r E]|[r E]]; eauto; right; exists r.
        -- apply Hnew. split; [congruence|assumption].
        -- apply Hnew in E. tauto.
    + rewrite W6. split; intros [[r E]|[r E]]; eauto; right; exists r.
      * apply Hnew. split; [congruence|assumption].
      * apply Hnew in E. tauto.
Qed.

(** What [stop_monitor_stream] does to an object that holds a stream, and
    to one that holds none. *)
Lemma Sink_stop_monitor_stream_run self c :
  Sink_stop_monitor_stream self c =
    match sink_stream c !! self with
    | Some o =>
        (mk_connection (manager c) (operations c ++ [pa_stream_disconnect o])
           (delete self (sink_stream c)) (sink_input_stream c)
           (streams_made c), Ok tt)
    | None => (c, Ok tt)
    end.
Proof.
  unfold Sink_stop_monitor_stream, cbind, operate, cret. simpl.
  destruct (sink_stream c !! self); reflexivity.
Qed.

Lemma SinkInput_stop_monitor_stream_run self c :
  SinkInput_stop_monitor_stream self c =
    match sink_input_stream c !! self with
    | Some o =>
        (mk_connection (manager c) (operations c ++ [pa_stream_disconnect o])
           (sink_stream c) (delete self (sink_input_stream c))
           (streams_made c), Ok tt)
    | None => (c, Ok tt)
    end.
Proof.
  unfold SinkInput_stop_monitor_stream, cbind, operate, cret. simpl.
  destruct (sink_input_stream c !! self); reflexivity.
Qed.

Lemma lookup_delete_held (m : gmap nat nat) self r h :
  delete self m !! r = Some h <-> r <> self /\ m !! r = Some h.
Proof.
  destruct (decide (r = self)) as [->|Hne].
  - rewrite lookup_delete_eq. split; [discriminate|tauto].
  - rewrite lookup_delete_ne by congruence. tauto.
Qed.

Lemma streams_wf_sink_stop K self c :
  streams_wf c -> streams_wf (cstep K (sink_stop_monitor self) c).
Proof.
  intros W. unfold cstep, perform. rewrite Sink_stop_monitor_stream_run.
  destruct (sink_stream c !! self) as [o|] eqn:Ho; [|exact W]. simpl.
  destruct W as [W1 W2 W3 W4 W5 W6]. constructor; simpl.
  - intros r h E. apply lookup_delete_held in E as [_ E]. eauto.
  - exact W2.
  - intros r r' h E E'. apply lookup_delete_held in E as [_ E].
    apply lookup_delete_held in E' as [_ E']. eauto.
  - exact W4.
  - intros r r' h E. apply lookup_delete_held in E as [_ E]. eauto.
  - intros h. rewrite connected_drop.
    destruct (Nat.eqb_spec o h) as [->|Hoh].
    + split; [discriminate|]. intros [[r E]|[r E]].
      * apply lookup_delete_held in E as [Hne E]. destruct Hne. eauto.
      * destruct (W5 _ _ _ Ho E).
    + rewrite W6. split; intros [[r E]|[r E]]; eauto; left; exists r.
      * apply lookup_delete_held. split; [congruence|assumption].
      * apply lookup_delete_held in E. tauto.
Qed.

Lemma streams_wf_sink_input_stop K self c :
  streams_wf c -> streams_wf (cstep K (sink_input_stop_monitor self) c).
Proof.
  intros W. unfold cstep, perform. rewrite SinkInput_stop_monitor_stream_run.
  destruct (sink_input_stream c !! self) as [o|] eqn:Ho; [|exact W]. simpl.
  destruct W as [W1 W2 W3 W4 W5 W6]. constructor; simpl.
  - exact W1.
  - intros r h E. apply lookup_delete_held in E as [_ E]. eauto.
  - exact W3.
  - intros r r' h E E'. apply lookup_delete_held in E as [_ E].
    apply lookup_delete_held in E' as [_ E']. eauto.
  - intros r r' h E E'. apply lookup_delete_held in E' as [_ E']. eauto.
  - intros h. rewrite connected_drop.
    destruct (Nat.eqb_spec o h) as [->|Hoh].
    + split; [discriminate|]. intros [[r E]|[r E]].
      * destruct (W5 _ _ _ E Ho).
      * apply lookup_delete_held in E as [Hne E]. destruct Hne. eauto.
    + rewrite W6. split; intros [[r E]|[r E]]; eauto; right; exists r.
      * apply lookup_delete_held. split; [congruence|assumption].
      * apply lookup_delete_held in E. tauto.
Qed.

Lemma step_streams_wf K cmd c : streams_wf c -> streams_wf (cstep K cmd c).
Proof.
  intros W.
  destruct cmd;
    try (eapply streams_wf_same; [apply perform_same; simpl; tauto|exact W]).
  - apply streams_wf_sink_monitor, W.
  - apply streams_wf_sink_stop, W.
  - apply streams_wf_sink_input_monitor, W.
  - apply streams_wf_sink_input_stop, W.
Qed.

Lemma creachable_streams_wf K c : creachable K c -> streams_wf c.
Proof.
  induction 1; [apply streams_wf_connect|apply step_streams_wf; assumption].
Qed.

Lemma crun_creachable K cmds c :
  creachable K c -> creachable K (crun K cmds c).
Proof.
  revert c. induction cmds as [|cmd cmds IH]; intros c R; [exact R|].
  simpl. apply IH. constructor. exact R.
Qed.

(** X25: after any run from a new connection, the streams that are connected
    are the streams that are the [_stream] of some device or stream object;
    [pa_stream_new] is taken to return a new stream each time. *)
Theorem stream_connected_iff_held (K : pa_constants) (cmds : list command)
  (h : nat) :
  let c := crun K cmds connect in
  connected (operations c) h = true <-> exists object, holds c object h.
Proof.
  intros c.
  assert (W : streams_wf c)
    by apply creachable_streams_wf with K, crun_creachable, creachable_connect.
  rewrite (sw_connected c W). unfold holds. split.
  - intros [[r E]|[r E]]; [exists (false, r)|exists (true, r)]; exact E.
  - intros [[[] r] E]; simpl in E; eauto.
Qed.

(** X26: after any run from a new connection, no two objects have the same
    [_stream]. *)
Theorem stream_holder_unique (K : pa_constants) (cmds : list command)
  (a b : bool * ref) (h : nat) :
  let c := crun K cmds connect in
  holds c a h -> holds c b h -> a = b.
Proof.
  intros c Ha Hb.
  assert (W : streams_wf c)
    by apply creachable_streams_wf with K, crun_creachable, creachable_connect.
  destruct a as [[] r], b as [[] r']; unfold holds in Ha, Hb; simpl in Ha, Hb.
  - f_equal. eapply sw_input_inj; eassumption.
  - destruct (sw_disjoint c W _ _ _ Hb Ha).
  - destruct (sw_disjoint c W _ _ _ Ha Hb).
  - f_equal. eapply sw_sink_inj; eassumption.
Qed.

Lemma stream_holder_unique_witness :
  let c := crun libpulse
             [manager_event (new_sink 3 (sink_info "analog" 50) no_props);
              sink_monitor 0; sink_monitor 0] connect in
  holds c (false, 0%nat) 1%nat /\ (false, 0%nat) = (false, 0%nat).
Proof.
  intros c.
  assert (H : holds c (false, 0%nat) 1%nat) by (vm_compute; reflexivity).
  split; [exact H|].
  exact (stream_holder_unique libpulse _ (false, 0%nat) (false, 0%nat) 1%nat
           H H).
Defined.

(** X27: [stop_monitor_stream] right after [monitor_stream] on a device
    leaves what [stop_monitor_stream] alone leaves: the same manager, the
    same [_stream] attributes, the device without a stream, and the same
    streams connected. *)
Theorem monitor_then_stop (K : pa_constants) (c : connection) (self : ref)
  (s : Sink.t) :
  creachable K c ->
  sink_objects (manager c) !! self = Some s ->
  let stopped := cstep K (sink_stop_monitor self) c in
  let c' := cstep K (sink_stop_monitor self) (cstep K (sink_monitor self) c) in
  manager c' = manager stopped /\
  sink_stream c' = sink_stream stopped /\
  sink_stream c' !! self = None /\
  sink_input_stream c' = sink_input_stream stopped /\
  forall h, connected (operations c') h = connected (operations stopped) h.
Proof.
  intros R Hs stopped c'. subst stopped c'.
  pose proof (creachable_streams_wf K c R) as W.
  unfold cstep, perform.
  rewrite (Sink_monitor_stream_run K self c s Hs). cbv zeta.
  rewrite !Sink_stop_monitor_stream_run. simpl.
  rewrite lookup_insert_eq. simpl.
  assert (Hnew : connected (operations c) (streams_made c) = false).
  { destruct (connected (operations c) (streams_made c)) eqn:E; trivial.
    apply (sw_connected c W) in E as [[r E]|[r E]].
    - apply (sw_sink_made c W) in E. lia.
    - apply (sw_input_made c W) in E. lia. }
  assert (Hops : forall (old : option nat) h,
    connected
      ((operations c
          ++ match old with
             | Some o => [pa_stream_disconnect o]
             | None => []
             end
          ++ [pa_stream_new (streams_made c) "peak" (PA_SAMPLE_U8 K)
                METER_RATE 1;
              pa_stream_set_read_callback (streams_made c);
              pa_stream_connect_record (streams_made c)
                (format_d (Sink.idx s)) (stream_flags K)])
         ++ [pa_stream_disconnect (streams_made c)]) h =
    if Nat.eqb (streams_made c) h then false
    else match old with
         | Some o => if Nat.eqb o h then false else connected (operations c) h
         | None => connected (operations c) h
         end).
  { intros old h. rewrite connected_drop.
    pose proof (connected_replace (operations c) old (streams_made c)
               [pa_stream_new (streams_made c) "peak" (PA_SAMPLE_U8 K)
                  METER_RATE 1;
                pa_stream_set_read_callback (streams_made c)]
               (format_d (Sink.idx s), stream_flags K) h) as E.
    cbn [app fst snd] in E. rewrite E by (repeat constructor).
    destruct (Nat.eqb (streams_made c) h); reflexivity. }
  destruct (sink_stream c !! self) as [o|] eqn:Ho; simpl.
  - split; [reflexivity|]. split; [apply delete_insert_eq|].
    split; [apply lookup_delete_eq|]. split; [reflexivity|].
    intros h. rewrite (Hops (Some o)), connected_drop.
    destruct (Nat.eqb_spec (streams_made c) h) as [<-|Hn]; [|reflexivity].
    rewrite Hnew. destruct (Nat.eqb o (streams_made c)); reflexivity.
  - split; [reflexivity|]. split; [apply delete_insert_id, Ho|].
    split; [apply lookup_delete_eq|]. split; [reflexivity|].
    intros h. rewrite (Hops None).
    destruct (Nat.eqb_spec (streams_made c) h) as [<-|Hn]; [|reflexivity].
    symmetry. exact Hnew.
Qed.

Lemma monitor_then_stop_witness :
  let c := crun libpulse
             [manager_event (new_sink 3 (sink_info "analog" 50) no_props);
              sink_monitor 0] connect in
  let stopped := cstep libpulse (sink_stop_monitor 0) c in
  let c' := cstep libpulse (sink_stop_monitor 0)
              (cstep libpulse (sink_monitor 0) c) in
  manager c' = manager stopped /\
  sink_stream c' = sink_stream stopped /\
  sink_stream c' !! 0%nat = None /\
  sink_input_stream c' = sink_input_stream stopped /\
  forall h, connected (operations c') h = connected (operations stopped) h.
Proof.
  intros c.
  assert (R : creachable libpulse c)
    by apply crun_creachable, creachable_connect.
  assert (Hs : exists s, sink_objects (manager c) !! 0%nat = Some s)
    by (vm_compute; eexists; reflexivity).
  destruct Hs as [s Hs].
  exact (monitor_then_stop libpulse c 0%nat s R Hs).
Defined.

(** [stop_monitor_stream] twice is [stop_monitor_stream] once, on a
    device and on a stream, whether or not the object has a stream. *)
Lemma stop_monitor_stream_idempotent (K : pa_constants) (c : connection)
  (self : ref) :
  cstep K (sink_stop_monitor self) (cstep K (sink_stop_monitor self) c)
  = cstep K (sink_stop_monitor self) c /\
  cstep K (sink_input_stop_monitor self)
    (cstep K (sink_input_stop_monitor self) c)
  = cstep K (sink_input_stop_monitor self) c.
Proof.
  unfold cstep, perform.
  rewrite !Sink_stop_monitor_stream_run, !SinkInput_stop_monitor_stream_run.
  split.
  - destruct (sink_stream c !! self) as [o|] eqn:Ho; simpl.
    + rewrite lookup_delete_eq. reflexivity.
    + rewrite Ho. reflexivity.
  - destruct (sink_input_stream c !! self) as [o|] eqn:Ho; simpl.
    + rewrite lookup_delete_eq. reflexivity.
    + rewrite Ho. reflexivity.
Qed.

(** X28: nothing but [monitor_stream] and [stop_monitor_stream] touches a
    peak stream.  Every other command, the removal of a device or of a
    stream from the manager included, leaves the [_stream] attributes as
    they are and the same streams connected. *)
Theorem only_monitor_moves_streams (K : pa_constants) (cmd : command)
  (c : connection) :
  monitor_command cmd = false ->
  let c' := cstep K cmd c in
  sink_stream c' = sink_stream c /\
  sink_input_stream c' = sink_input_stream c /\
  forall h, connected (operations c') h = connected (operations c) h.
Proof.
  intros Hcmd c'. subst c'.
  destruct (perform_same K cmd c) as (H1 & H2 & _ & H4).
  { destruct cmd; try discriminate; exact I. }
  auto.
Qed.

Lemma only_monitor_moves_streams_witness :
  let c := crun libpulse
             [manager_event (new_sink_input 1
                (sink_input_info "Playback" "protocol-native.c") no_props);
              sink_input_monitor 0] connect in
  let c' := cstep libpulse (manager_event (remove_sink_input 1)) c in
  (_pa_sink_inputs (manager c') !! 1 = None /\
   connected (operations c) 0%nat = true) /\
  sink_stream c' = sink_stream c /\
  sink_input_stream c' = sink_input_stream c /\
  forall h, connected (operations c') h = connected (operations c) h.
Proof.
  intros c.
  split; [split; vm_compute; reflexivity|].
  exact (only_monitor_moves_streams libpulse
           (manager_event (remove_sink_input 1)) c eq_refl).
Defined.

(** ** Callbacks of the connection *)

(** X29: the subscription callback does not tell a new object from a
    changed one: two events of the same facility, neither of them a
    removal, are handled alike, and neither changes the manager. *)
Theorem subscribe_new_or_change (K : pa_constants) (e1 e2 index : Z)
  (c : connection) :
  Z.land e1 (PA_SUBSCRIPTION_EVENT_FACILITY_MASK K)
    = Z.land e2 (PA_SUBSCRIPTION_EVENT_FACILITY_MASK K) ->
  Z.land e1 (PA_SUBSCRIPTION_EVENT_TYPE_MASK K)
    <> PA_SUBSCRIPTION_EVENT_REMOVE K ->
  Z.land e2 (PA_SUBSCRIPTION_EVENT_TYPE_MASK K)
    <> PA_SUBSCRIPTION_EVENT_REMOVE K ->
  perform K (subscription e1 index) c = perform K (subscription e2 index) c /\
  manager (cstep K (subscription e1 index) c) = manager c.
Proof.
  intros Hfac H1 H2. unfold cstep, perform, _pa_context_subscribe_cb.
  rewrite <- Hfac.
  apply Z.eqb_neq in H1, H2. rewrite H1, H2.
  split; [reflexivity|].
  repeat match goal with |- context [if ?b then _ else _] => destruct b end;
    reflexivity.
Qed.

Lemma subscribe_new_or_change_witness :
  perform libpulse (subscription 2 7) connect
    = perform libpulse (subscription 18 7) connect /\
  manager (cstep libpulse (subscription 2 7) connect) = manager connect.
Proof.
  apply (subscribe_new_or_change libpulse 2 18 7 connect);
    [reflexivity|discriminate|discriminate].
Defined.

(** X30: from the callback to the name shown.  When libpulse describes a
    stream of an accepted driver under a free index, with a property list
    of lines [key = "value"] closed by a line feed, the manager holds a
    stream object under that index whose [name] is the two properties
    [application.name] and [media.name] joined by a colon, [None] standing
    for a property that is missing. *)
Theorem sink_input_info_name (c : connection) (i : info pa_sink_input_info)
  (entries : list (bytes * bytes)) :
  Forall (fun e => plain_key (fst e) /\ plain_value (snd e)) entries ->
  info_proplist i
    = String.append (proplist_text entries) (String newline EmptyString) ->
  py_in (PyStr (decode (sii_driver (info_contents i))))
    [PyStr "protocol-native.c"; PyStr "PipeWire"] = true ->
  _pa_sink_inputs (manager c) !! info_index i = None ->
  let props : proplist := list_to_map (rev entries) in
  let c' := fst (_pa_sink_input_info_cb (Some i) true c) in
  exists r,
    _pa_sink_inputs (manager c') !! info_index i = Some r /\
    SinkInput_name r (manager c') =
      (manager c',
       Ok (Some (String.append (py_format (props !! "application.name"))
                   (String.append ": " (py_format (props !! "media.name")))))).
Proof.
  intros Hall Htext Hdrv Hnone props c'. subst c'.
  unfold _pa_sink_input_info_cb, on_manager.
  rewrite Htext, dict_from_proplist_closed_entries by exact Hall.
  fold props.
  rewrite new_sink_input_accepted by exact Hdrv.
  rewrite Hnone, SinkInput_new_run. cbv zeta. simpl.
  exists (length (sink_input_objects (manager c))). split.
  - apply lookup_insert_eq.
  - unfold SinkInput_name, read_sink_input.
    erewrite bind_Ok.
    2:{ simpl. rewrite list_lookup_middle by reflexivity. reflexivity. }
    unfold try_except, SinkInput_updated. simpl.
    rewrite !lookup_insert_ne by discriminate.
    destruct (props !! "application.name"), (props !! "media.name");
      reflexivity.
Qed.

Lemma sink_input_info_name_witness :
  let i :=
    {| info_index := 1;
       info_contents := sink_input_info "Playback" "PipeWire";
       info_proplist :=
         String.append
           (proplist_text [("application.name", "mpv"); ("media.role", "video")])
           (String newline EmptyString) |} in
  let c' := fst (_pa_sink_input_info_cb (Some i) true connect) in
  exists r,
    _pa_sink_inputs (manager c') !! 1 = Some r /\
    SinkInput_name r (manager c') = (manager c', Ok (Some "mpv: None")).
Proof.
  intros i.
  apply (sink_input_info_name connect i
           [("application.name", "mpv"); ("media.role", "video")]).
  - repeat constructor.
  - reflexivity.
  - reflexivity.
  - reflexivity.
Defined.
